(** * ESP32 court alarm timer (WAV version): timers, alarms and the shared
      audio channel

    A shallow embedding of [ESP32_Alarm_SystemVwav.ino.ino]: the four court
    timers, the four alarm slots, the LED outputs and the single WAV playback
    channel, with the request handlers and the three update passes of
    [loop()].

    Conventions.
    - [unsigned long] is 32 bits wide on the ESP32: such values are [Z] in
      [0, 2^32) and every operation is wrapped with [wrap32].  [int] and
      [long] are 32-bit two's complement ([to_int]).
    - The global arrays of size 4 are lists; [l !! i] reads and
      [alter f i l] writes entry [i].  Every caller passes an index in
      [0,4); out of that range (undefined behaviour in C) the model leaves
      the state alone.
    - [millis()] is an input of each handler and each update pass; one pass
      is taken to run within one clock value.
    - The SD and LittleFS file systems and the WAV decoder are an
      environment [Storage] that the modelled code only reads. *)

From Stdlib Require Import ZArith Lia Bool List String.
From stdpp Require Import base list.

Local Open Scope Z_scope.

(** ** Machine integers *)

(** [unsigned long]: arithmetic modulo 2^32. *)
Definition wrap32 (z : Z) : Z := z mod 2 ^ 32.

(** [int] and [long]: 32-bit two's complement. *)
Definition to_int (z : Z) : Z := (z + 2 ^ 31) mod 2 ^ 32 - 2 ^ 31.

(** ** Data model *)

Record Timer := {
  running : bool;
  paused : bool;
  startTime : Z;          (* unsigned long *)
  pauseTime : Z;          (* unsigned long *)
  duration : Z;           (* unsigned long, milliseconds *)
  remainingTime : Z;      (* unsigned long, seconds *)
  warningTriggered : bool;
  alarmTriggered : bool;
  playerName : string;
  sessionCount : Z;       (* int *)
  totalPlayTime : Z       (* unsigned long *)
}.

Record CourtSettings := {
  volume : Z;
  warningTime : Z;        (* minutes *)
  loopAlarm : bool
}.

Record Config := {
  globalVolume : Z;
  alarmDuration : Z;      (* seconds *)
  warningDuration : Z;    (* seconds *)
  useSDCard : bool
}.

(** The fields [startTime] and [duration] of the source struct carry the
    prefix [a_] here, the names being taken by [Timer]. *)
Record AlarmState := {
  active : bool;
  a_startTime : Z;        (* unsigned long *)
  a_duration : Z;         (* int, milliseconds *)
  isWarning : bool;
  fieldIndex : nat;
  looping : bool
}.

Inductive Backend := SDcard | LittleFS.

(** The [AudioGeneratorWAV] object behind the pointer [wav].  The source
    object has no fields of interest; the two fields below are ghost
    annotations recording the arguments of the [playAudio] call that
    created it, so that statements can speak of the court whose clip is
    being rendered. *)
Record WavGen := {
  w_court : nat;
  w_isWarning : bool
}.

(** The "Audio objects" and "Audio State" globals.  A file source is
    represented by the path it was opened on. *)
Record Audio := {
  wav : option WavGen;
  fileSD : option string;
  fileLittleFS : option string;
  audioPlaying : bool
}.

(** Lines written to [Serial] by the two update passes. *)
Inductive SerialLine :=
| SerWarning (i : nat)     (* "Warning alarm Court i+1" *)
| SerTimeUp (i : nat)      (* "Time up alarm Court i+1" *)
| SerLoop (i : nat).       (* "Loop alarm Court i+1" *)

Record State := {
  timers : list Timer;
  courtSettings : list CourtSettings;
  config : Config;
  alarmStates : list AlarmState;
  leds : list bool;                 (* level written to LED_PINS[i] *)
  audio : Audio;
  audioSystemReady : bool;
  sdCardAvailable : bool;
  littleFSAvailable : bool;
  serial : list SerialLine          (* most recent line first *)
}.

(** What the code reads from the outside: [SD.exists], [LittleFS.exists]
    and the result of [wav->begin(file, out)]. *)
Record Storage := {
  sd_exists : string -> bool;
  lfs_exists : string -> bool;
  wav_begin : Backend -> string -> bool
}.

(** ** Field updates *)

Definition set_timers (s : State) (x : list Timer) : State :=
  {| timers := x; courtSettings := courtSettings s; config := config s;
     alarmStates := alarmStates s; leds := leds s; audio := audio s;
     audioSystemReady := audioSystemReady s;
     sdCardAvailable := sdCardAvailable s;
     littleFSAvailable := littleFSAvailable s; serial := serial s |}.

Definition set_courtSettings (s : State) (x : list CourtSettings) : State :=
  {| timers := timers s; courtSettings := x; config := config s;
     alarmStates := alarmStates s; leds := leds s; audio := audio s;
     audioSystemReady := audioSystemReady s;
     sdCardAvailable := sdCardAvailable s;
     littleFSAvailable := littleFSAvailable s; serial := serial s |}.

Definition set_config (s : State) (x : Config) : State :=
  {| timers := timers s; courtSettings := courtSettings s; config := x;
     alarmStates := alarmStates s; leds := leds s; audio := audio s;
     audioSystemReady := audioSystemReady s;
     sdCardAvailable := sdCardAvailable s;
     littleFSAvailable := littleFSAvailable s; serial := serial s |}.

Definition set_alarmStates (s : State) (x : list AlarmState) : State :=
  {| timers := timers s; courtSettings := courtSettings s; config := config s;
     alarmStates := x; leds := leds s; audio := audio s;
     audioSystemReady := audioSystemReady s;
     sdCardAvailable := sdCardAvailable s;
     littleFSAvailable := littleFSAvailable s; serial := serial s |}.

Definition set_leds (s : State) (x : list bool) : State :=
  {| timers := timers s; courtSettings := courtSettings s; config := config s;
     alarmStates := alarmStates s; leds := x; audio := audio s;
     audioSystemReady := audioSystemReady s;
     sdCardAvailable := sdCardAvailable s;
     littleFSAvailable := littleFSAvailable s; serial := serial s |}.

Definition set_audio (s : State) (x : Audio) : State :=
  {| timers := timers s; courtSettings := courtSettings s; config := config s;
     alarmStates := alarmStates s; leds := leds s; audio := x;
     audioSystemReady := audioSystemReady s;
     sdCardAvailable := sdCardAvailable s;
     littleFSAvailable := littleFSAvailable s; serial := serial s |}.

(** [Serial.println] of one of the modelled lines. *)
Definition println (e : SerialLine) (s : State) : State :=
  {| timers := timers s; courtSettings := courtSettings s; config := config s;
     alarmStates := alarmStates s; leds := leds s; audio := audio s;
     audioSystemReady := audioSystemReady s;
     sdCardAvailable := sdCardAvailable s;
     littleFSAvailable := littleFSAvailable s; serial := e :: serial s |}.

(** ** Audio file tables *)

Definition audioFiles : list (string * string) :=
  [ ("/audio/alarm1.wav", "/audio/warning1.wav");
    ("/audio/alarm2.wav", "/audio/warning2.wav");
    ("/audio/alarm3.wav", "/audio/warning3.wav");
    ("/audio/alarm4.wav", "/audio/warning4.wav") ]%string.

Definition defaultAudioFiles : string * string :=
  ("/audio/alarm.wav", "/audio/warning.wav")%string.

(** [audioFiles[fieldIndex][isWarning ? 1 : 0]] *)
Definition audioFile (fieldIndex : nat) (isWarning : bool) : string :=
  match audioFiles !! fieldIndex with
  | Some (a, w) => if isWarning then w else a
  | None => EmptyString
  end.

(** [defaultAudioFiles[isWarning ? 1 : 0]] *)
Definition defaultAudioFile (isWarning : bool) : string :=
  if isWarning then snd defaultAudioFiles else fst defaultAudioFiles.

(** ** LED outputs *)

Definition activateLED (index : nat) (s : State) : State :=
  if (index <? 4)%nat then set_leds s (<[index := true]> (leds s)) else s.

Definition deactivateLED (index : nat) (s : State) : State :=
  if (index <? 4)%nat then set_leds s (<[index := false]> (leds s)) else s.

(** ** The audio channel *)

Definition idle_audio : Audio :=
  {| wav := None; fileSD := None; fileLittleFS := None;
     audioPlaying := false |}.

(** Every pointer is released and cleared, [audioPlaying] is reset. *)
Definition stopAudio (s : State) : State := set_audio s idle_audio.

Definition file_exists (env : Storage) (b : Backend) (path : string) : bool :=
  match b with
  | SDcard => sd_exists env path
  | LittleFS => lfs_exists env path
  end.

(** One "exists / new source / new generator / begin" block of [playAudio]
    on a channel that [stopAudio] has just cleared: [Some] is the state at
    the [return], [None] means the block fell through with the pointers
    cleared again. *)
Definition openClip (env : Storage) (b : Backend) (path : string)
    (fieldIndex : nat) (isWarn : bool) (s : State) : option State :=
  if file_exists env b path then
    if wav_begin env b path then
      Some (set_audio s
        {| wav := Some {| w_court := fieldIndex; w_isWarning := isWarn |};
           fileSD := match b with SDcard => Some path | LittleFS => None end;
           fileLittleFS :=
             match b with SDcard => None | LittleFS => Some path end;
           audioPlaying := true |})
    else None
  else None.

(** [if (useSD) {...} else if (littleFSAvailable) {...}] *)
Definition tryBackends (env : Storage) (useSD : bool) (path : string)
    (fieldIndex : nat) (isWarn : bool) (s : State) : option State :=
  if useSD then openClip env SDcard path fieldIndex isWarn s
  else if littleFSAvailable s then
    openClip env LittleFS path fieldIndex isWarn s
  else None.

Definition playAudio (env : Storage) (fieldIndex : nat) (isWarn : bool)
    (s : State) : State :=
  if negb (audioSystemReady s) then s
  else
    let s := stopAudio s in
    let useSD := useSDCard (config s) && sdCardAvailable s in
    match tryBackends env useSD (audioFile fieldIndex isWarn)
            fieldIndex isWarn s with
    | Some s' => s'
    | None =>
      match tryBackends env useSD (defaultAudioFile isWarn)
              fieldIndex isWarn s with
      | Some s' => s'
      | None => s
      end
    end.

(** [wav->isRunning()] and [wav->loop()] are decoder outcomes, given as
    inputs. *)
Definition updateAudioPlayback (isRunning loopOk : bool) (s : State) : State :=
  if audioPlaying (audio s) && bool_decide (wav (audio s) <> None) then
    if isRunning then (if negb loopOk then stopAudio s else s)
    else stopAudio s
  else s.

(** ** Alarms *)

Definition triggerAlarm (env : Storage) (now : Z) (index : nat)
    (durationSeconds : Z) (isWarn : bool) (s : State) : State :=
  let loopFlag :=
    match courtSettings s !! index with
    | Some cs => loopAlarm cs
    | None => false
    end in
  let a := {| active := true;
              a_startTime := now;
              a_duration := to_int (wrap32 (durationSeconds * 1000));
              isWarning := isWarn;
              fieldIndex := index;
              looping := loopFlag |} in
  let s := set_alarmStates s (<[index := a]> (alarmStates s)) in
  let s := activateLED index s in
  playAudio env index isWarn s.

Definition alarm_restart (now : Z) (a : AlarmState) : AlarmState :=
  {| active := active a; a_startTime := now; a_duration := a_duration a;
     isWarning := isWarning a; fieldIndex := fieldIndex a;
     looping := looping a |}.

Definition alarm_deactivate (a : AlarmState) : AlarmState :=
  {| active := false; a_startTime := a_startTime a;
     a_duration := a_duration a; isWarning := isWarning a;
     fieldIndex := fieldIndex a; looping := looping a |}.

(** Body of the [for] loop of [updateAlarms] for court [i]. *)
Definition updateAlarm (env : Storage) (now : Z) (i : nat) (s : State)
    : State :=
  match alarmStates s !! i, courtSettings s !! i with
  | Some a, Some cs =>
    if negb (active a) then s
    else
      let elapsed := wrap32 (now - a_startTime a) in
      if wrap32 (a_duration a) <=? elapsed then
        if looping a && loopAlarm cs then
          let s := set_alarmStates s
                     (alter (alarm_restart now) i (alarmStates s)) in
          println (SerLoop i) (playAudio env i (isWarning a) s)
        else
          let s := set_alarmStates s
                     (alter alarm_deactivate i (alarmStates s)) in
          stopAudio (deactivateLED i s)
      else s
  | _, _ => s
  end.

Definition courts : list nat := [0; 1; 2; 3]%nat.

Definition updateAlarms (env : Storage) (now : Z) (s : State) : State :=
  fold_left (fun s i => updateAlarm env now i s) courts s.

(** ** Timers *)

(** [elapsed] and the clamped [remaining] of [updateTimers]:
    the subtraction and the division are [unsigned long], the result is
    stored in a [long]. *)
Definition elapsed_at (now : Z) (t : Timer) : Z := wrap32 (now - startTime t).

Definition remaining_at (now : Z) (t : Timer) : Z :=
  let remaining := to_int (wrap32 (duration t - elapsed_at now t) / 1000) in
  if remaining <? 0 then 0 else remaining.

Definition timer_tick (now : Z) (t : Timer) : Timer :=
  {| running := running t; paused := paused t; startTime := startTime t;
     pauseTime := pauseTime t; duration := duration t;
     remainingTime := wrap32 (remaining_at now t);
     warningTriggered := warningTriggered t;
     alarmTriggered := alarmTriggered t; playerName := playerName t;
     sessionCount := sessionCount t;
     totalPlayTime := elapsed_at now t / 1000 |}.

Definition timer_latch_warning (t : Timer) : Timer :=
  {| running := running t; paused := paused t; startTime := startTime t;
     pauseTime := pauseTime t; duration := duration t;
     remainingTime := remainingTime t; warningTriggered := true;
     alarmTriggered := alarmTriggered t; playerName := playerName t;
     sessionCount := sessionCount t; totalPlayTime := totalPlayTime t |}.

Definition timer_latch_alarm (t : Timer) : Timer :=
  {| running := false; paused := paused t; startTime := startTime t;
     pauseTime := pauseTime t; duration := duration t;
     remainingTime := remainingTime t;
     warningTriggered := warningTriggered t; alarmTriggered := true;
     playerName := playerName t; sessionCount := sessionCount t;
     totalPlayTime := totalPlayTime t |}.

Definition warning_due (now : Z) (t : Timer) (cs : CourtSettings) : bool :=
  negb (warningTriggered t)
  && (remaining_at now t <=? to_int (warningTime cs * 60))
  && (0 <? remaining_at now t).

Definition timeup_due (now : Z) (t : Timer) : bool :=
  negb (alarmTriggered t) && (remaining_at now t <=? 0).

(** Body of the [for] loop of [updateTimers] for court [i]. *)
Definition updateTimer (env : Storage) (now : Z) (i : nat) (s : State)
    : State :=
  match timers s !! i, courtSettings s !! i with
  | Some t, Some cs =>
    if negb (running t) || paused t then s
    else
      let s := set_timers s (alter (timer_tick now) i (timers s)) in
      let s :=
        if warning_due now t cs then
          let s := set_timers s (alter timer_latch_warning i (timers s)) in
          println (SerWarning i)
            (triggerAlarm env now i (warningDuration (config s)) true s)
        else s in
      if timeup_due now t then
        let s := set_timers s (alter timer_latch_alarm i (timers s)) in
        println (SerTimeUp i)
          (triggerAlarm env now i (alarmDuration (config s)) false s)
      else s
  | _, _ => s
  end.

Definition updateTimers (env : Storage) (now : Z) (s : State) : State :=
  fold_left (fun s i => updateTimer env now i s) courts s.

(** ** Request handlers *)

(** What a handler finds in the request: no ["plain"] argument, a body
    that [deserializeJson] refuses, or the values read from the document. *)
Inductive Body (A : Type) :=
| NoData
| InvalidJson
| Parsed (a : A).
Arguments NoData {A}.
Arguments InvalidJson {A}.
Arguments Parsed {A} a.

(** [server.send(code, "text/plain", text)] *)
Record Response := { code : Z; text : string }.

Definition reply (c : Z) (t : string) : Response := {| code := c; text := t |}.

Definition invalidCourt (courtId : Z) : bool :=
  (courtId <? 0) || (4 <=? courtId).

Record StartArgs := {
  st_courtId : Z;
  st_duration : Z;            (* minutes *)
  st_playerName : string
}.

(** Assignments of [handleStart] on [timers[courtId]]; [duration * 60] is
    an [int] product, widened to [unsigned long] afterwards. *)
Definition timer_start (now : Z) (d : Z) (name : string) (t : Timer) : Timer :=
  {| running := true; paused := false; startTime := now;
     pauseTime := pauseTime t;
     duration := wrap32 (to_int (d * 60) * 1000);
     remainingTime := wrap32 (to_int (d * 60));
     warningTriggered := false; alarmTriggered := false;
     playerName := name;
     sessionCount := to_int (sessionCount t + 1);
     totalPlayTime := totalPlayTime t |}.

Definition handleStart (now : Z) (b : Body StartArgs) (s : State)
    : Response * State :=
  match b with
  | NoData => (reply 400 "No data received", s)
  | InvalidJson => (reply 400 "Invalid JSON", s)
  | Parsed a =>
    if invalidCourt (st_courtId a) then (reply 400 "Invalid court ID", s)
    else
      let i := Z.to_nat (st_courtId a) in
      (reply 200 "Timer started",
       set_timers s
         (alter (timer_start now (st_duration a) (st_playerName a)) i
            (timers s)))
  end.

Definition timer_pause (now : Z) (t : Timer) : Timer :=
  {| running := running t; paused := true; startTime := startTime t;
     pauseTime := now; duration := duration t;
     remainingTime := remainingTime t;
     warningTriggered := warningTriggered t;
     alarmTriggered := alarmTriggered t; playerName := playerName t;
     sessionCount := sessionCount t; totalPlayTime := totalPlayTime t |}.

Definition timer_resume (now : Z) (t : Timer) : Timer :=
  let pauseDuration := wrap32 (now - pauseTime t) in
  {| running := running t; paused := false;
     startTime := wrap32 (startTime t + pauseDuration);
     pauseTime := pauseTime t; duration := duration t;
     remainingTime := remainingTime t;
     warningTriggered := warningTriggered t;
     alarmTriggered := alarmTriggered t; playerName := playerName t;
     sessionCount := sessionCount t; totalPlayTime := totalPlayTime t |}.

(** The [if / else if] of [handlePause] on one timer. *)
Definition timer_toggle (now : Z) (t : Timer) : Timer :=
  if running t && negb (paused t) then timer_pause now t
  else if paused t then timer_resume now t
  else t.

Definition handlePause (now : Z) (b : Body Z) (s : State)
    : Response * State :=
  match b with
  | NoData => (reply 400 "No data received", s)
  | InvalidJson => (reply 400 "Invalid JSON", s)
  | Parsed courtId =>
    if invalidCourt courtId then (reply 400 "Invalid court ID", s)
    else
      let i := Z.to_nat courtId in
      (reply 200 "Timer toggled",
       set_timers s (alter (timer_toggle now) i (timers s)))
  end.

Definition timer_stop (t : Timer) : Timer :=
  {| running := false; paused := false; startTime := startTime t;
     pauseTime := pauseTime t; duration := duration t;
     remainingTime := 0;
     warningTriggered := warningTriggered t;
     alarmTriggered := alarmTriggered t; playerName := playerName t;
     sessionCount := sessionCount t; totalPlayTime := totalPlayTime t |}.

Definition handleStop (b : Body Z) (s : State) : Response * State :=
  match b with
  | NoData => (reply 400 "No data received", s)
  | InvalidJson => (reply 400 "Invalid JSON", s)
  | Parsed courtId =>
    if invalidCourt courtId then (reply 400 "Invalid court ID", s)
    else
      let i := Z.to_nat courtId in
      let s := set_timers s (alter timer_stop i (timers s)) in
      let s := deactivateLED i s in
      (reply 200 "Timer stopped", stopAudio s)
  end.

(** The values of [handleSettings] after the [| default] of each read. *)
Record SettingsArgs := {
  se_courtId : Z;
  se_volume : Z;
  se_warningTime : Z;
  se_loopAlarm : bool
}.

Definition handleSettings (b : Body SettingsArgs) (s : State)
    : Response * State :=
  match b with
  | NoData => (reply 400 "No data received", s)
  | InvalidJson => (reply 400 "Invalid JSON", s)
  | Parsed a =>
    if invalidCourt (se_courtId a) then (reply 400 "Invalid court ID", s)
    else
      let i := Z.to_nat (se_courtId a) in
      let cs := {| volume := se_volume a; warningTime := se_warningTime a;
                   loopAlarm := se_loopAlarm a |} in
      (reply 200 "Settings saved",
       set_courtSettings s (<[i := cs]> (courtSettings s)))
  end.

(** [handleSetDuration]: a key missing from the document keeps the
    configured value. *)
Definition handleSetDuration (b : Body (option Z * option Z)) (s : State)
    : Response * State :=
  match b with
  | NoData => (reply 400 "No data received", s)
  | InvalidJson => (reply 400 "Invalid JSON", s)
  | Parsed (oa, ow) =>
    let alarmDur := default (alarmDuration (config s)) oa in
    let warnDur := default (warningDuration (config s)) ow in
    if (alarmDur <? 1) || (60 <? alarmDur) then
      (reply 400 "Alarm duration must be 1-60 seconds", s)
    else if (warnDur <? 1) || (30 <? warnDur) then
      (reply 400 "Warning duration must be 1-30 seconds", s)
    else
      (reply 200 "Duration updated successfully",
       set_config s
         {| globalVolume := globalVolume (config s);
            alarmDuration := alarmDur; warningDuration := warnDur;
            useSDCard := useSDCard (config s) |})
  end.

Definition handleGlobalVolume (b : Body Z) (s : State) : Response * State :=
  match b with
  | NoData => (reply 400 "No data received", s)
  | InvalidJson => (reply 400 "Invalid JSON", s)
  | Parsed v =>
    (reply 200 "Volume updated",
     set_config s
       {| globalVolume := v; alarmDuration := alarmDuration (config s);
          warningDuration := warningDuration (config s);
          useSDCard := useSDCard (config s) |})
  end.

(** The serial commands that change state, after [toInt]. *)
Inductive SerialCommand :=
| CmdAlarm (dur : Z)
| CmdWarning (dur : Z)
| CmdOther.

Definition handleSerialCommand (c : SerialCommand) (s : State) : State :=
  match c with
  | CmdAlarm dur =>
    if (1 <=? dur) && (dur <=? 60) then
      set_config s
        {| globalVolume := globalVolume (config s); alarmDuration := dur;
           warningDuration := warningDuration (config s);
           useSDCard := useSDCard (config s) |}
    else s
  | CmdWarning dur =>
    if (1 <=? dur) && (dur <=? 30) then
      set_config s
        {| globalVolume := globalVolume (config s);
           alarmDuration := alarmDuration (config s);
           warningDuration := dur; useSDCard := useSDCard (config s) |}
    else s
  | CmdOther => s
  end.

(** ** Start-up and the transition system *)

Definition idle_timer : Timer :=
  {| running := false; paused := false; startTime := 0; pauseTime := 0;
     duration := 0; remainingTime := 0; warningTriggered := false;
     alarmTriggered := false; playerName := EmptyString; sessionCount := 0;
     totalPlayTime := 0 |}.

Definition idle_alarm (i : nat) : AlarmState :=
  {| active := false; a_startTime := 0; a_duration := 0;
     isWarning := false; fieldIndex := i; looping := false |}.

(** State at the end of [setup()]: [sd] and [lfs] are the results of the
    two mounts, [cfg] and [prefs] what [preferences] holds. *)
Definition setup (sd lfs : bool) (cfg : Config) (prefs : nat -> CourtSettings)
    : State :=
  {| timers := map (fun _ => idle_timer) courts;
     courtSettings := map prefs courts;
     config := cfg;
     alarmStates := map idle_alarm courts;
     leds := map (fun _ => false) courts;
     audio := idle_audio;
     audioSystemReady := true;
     sdCardAvailable := sd;
     littleFSAvailable := lfs;
     serial := [] |}.

(** Everything [loop()] can do to the state, one call at a time. *)
Inductive Op :=
| OStart (now : Z) (b : Body StartArgs)
| OPause (now : Z) (b : Body Z)
| OStop (b : Body Z)
| OSettings (b : Body SettingsArgs)
| OSetDuration (b : Body (option Z * option Z))
| OGlobalVolume (b : Body Z)
| OSerial (c : SerialCommand)
| OTimers (now : Z)
| OAlarms (now : Z)
| OAudio (isRunning loopOk : bool).

Definition exec (env : Storage) (op : Op) (s : State) : State :=
  match op with
  | OStart now b => snd (handleStart now b s)
  | OPause now b => snd (handlePause now b s)
  | OStop b => snd (handleStop b s)
  | OSettings b => snd (handleSettings b s)
  | OSetDuration b => snd (handleSetDuration b s)
  | OGlobalVolume b => snd (handleGlobalVolume b s)
  | OSerial c => handleSerialCommand c s
  | OTimers now => updateTimers env now s
  | OAlarms now => updateAlarms env now s
  | OAudio r l => updateAudioPlayback r l s
  end.

Definition run (env : Storage) (ops : list Op) (s : State) : State :=
  fold_left (fun s op => exec env op s) ops s.

Inductive reachable (env : Storage) : State -> Prop :=
| reach_setup sd lfs cfg prefs : reachable env (setup sd lfs cfg prefs)
| reach_step s op : reachable env s -> reachable env (exec env op s).

(** ** Observations used in the statements *)

Definition timer_of (s : State) (c : nat) : Timer :=
  default idle_timer (timers s !! c).

Definition alarm_of (s : State) (c : nat) : AlarmState :=
  default (idle_alarm c) (alarmStates s !! c).

Definition led_of (s : State) (c : nat) : bool :=
  default false (leds s !! c).

(** The court whose clip the channel is rendering, if any. *)
Definition owner (s : State) : option nat :=
  if audioPlaying (audio s) then w_court <$> wav (audio s) else None.

Definition wf (s : State) : Prop :=
  length (timers s) = 4%nat /\ length (courtSettings s) = 4%nat /\
  length (alarmStates s) = 4%nat /\ length (leds s) = 4%nat.

(** The channel is one slot: either nothing is open, or one generator is
    decoding exactly one file source; it only plays once the audio system
    is up. *)
Definition audio_inv (s : State) : Prop :=
  match wav (audio s), fileSD (audio s), fileLittleFS (audio s) with
  | None, None, None => audioPlaying (audio s) = false
  | Some _, Some _, None | Some _, None, Some _ =>
      audioPlaying (audio s) = true /\ audioSystemReady s = true
  | _, _, _ => False
  end.

Definition settings_of (s : State) (c : nat) : CourtSettings :=
  default {| volume := 0; warningTime := 0; loopAlarm := false |}
    (courtSettings s !! c).

(** The storage backend [playAudio] selects, if any. *)
Definition backend_of (s : State) : option Backend :=
  if useSDCard (config s) && sdCardAvailable s then Some SDcard
  else if littleFSAvailable s then Some LittleFS
  else None.

Definition opens (env : Storage) (b : Backend) (path : string) : bool :=
  file_exists env b path && wav_begin env b path.

(** The clip [playAudio] ends up decoding for court [i]: the court's own
    file, else the default file, both on the selected backend only. *)
Definition clip_for (env : Storage) (s : State) (i : nat) (isWarn : bool)
    : option (Backend * string) :=
  match backend_of s with
  | None => None
  | Some b =>
    if opens env b (audioFile i isWarn) then Some (b, audioFile i isWarn)
    else if opens env b (defaultAudioFile isWarn)
    then Some (b, defaultAudioFile isWarn)
    else None
  end.

Definition playing (b : Backend) (path : string) (i : nat) (isWarn : bool)
    : Audio :=
  {| wav := Some {| w_court := i; w_isWarning := isWarn |};
     fileSD := match b with SDcard => Some path | LittleFS => None end;
     fileLittleFS := match b with SDcard => None | LittleFS => Some path end;
     audioPlaying := true |}.

Definition channel_after (env : Storage) (s : State) (i : nat) (isWarn : bool)
    : Audio :=
  match clip_for env s i isWarn with
  | Some (b, p) => playing b p i isWarn
  | None => idle_audio
  end.

(** Court [i] raises an event on a timer pass at [now]. *)
Definition fires (now : Z) (s : State) (i : nat) : bool :=
  running (timer_of s i) && negb (paused (timer_of s i))
  && (warning_due now (timer_of s i) (settings_of s i)
      || timeup_due now (timer_of s i)).

(** A paused timer is a running timer. *)
Definition paused_inv (s : State) : Prop :=
  forall c t, timers s !! c = Some t -> paused t = true -> running t = true.

(** The LED of a court shows whether its alarm is active. *)
Definition led_inv (s : State) : Prop :=
  forall c, (c < 4)%nat -> led_of s c = active (alarm_of s c).

Fixpoint count_line (p : SerialLine -> bool) (l : list SerialLine) : nat :=
  match l with
  | [] => 0%nat
  | e :: l => ((if p e then 1 else 0) + count_line p l)%nat
  end.

Definition is_warning_line (c : nat) (e : SerialLine) : bool :=
  match e with SerWarning i => Nat.eqb i c | _ => false end.

Definition is_timeup_line (c : nat) (e : SerialLine) : bool :=
  match e with SerTimeUp i => Nat.eqb i c | _ => false end.

(** Number of warning (expiry) alarms court [c] has raised so far. *)
Definition warnings_fired (c : nat) (s : State) : nat :=
  count_line (is_warning_line c) (serial s).

Definition timeups_fired (c : nat) (s : State) : nat :=
  count_line (is_timeup_line c) (serial s).

(** [op] is a Start request that [handleStart] accepts for court [c]. *)
Definition restarts (c : nat) (op : Op) : bool :=
  match op with
  | OStart _ (Parsed a) =>
      negb (invalidCourt (st_courtId a)) && Nat.eqb (Z.to_nat (st_courtId a)) c
  | _ => false
  end.

(** [op] is one of the three update passes of [loop()]. *)
Definition is_pass (op : Op) : bool :=
  match op with
  | OTimers _ | OAlarms _ | OAudio _ _ => true
  | _ => false
  end.

(** What is left of the one-shot allowance of court [c]: the events raised
    so far, plus one while the latch is still clear. *)
Definition warning_budget (c : nat) (s : State) : nat :=
  (warnings_fired c s + (if warningTriggered (timer_of s c) then 0 else 1))%nat.

Definition timeup_budget (c : nat) (s : State) : nat :=
  (timeups_fired c s + (if alarmTriggered (timer_of s c) then 0 else 1))%nat.

(** Court [i] reaches expiry on a timer pass at [now]: it is running, not
    paused, its expiry latch is clear and the pass computes a remaining
    time of zero. *)
Definition expires (now : Z) (s : State) (i : nat) : bool :=
  running (timer_of s i) && negb (paused (timer_of s i))
  && timeup_due now (timer_of s i).

(** The court that owns the channel once [playAudio] has run for court [i]. *)
Definition owner_after (env : Storage) (s : State) (i : nat) (isWarn : bool)
    : option nat :=
  match clip_for env s i isWarn with
  | Some _ => Some i
  | None => None
  end.

Definition is_stop (op : Op) : bool :=
  match op with OStop _ => true | _ => false end.

(** ** Sample configurations *)

(** The values [loadConfiguration] and [setup] fall back to when
    [preferences] is empty. *)
Definition default_config : Config :=
  {| globalVolume := 70; alarmDuration := 12; warningDuration := 8;
     useSDCard := true |}.

Definition default_prefs (i : nat) : CourtSettings :=
  {| volume := 70; warningTime := 5; loopAlarm := false |}.

(** Both file systems mounted, factory settings. *)
Definition boot : State := setup true true default_config default_prefs.

(** An SD card holding every clip. *)
Definition sd_full : Storage :=
  {| sd_exists := fun _ => true; lfs_exists := fun _ => false;
     wav_begin := fun _ _ => true |}.

(** A mounted SD card without audio files; the clips are on LittleFS. *)
Definition sd_blank : Storage :=
  {| sd_exists := fun _ => false; lfs_exists := fun _ => true;
     wav_begin := fun _ _ => true |}.

(** An SD card holding [warning1.wav], the warning clip of court 0, and
    nothing else. *)
Definition sd_one_clip : Storage :=
  {| sd_exists := fun p => String.eqb p "/audio/warning1.wav";
     lfs_exists := fun _ => false;
     wav_begin := fun _ _ => true |}.

Definition start_args (c d : Z) : StartArgs :=
  {| st_courtId := c; st_duration := d; st_playerName := "guest" |}.

Definition start_court (c d : Z) : Body StartArgs := Parsed (start_args c d).

(** Court 0 started for one minute; the first timer pass raises its
    warning alarm (the warning lead is five minutes). *)
Definition one_alarm (env : Storage) : State :=
  run env [OStart 0 (start_court 0 1); OTimers 10] boot.

(** As above, and court 1 started a second later: both warning alarms are
    active and the channel renders the clip of court 1. *)
Definition two_alarms : State :=
  run sd_full
    [OStart 0 (start_court 0 1); OTimers 10;
     OStart 1000 (start_court 1 1); OTimers 1010] boot.

(** Courts 0 and 1 started together for one minute, warnings over. *)
Definition two_timers (env : Storage) : State :=
  run env
    [OStart 0 (start_court 0 1); OStart 0 (start_court 1 1);
     OTimers 10; OAlarms 8010] boot.

(** Court 0 started for one minute and last polled one second before the
    deadline. *)
Definition near_deadline : State :=
  run sd_full [OStart 0 (start_court 0 1); OTimers 59000] boot.

(** Court 0 started for one minute at clock 0. *)
Definition started0 : State := exec sd_full (OStart 0 (start_court 0 1)) boot.

Definition some_passes : list Op :=
  [OTimers 6000; OAlarms 6000; OAudio true true; OTimers 7000].

Definition many_passes : list Op :=
  [OTimers 10; OTimers 20; OAlarms 8010; OTimers 59500; OTimers 59510;
   OPause 59520 (Parsed 0); OTimers 59600].

(** ** Further observations *)

(** The ranges [handleSetDuration] and [handleSerialCommand] accept. *)
Definition config_ok (cfg : Config) : Prop :=
  1 <= alarmDuration cfg <= 60 /\ 1 <= warningDuration cfg <= 30.

(** The alarm slot [triggerAlarm] writes for court [i]. *)
Definition new_alarm (now d : Z) (isWarn : bool) (i : nat) (loopFlag : bool)
    : AlarmState :=
  {| active := true; a_startTime := now;
     a_duration := to_int (wrap32 (d * 1000)); isWarning := isWarn;
     fieldIndex := i; looping := loopFlag |}.

(** Every active alarm has a window of 1 to 60 seconds, a warning alarm of
    at most 30 seconds. *)
Definition alarms_ok (s : State) : Prop :=
  forall c a, alarmStates s !! c = Some a -> active a = true ->
    1000 <= a_duration a <= 60000 /\
    (isWarning a = true -> a_duration a <= 30000).

(** A timer that is not running shows no remaining time, and a timer whose
    expiry latch is set is not running. *)
Definition idle_inv (s : State) : Prop :=
  forall c t, timers s !! c = Some t ->
    (running t = false -> remainingTime t = 0) /\
    (alarmTriggered t = true -> running t = false).

(** Court [c] is at rest: stopped, not paused, nothing left. *)
Definition at_rest (c : nat) (s : State) : Prop :=
  running (timer_of s c) = false /\ paused (timer_of s c) = false /\
  remainingTime (timer_of s c) = 0.

Fixpoint count_ops (p : Op -> bool) (ops : list Op) : nat :=
  match ops with
  | [] => 0%nat
  | op :: ops => ((if p op then 1 else 0) + count_ops p ops)%nat
  end.

(** ** Status report *)

(** One element of the JSON array of [handleStatus]. *)
Record CourtStatus := {
  cs_id : nat;
  cs_remaining : Z;
  cs_isRunning : bool;
  cs_isPaused : bool;
  cs_playerName : string;
  cs_sessionCount : Z;
  cs_totalPlayTime : Z
}.

Definition court_status (i : nat) (t : Timer) : CourtStatus :=
  {| cs_id := i; cs_remaining := remainingTime t;
     cs_isRunning := running t && negb (paused t);
     cs_isPaused := paused t; cs_playerName := playerName t;
     cs_sessionCount := sessionCount t;
     cs_totalPlayTime := totalPlayTime t |}.

(** [handleStatus]: the status code and the document that is serialised. *)
Definition handleStatus (s : State) : Z * list CourtStatus :=
  (200, map (fun i => court_status i (timer_of s i)) courts).

(** ** More sample runs *)

Definition settings_args (c v w : Z) (lp : bool) : SettingsArgs :=
  {| se_courtId := c; se_volume := v; se_warningTime := w;
     se_loopAlarm := lp |}.

(** Court 0 set to loop its alarm, started for one minute; the first timer
    pass raises its warning alarm, which loops. *)
Definition looping_alarm : State :=
  run sd_full
    [OSettings (Parsed (settings_args 0 70 5 true));
     OStart 0 (start_court 0 1); OTimers 10] boot.

(** ** Uploading clips *)

(** The Arduino [String] methods the upload handler uses, on Rocq strings:
    [toLowerCase] (C [tolower] on every byte), [replace(find, "")] (one
    pass from the left that drops each occurrence it meets and resumes
    after it), [endsWith], [startsWith], [indexOf] (-1 when absent) and
    [charAt] (the NUL character outside the string; its index argument is
    an [unsigned int]). *)
Definition is_upper (c : Ascii.ascii) : bool :=
  (65 <=? Ascii.nat_of_ascii c)%nat && (Ascii.nat_of_ascii c <=? 90)%nat.

Definition tolower (c : Ascii.ascii) : Ascii.ascii :=
  if is_upper c then Ascii.ascii_of_nat (Ascii.nat_of_ascii c + 32) else c.

Fixpoint toLowerCase (s : string) : string :=
  match s with
  | EmptyString => EmptyString
  | String c rest => String (tolower c) (toLowerCase rest)
  end.

(** [skip] is the number of characters of a dropped occurrence that are
    still to be passed over. *)
Fixpoint remove_from (find : string) (skip : nat) (s : string) : string :=
  match s with
  | EmptyString => EmptyString
  | String c rest =>
    match skip with
    | S k => remove_from find k rest
    | O =>
      if String.prefix find s
      then remove_from find (String.length find - 1) rest
      else String c (remove_from find 0 rest)
    end
  end.

Definition remove_all (find s : string) : string :=
  match find with
  | EmptyString => s
  | _ => remove_from find 0 s
  end.

Definition endsWith (s suffix : string) : bool :=
  if (String.length s <? String.length suffix)%nat then false
  else
    String.eqb
      (String.substring (String.length s - String.length suffix)
         (String.length suffix) s)
      suffix.

Definition startsWith (s pre : string) : bool := String.prefix pre s.

Definition indexOf (s sub : string) : Z :=
  match String.index 0 sub s with
  | Some n => Z.of_nat n
  | None => -1
  end.

Definition charAt (s : string) (loc : Z) : Ascii.ascii :=
  let loc := wrap32 loc in
  if Z.of_nat (String.length s) <=? loc then Ascii.zero
  else
    match String.get (Z.to_nat loc) s with
    | Some c => c
    | None => Ascii.zero
    end.

Definition backslash : Ascii.ascii := Ascii.ascii_of_nat 92.

(** The two patterns [isValidFilename] removes: dot dot slash and
    dot dot backslash. *)
Definition dotdotslash : string := "../".
Definition dotdotbackslash : string :=
  (".." ++ String backslash EmptyString)%string.

Definition isValidFilename (filename : string) : bool :=
  let filename := remove_all dotdotslash filename in
  let filename := remove_all dotdotbackslash filename in
  let filename := toLowerCase filename in
  if negb (endsWith filename ".wav") then false
  else if String.eqb filename "alarm.wav" || String.eqb filename "warning.wav"
  then true
  else if startsWith filename "alarm" || startsWith filename "warning" then
    let lastChar := charAt filename (indexOf filename ".wav" - 1) in
    (49 <=? Ascii.nat_of_ascii lastChar)%nat
    && (Ascii.nat_of_ascii lastChar <=? 52)%nat
  else false.

Inductive UploadStatus :=
| UPLOAD_FILE_START
| UPLOAD_FILE_WRITE
| UPLOAD_FILE_END
| UPLOAD_FILE_ABORTED.

(** The fields of [HTTPUpload] the handler reads. *)
Record HTTPUpload := {
  up_status : UploadStatus;
  up_filename : string;
  up_currentSize : Z;       (* size_t *)
  up_totalSize : Z          (* size_t *)
}.

(** The globals of the upload handler; an open [File] is represented by
    the backend and the path it was opened on. *)
Record Upload := {
  uploadFile : option (Backend * string);
  uploadStartTime : Z;
  uploadedBytes : Z         (* size_t *)
}.

(** What the file systems answer to the handler: whether [/audio] exists,
    whether [mkdir] and the open for writing succeed, and the size of a
    file that exists and opens for reading. *)
Record FileSystem := {
  fs_dir_exists : Backend -> bool;
  fs_mkdir : Backend -> bool;
  fs_open_write : Backend -> string -> bool;
  fs_size : Backend -> string -> option Z
}.

(** What the handler does to the outside, in order. *)
Inductive UploadEvent :=
| UpMkdir (b : Backend)
| UpOpen (b : Backend) (path : string)
| UpWrite (b : Backend) (path : string) (n : Z)
| UpClose
| UpSend (code : Z).

Definition MAX_UPLOAD_SIZE : Z := 10 * 1024 * 1024.

(** The path [handleUpload] opens for an upload named [filename]. *)
Definition upload_path (filename : string) : string :=
  ("/audio/" ++ toLowerCase filename)%string.

(** One storage branch of the start of an upload: make [/audio] if it is
    missing, then open the file for writing. *)
Definition upload_open (fs : FileSystem) (b : Backend) (filepath : string)
    (u : Upload) : Upload * list UploadEvent :=
  if negb (fs_dir_exists fs b) && negb (fs_mkdir fs b) then (u, [UpMkdir b])
  else
    ({| uploadFile :=
          if fs_open_write fs b filepath then Some (b, filepath) else None;
        uploadStartTime := uploadStartTime u;
        uploadedBytes := uploadedBytes u |},
     (if fs_dir_exists fs b then [] else [UpMkdir b])
       ++ [UpOpen b filepath]).

Definition handleUpload (fs : FileSystem) (s : State) (now : Z)
    (up : HTTPUpload) (u : Upload) : Upload * list UploadEvent :=
  match up_status up with
  | UPLOAD_FILE_START =>
    let filename := toLowerCase (up_filename up) in
    if negb (isValidFilename filename) then
      ({| uploadFile := None; uploadStartTime := uploadStartTime u;
          uploadedBytes := uploadedBytes u |}, [])
    else
      let u := {| uploadFile := uploadFile u; uploadStartTime := now;
                  uploadedBytes := 0 |} in
      let filepath := ("/audio/" ++ filename)%string in
      if useSDCard (config s) && sdCardAvailable s then
        upload_open fs SDcard filepath u
      else if littleFSAvailable s then upload_open fs LittleFS filepath u
      else (u, [])
  | UPLOAD_FILE_WRITE =>
    match uploadFile u with
    | Some (b, p) =>
      let total := wrap32 (uploadedBytes u + up_currentSize up) in
      if MAX_UPLOAD_SIZE <? total then
        ({| uploadFile := None; uploadStartTime := uploadStartTime u;
            uploadedBytes := total |}, [UpClose; UpSend 413])
      else
        ({| uploadFile := uploadFile u; uploadStartTime := uploadStartTime u;
            uploadedBytes := total |}, [UpWrite b p (up_currentSize up)])
    | None => (u, [])
    end
  | UPLOAD_FILE_END =>
    let u' := {| uploadFile := None; uploadStartTime := uploadStartTime u;
                 uploadedBytes := 0 |} in
    match uploadFile u with
    | Some _ =>
      let filepath := toLowerCase ("/audio/" ++ up_filename up) in
      let verified :=
        if useSDCard (config s) && sdCardAvailable s then
          match fs_size fs SDcard filepath with
          | Some n => n =? up_totalSize up
          | None => false
          end
        else if littleFSAvailable s then
          match fs_size fs LittleFS filepath with
          | Some n => n =? up_totalSize up
          | None => false
          end
        else false in
      (u', [UpClose; UpSend (if verified then 200 else 500)])
    | None => (u', [UpSend 500])
    end
  | UPLOAD_FILE_ABORTED =>
    ({| uploadFile := None; uploadStartTime := uploadStartTime u;
        uploadedBytes := 0 |},
     (match uploadFile u with Some _ => [UpClose] | None => [] end)
       ++ [UpSend 500])
  end.

(** The calls of the handler for one request, in order; the events of all
    of them. *)
Fixpoint upload_run (fs : FileSystem) (s : State)
    (calls : list (Z * HTTPUpload)) (u : Upload) : Upload * list UploadEvent :=
  match calls with
  | [] => (u, [])
  | (now, up) :: calls =>
    let '(u1, ev1) := handleUpload fs s now up u in
    let '(u2, ev2) := upload_run fs s calls u1 in
    (u2, ev1 ++ ev2)
  end.

(** Bytes handed to [uploadFile.write]. *)
Fixpoint bytes_written (ev : list UploadEvent) : Z :=
  match ev with
  | [] => 0
  | UpWrite _ _ n :: ev => n + bytes_written ev
  | _ :: ev => bytes_written ev
  end.

Definition upload_call (st : UploadStatus) (name : string) (cur tot : Z)
    : HTTPUpload :=
  {| up_status := st; up_filename := name; up_currentSize := cur;
     up_totalSize := tot |}.

Definition no_upload : Upload :=
  {| uploadFile := None; uploadStartTime := 0; uploadedBytes := 0 |}.

(** A file system on which everything succeeds. *)
Definition fs_fine : FileSystem :=
  {| fs_dir_exists := fun _ => true; fs_mkdir := fun _ => true;
     fs_open_write := fun _ _ => true; fs_size := fun _ _ => Some 2048 |}.

Definition list_sum_Z (l : list Z) : Z := fold_right Z.add 0 l.

(** ** Preferences *)

(** The [preferences] namespace: typed values under string keys.  A write
    is taken to succeed. *)
Inductive PrefValue :=
| PInt (z : Z)
| PBool (b : bool).

Definition Prefs := string -> option PrefValue.

Definition getInt (P : Prefs) (key : string) (d : Z) : Z :=
  match P key with
  | Some (PInt z) => z
  | _ => d
  end.

Definition getBool (P : Prefs) (key : string) (d : bool) : bool :=
  match P key with
  | Some (PBool b) => b
  | _ => d
  end.

Definition put (key : string) (v : PrefValue) (P : Prefs) : Prefs :=
  fun k => if String.eqb k key then Some v else P k.

Definition putInt (key : string) (z : Z) : Prefs -> Prefs := put key (PInt z).
Definition putBool (key : string) (b : bool) : Prefs -> Prefs :=
  put key (PBool b).

(** [prefix + String(i)] for a court index [i], one decimal digit. *)
Definition court_key (pre : string) (i : nat) : string :=
  (pre ++ String (Ascii.ascii_of_nat (48 + i)) EmptyString)%string.

Definition loadConfiguration (P : Prefs) : Config :=
  {| globalVolume := getInt P "globalVol" 70;
     alarmDuration := getInt P "alarmDur" 12;
     warningDuration := getInt P "warnDur" 8;
     useSDCard := getBool P "useSD" true |}.

(** What the loop of [setup()] reads for court [i]. *)
Definition loadCourtSettings (P : Prefs) (i : nat) : CourtSettings :=
  {| volume := getInt P (court_key "vol" i) 70;
     warningTime := getInt P (court_key "warn" i) 5;
     loopAlarm := getBool P (court_key "loop" i) false |}.

(** [setup()] on the stored preferences [P]. *)
Definition power_on (sd lfs : bool) (P : Prefs) : State :=
  setup sd lfs (loadConfiguration P) (loadCourtSettings P).

(** The writes of the handlers to [preferences]; [s] is the state in which
    the handler is called. *)
Definition handleSettings_store (b : Body SettingsArgs) (s : State)
    (P : Prefs) : Prefs :=
  match b with
  | Parsed a =>
    if invalidCourt (se_courtId a) then P
    else
      let i := Z.to_nat (se_courtId a) in
      let s' := snd (handleSettings b s) in
      putBool (court_key "loop" i) (loopAlarm (settings_of s' i))
        (putInt (court_key "warn" i) (warningTime (settings_of s' i))
           (putInt (court_key "vol" i) (volume (settings_of s' i)) P))
  | _ => P
  end.

Definition handleSetDuration_store (b : Body (option Z * option Z))
    (s : State) (P : Prefs) : Prefs :=
  match b with
  | Parsed (oa, ow) =>
    let alarmDur := default (alarmDuration (config s)) oa in
    let warnDur := default (warningDuration (config s)) ow in
    if (alarmDur <? 1) || (60 <? alarmDur) then P
    else if (warnDur <? 1) || (30 <? warnDur) then P
    else putInt "warnDur" warnDur (putInt "alarmDur" alarmDur P)
  | _ => P
  end.

Definition handleGlobalVolume_store (b : Body Z) (s : State) (P : Prefs)
    : Prefs :=
  match b with
  | Parsed _ =>
    putInt "globalVol" (globalVolume (config (snd (handleGlobalVolume b s)))) P
  | _ => P
  end.

Definition handleSerialCommand_store (c : SerialCommand) (P : Prefs) : Prefs :=
  match c with
  | CmdAlarm dur =>
    if (1 <=? dur) && (dur <=? 60) then putInt "alarmDur" dur P else P
  | CmdWarning dur =>
    if (1 <=? dur) && (dur <=? 30) then putInt "warnDur" dur P else P
  | CmdOther => P
  end.

Definition exec_store (op : Op) (s : State) (P : Prefs) : Prefs :=
  match op with
  | OSettings b => handleSettings_store b s P
  | OSetDuration b => handleSetDuration_store b s P
  | OGlobalVolume b => handleGlobalVolume_store b s P
  | OSerial c => handleSerialCommand_store c P
  | _ => P
  end.

(** A run together with what it leaves in [preferences]. *)
Fixpoint run_store (env : Storage) (ops : list Op) (s : State) (P : Prefs)
    : State * Prefs :=
  match ops with
  | [] => (s, P)
  | op :: ops => run_store env ops (exec env op s) (exec_store op s P)
  end.

Definition empty_prefs : Prefs := fun _ => None.

(** The settings in memory are the stored ones. *)
Definition synced (s : State) (P : Prefs) : Prop :=
  config s = loadConfiguration P /\
  courtSettings s = map (loadCourtSettings P) courts.

(** Start-up with the SD card failing to mount. *)
Definition boot_no_sd : State := setup false true default_config default_prefs.

(** The clips on the SD card and on LittleFS. *)
Definition clips_everywhere : Storage :=
  {| sd_exists := fun _ => true; lfs_exists := fun _ => true;
     wav_begin := fun _ _ => true |}.

(** * Proofs *)

(** ** Machine arithmetic *)

Lemma wrap32_range z : 0 <= wrap32 z < 2 ^ 32.
Proof. unfold wrap32. apply Z.mod_pos_bound. lia. Qed.

Lemma wrap32_small z : 0 <= z < 2 ^ 32 -> wrap32 z = z.
Proof. intros H. unfold wrap32. apply Z.mod_small. exact H. Qed.

Lemma to_int_small z : - 2 ^ 31 <= z < 2 ^ 31 -> to_int z = z.
Proof. intros H. unfold to_int. rewrite Z.mod_small; lia. Qed.

(** The quotient of an [unsigned long] by 1000 fits a [long]: the
    clamp of [updateTimers] never sees a negative value. *)
Lemma remaining_at_unfold now t :
  remaining_at now t = wrap32 (duration t - elapsed_at now t) / 1000.
Proof.
  unfold remaining_at.
  pose proof (wrap32_range (duration t - elapsed_at now t)) as Hr.
  assert (Hq : 0 <= wrap32 (duration t - elapsed_at now t) / 1000 < 2 ^ 31).
  { split.
    - apply Z.div_pos; lia.
    - apply Z.div_lt_upper_bound; lia. }
  rewrite to_int_small by lia.
  destruct (Z.ltb_spec (wrap32 (duration t - elapsed_at now t) / 1000) 0); lia.
Qed.

Lemma remaining_at_nonneg now t : 0 <= remaining_at now t.
Proof.
  rewrite remaining_at_unfold. apply Z.div_pos; [apply wrap32_range | lia].
Qed.

(** ** Records and arrays *)

Lemma set_audio_same s : set_audio s (audio s) = s.
Proof. destruct s; reflexivity. Qed.

Lemma set_timers_same s : set_timers s (timers s) = s.
Proof. destruct s; reflexivity. Qed.

Lemma alter_fixed {A} (f : A -> A) (l : list A) i :
  (forall x, l !! i = Some x -> f x = x) -> alter f i l = l.
Proof.
  revert i. induction l as [|a l IH]; intros [|i] H; simpl; try reflexivity.
  - f_equal. apply H. reflexivity.
  - f_equal. apply IH. intros x Hx. apply H. exact Hx.
Qed.

Lemma default_alter_field {A B} (g : A -> B) (f : A -> A) (d : A)
    (l : list A) i j :
  (forall x, g (f x) = g x) ->
  g (default d (alter f i l !! j)) = g (default d (l !! j)).
Proof.
  intros Hg. rewrite list_lookup_alter. case_decide; subst; [|reflexivity].
  destruct (l !! j); simpl; [apply Hg | reflexivity].
Qed.

(** ** What each operation leaves alone *)

Section Frames.
Variable env : Storage.

Lemma playAudio_ready i w s :
  audioSystemReady s = true ->
  playAudio env i w s = set_audio s (channel_after env s i w).
Proof.
  intros Hr. unfold playAudio, channel_after, clip_for, backend_of.
  rewrite Hr. simpl. unfold tryBackends, openClip, opens. simpl.
  destruct (useSDCard (config s) && sdCardAvailable s); simpl.
  - destruct (sd_exists env (audioFile i w)); simpl;
      [destruct (wav_begin env SDcard (audioFile i w)); simpl; [reflexivity|]|];
      (destruct (sd_exists env (defaultAudioFile w)); simpl;
        [destruct (wav_begin env SDcard (defaultAudioFile w))|]; reflexivity).
  - destruct (littleFSAvailable s); simpl; [|reflexivity].
    destruct (lfs_exists env (audioFile i w)); simpl;
      [destruct (wav_begin env LittleFS (audioFile i w)); simpl;
         [reflexivity|]|];
      (destruct (lfs_exists env (defaultAudioFile w)); simpl;
        [destruct (wav_begin env LittleFS (defaultAudioFile w))|];
        reflexivity).
Qed.

Lemma playAudio_not_ready i w s :
  audioSystemReady s = false -> playAudio env i w s = s.
Proof. intros Hr. unfold playAudio. rewrite Hr. reflexivity. Qed.

(** [playAudio] writes the audio globals and nothing else. *)
Lemma playAudio_frame i w s :
  playAudio env i w s = set_audio s (audio (playAudio env i w s)).
Proof.
  destruct (audioSystemReady s) eqn:Hr.
  - rewrite playAudio_ready by assumption. reflexivity.
  - rewrite playAudio_not_ready by assumption. symmetry. apply set_audio_same.
Qed.

Lemma playAudio_timers i w s : timers (playAudio env i w s) = timers s.
Proof. rewrite playAudio_frame. reflexivity. Qed.
Lemma playAudio_courtSettings i w s :
  courtSettings (playAudio env i w s) = courtSettings s.
Proof. rewrite playAudio_frame. reflexivity. Qed.
Lemma playAudio_config i w s : config (playAudio env i w s) = config s.
Proof. rewrite playAudio_frame. reflexivity. Qed.
Lemma playAudio_alarmStates i w s :
  alarmStates (playAudio env i w s) = alarmStates s.
Proof. rewrite playAudio_frame. reflexivity. Qed.
Lemma playAudio_leds i w s : leds (playAudio env i w s) = leds s.
Proof. rewrite playAudio_frame. reflexivity. Qed.
Lemma playAudio_serial i w s : serial (playAudio env i w s) = serial s.
Proof. rewrite playAudio_frame. reflexivity. Qed.
Lemma playAudio_audioSystemReady i w s :
  audioSystemReady (playAudio env i w s) = audioSystemReady s.
Proof. rewrite playAudio_frame. reflexivity. Qed.
Lemma playAudio_sdCardAvailable i w s :
  sdCardAvailable (playAudio env i w s) = sdCardAvailable s.
Proof. rewrite playAudio_frame. reflexivity. Qed.
Lemma playAudio_littleFSAvailable i w s :
  littleFSAvailable (playAudio env i w s) = littleFSAvailable s.
Proof. rewrite playAudio_frame. reflexivity. Qed.

End Frames.

Create Rewrite HintDb frame.

#[local] Hint Rewrite playAudio_timers playAudio_courtSettings playAudio_config
  playAudio_alarmStates playAudio_leds playAudio_serial
  playAudio_audioSystemReady playAudio_sdCardAvailable
  playAudio_littleFSAvailable : frame.

Section TriggerFrames.
Variable env : Storage.

Lemma triggerAlarm_timers now i d w s :
  timers (triggerAlarm env now i d w s) = timers s.
Proof.
  unfold triggerAlarm, activateLED. autorewrite with frame.
  destruct (i <? 4)%nat; reflexivity.
Qed.

Lemma triggerAlarm_courtSettings now i d w s :
  courtSettings (triggerAlarm env now i d w s) = courtSettings s.
Proof.
  unfold triggerAlarm, activateLED. autorewrite with frame.
  destruct (i <? 4)%nat; reflexivity.
Qed.

Lemma triggerAlarm_config now i d w s :
  config (triggerAlarm env now i d w s) = config s.
Proof.
  unfold triggerAlarm, activateLED. autorewrite with frame.
  destruct (i <? 4)%nat; reflexivity.
Qed.

Lemma triggerAlarm_serial now i d w s :
  serial (triggerAlarm env now i d w s) = serial s.
Proof.
  unfold triggerAlarm, activateLED. autorewrite with frame.
  destruct (i <? 4)%nat; reflexivity.
Qed.

Lemma triggerAlarm_audioSystemReady now i d w s :
  audioSystemReady (triggerAlarm env now i d w s) = audioSystemReady s.
Proof.
  unfold triggerAlarm, activateLED. autorewrite with frame.
  destruct (i <? 4)%nat; reflexivity.
Qed.

Lemma triggerAlarm_sdCardAvailable now i d w s :
  sdCardAvailable (triggerAlarm env now i d w s) = sdCardAvailable s.
Proof.
  unfold triggerAlarm, activateLED. autorewrite with frame.
  destruct (i <? 4)%nat; reflexivity.
Qed.

Lemma triggerAlarm_littleFSAvailable now i d w s :
  littleFSAvailable (triggerAlarm env now i d w s) = littleFSAvailable s.
Proof.
  unfold triggerAlarm, activateLED. autorewrite with frame.
  destruct (i <? 4)%nat; reflexivity.
Qed.

Lemma triggerAlarm_alarmStates now i d w s :
  alarmStates (triggerAlarm env now i d w s) =
  <[i := {| active := true; a_startTime := now;
            a_duration := to_int (wrap32 (d * 1000)); isWarning := w;
            fieldIndex := i;
            looping := loopAlarm (settings_of s i) |}]> (alarmStates s).
Proof.
  unfold triggerAlarm, activateLED, settings_of. autorewrite with frame.
  destruct (i <? 4)%nat; simpl; destruct (courtSettings s !! i); reflexivity.
Qed.

Lemma triggerAlarm_leds now i d w s :
  (i < 4)%nat ->
  leds (triggerAlarm env now i d w s) = <[i := true]> (leds s).
Proof.
  intros Hi. unfold triggerAlarm, activateLED. autorewrite with frame.
  apply Nat.ltb_lt in Hi. rewrite Hi. reflexivity.
Qed.

Lemma triggerAlarm_leds_length now i d w s :
  length (leds (triggerAlarm env now i d w s)) = length (leds s).
Proof.
  unfold triggerAlarm, activateLED. autorewrite with frame.
  destruct (i <? 4)%nat; simpl; [apply length_insert | reflexivity].
Qed.

Lemma triggerAlarm_leds_other now i j d w s :
  i <> j -> leds (triggerAlarm env now i d w s) !! j = leds s !! j.
Proof.
  intros Hij. unfold triggerAlarm, activateLED. autorewrite with frame.
  destruct (i <? 4)%nat; simpl; [|reflexivity].
  apply list_lookup_insert_ne. exact Hij.
Qed.

(** The channel after a trigger is the one [playAudio] leaves. *)
Lemma triggerAlarm_audio now i d w s :
  audioSystemReady s = true ->
  audio (triggerAlarm env now i d w s) = channel_after env s i w.
Proof.
  intros Hr. unfold triggerAlarm.
  rewrite playAudio_ready.
  - unfold channel_after, clip_for, backend_of, activateLED.
    destruct (i <? 4)%nat; reflexivity.
  - unfold activateLED. destruct (i <? 4)%nat; exact Hr.
Qed.

End TriggerFrames.

#[local] Hint Rewrite triggerAlarm_timers triggerAlarm_courtSettings
  triggerAlarm_config triggerAlarm_serial triggerAlarm_audioSystemReady
  triggerAlarm_sdCardAvailable triggerAlarm_littleFSAvailable
  triggerAlarm_alarmStates : frame.

(** ** The timer pass, court by court *)

Section TimerPass.
Variable env : Storage.

Ltac open_updateTimer s i :=
  unfold updateTimer;
  destruct (timers s !! i) as [t|] eqn:Ht;
  [ destruct (courtSettings s !! i) as [cs|] eqn:Hcs;
    [ destruct (negb (running t) || paused t) eqn:Hskip;
      [ | destruct (warning_due _ t cs) eqn:Hw;
          destruct (timeup_due _ t) eqn:He;
          cbn zeta; simpl; repeat (progress (autorewrite with frame; simpl)) ]
    | ]
  | ];
  try reflexivity.

Lemma updateTimer_courtSettings now i s :
  courtSettings (updateTimer env now i s) = courtSettings s.
Proof. open_updateTimer s i; reflexivity. Qed.

Lemma updateTimer_config now i s :
  config (updateTimer env now i s) = config s.
Proof. open_updateTimer s i; reflexivity. Qed.

Lemma updateTimer_audioSystemReady now i s :
  audioSystemReady (updateTimer env now i s) = audioSystemReady s.
Proof. open_updateTimer s i; reflexivity. Qed.

Lemma updateTimer_sdCardAvailable now i s :
  sdCardAvailable (updateTimer env now i s) = sdCardAvailable s.
Proof. open_updateTimer s i; reflexivity. Qed.

Lemma updateTimer_littleFSAvailable now i s :
  littleFSAvailable (updateTimer env now i s) = littleFSAvailable s.
Proof. open_updateTimer s i; reflexivity. Qed.

Lemma updateTimer_timers_other now i j s :
  i <> j -> timers (updateTimer env now i s) !! j = timers s !! j.
Proof.
  intros Hij. open_updateTimer s i;
    rewrite ?list_lookup_alter_ne by exact Hij; reflexivity.
Qed.

Lemma updateTimer_alarmStates_other now i j s :
  i <> j -> alarmStates (updateTimer env now i s) !! j = alarmStates s !! j.
Proof.
  intros Hij. open_updateTimer s i;
    rewrite ?list_lookup_insert_ne by exact Hij; reflexivity.
Qed.

Lemma updateTimer_leds_other now i j s :
  i <> j -> leds (updateTimer env now i s) !! j = leds s !! j.
Proof.
  intros Hij. open_updateTimer s i;
    rewrite ?triggerAlarm_leds_other by exact Hij; simpl;
    rewrite ?triggerAlarm_leds_other by exact Hij; reflexivity.
Qed.

Lemma updateTimer_lengths now i s :
  length (timers (updateTimer env now i s)) = length (timers s) /\
  length (alarmStates (updateTimer env now i s)) = length (alarmStates s) /\
  length (leds (updateTimer env now i s)) = length (leds s).
Proof.
  open_updateTimer s i;
    rewrite ?triggerAlarm_leds_length; simpl;
    rewrite ?triggerAlarm_leds_length; simpl;
    rewrite ?length_insert, ?length_alter; auto.
Qed.

(** A timer that is stopped or paused is skipped. *)
Lemma updateTimer_skip now i s :
  running (timer_of s i) = false \/ paused (timer_of s i) = true ->
  updateTimer env now i s = s.
Proof.
  unfold timer_of, updateTimer. intros H.
  destruct (timers s !! i) as [t|]; [|reflexivity].
  destruct (courtSettings s !! i); [|reflexivity]. simpl in H.
  destruct H as [H|H]; rewrite H; simpl; try reflexivity.
  rewrite orb_true_r. reflexivity.
Qed.

(** The two events of one court exclude each other on a pass. *)
Lemma warning_timeup_exclusive now t cs :
  warning_due now t cs = true -> timeup_due now t = false.
Proof.
  unfold warning_due, timeup_due. intros H.
  apply andb_true_iff in H as [_ H]. apply Z.ltb_lt in H.
  apply andb_false_iff. right. apply Z.leb_gt. exact H.
Qed.

End TimerPass.

(** ** The alarm pass, court by court *)

Section AlarmPass.
Variable env : Storage.

Ltac open_updateAlarm s i :=
  unfold updateAlarm;
  destruct (alarmStates s !! i) as [a|] eqn:Ha;
  [ destruct (courtSettings s !! i) as [cs|] eqn:Hcs;
    [ destruct (negb (active a)) eqn:Hact;
      [ | destruct (wrap32 (a_duration a) <=? wrap32 (_ - a_startTime a))
            eqn:Hel;
          [ destruct (looping a && loopAlarm cs) eqn:Hloop;
            cbn zeta; unfold stopAudio, deactivateLED; simpl;
            repeat (progress (autorewrite with frame; simpl)) | ] ]
    | ]
  | ];
  try reflexivity.

Lemma updateAlarm_timers now i s :
  timers (updateAlarm env now i s) = timers s.
Proof. open_updateAlarm s i. destruct (i <? 4)%nat; reflexivity. Qed.

Lemma updateAlarm_courtSettings now i s :
  courtSettings (updateAlarm env now i s) = courtSettings s.
Proof. open_updateAlarm s i. destruct (i <? 4)%nat; reflexivity. Qed.

Lemma updateAlarm_config now i s :
  config (updateAlarm env now i s) = config s.
Proof. open_updateAlarm s i. destruct (i <? 4)%nat; reflexivity. Qed.

Lemma updateAlarm_audioSystemReady now i s :
  audioSystemReady (updateAlarm env now i s) = audioSystemReady s.
Proof. open_updateAlarm s i. destruct (i <? 4)%nat; reflexivity. Qed.

Lemma updateAlarm_sdCardAvailable now i s :
  sdCardAvailable (updateAlarm env now i s) = sdCardAvailable s.
Proof. open_updateAlarm s i. destruct (i <? 4)%nat; reflexivity. Qed.

Lemma updateAlarm_littleFSAvailable now i s :
  littleFSAvailable (updateAlarm env now i s) = littleFSAvailable s.
Proof. open_updateAlarm s i. destruct (i <? 4)%nat; reflexivity. Qed.

Lemma updateAlarm_alarmStates_other now i j s :
  i <> j -> alarmStates (updateAlarm env now i s) !! j = alarmStates s !! j.
Proof.
  intros Hij. open_updateAlarm s i.
  - apply list_lookup_alter_ne. exact Hij.
  - destruct (i <? 4)%nat; simpl; apply list_lookup_alter_ne; exact Hij.
Qed.

Lemma updateAlarm_leds_other now i j s :
  i <> j -> leds (updateAlarm env now i s) !! j = leds s !! j.
Proof.
  intros Hij. open_updateAlarm s i.
  destruct (i <? 4)%nat; simpl; [|reflexivity].
  apply list_lookup_insert_ne. exact Hij.
Qed.

Lemma updateAlarm_lengths now i s :
  length (alarmStates (updateAlarm env now i s)) = length (alarmStates s) /\
  length (leds (updateAlarm env now i s)) = length (leds s).
Proof.
  open_updateAlarm s i; auto.
  - rewrite length_alter. auto.
  - destruct (i <? 4)%nat; simpl; rewrite ?length_insert, ?length_alter; auto.
Qed.

(** The lines of the alarm pass are loop lines. *)
Lemma updateAlarm_serial now i s :
  serial (updateAlarm env now i s) = serial s \/
  serial (updateAlarm env now i s) = SerLoop i :: serial s.
Proof.
  open_updateAlarm s i; auto.
  destruct (i <? 4)%nat; auto.
Qed.

(** An inactive slot is skipped. *)
Lemma updateAlarm_skip now i s :
  active (alarm_of s i) = false -> updateAlarm env now i s = s.
Proof.
  unfold alarm_of, updateAlarm. intros H.
  destruct (alarmStates s !! i) as [a|]; [|reflexivity].
  destruct (courtSettings s !! i); [|reflexivity].
  simpl in H. rewrite H. reflexivity.
Qed.

(** The [else] branch of the pass: the window of an active slot that does
    not loop has elapsed. *)
Lemma updateAlarm_expire now i s a cs :
  alarmStates s !! i = Some a -> courtSettings s !! i = Some cs ->
  active a = true -> looping a && loopAlarm cs = false ->
  wrap32 (a_duration a) <= wrap32 (now - a_startTime a) ->
  updateAlarm env now i s =
  stopAudio (deactivateLED i
    (set_alarmStates s (alter alarm_deactivate i (alarmStates s)))).
Proof.
  intros Ha Hcs Hact Hloop Hel. unfold updateAlarm.
  rewrite Ha, Hcs, Hact, Hloop. simpl.
  apply Z.leb_le in Hel. rewrite Hel. reflexivity.
Qed.

End AlarmPass.

(** ** Invariants of the reachable states *)

Section Invariants.
Variable env : Storage.

Lemma pass_preserves (P : State -> Prop) (f : nat -> State -> State)
    (l : list nat) (s : State) :
  (forall i s, P s -> P (f i s)) -> P s ->
  P (fold_left (fun s i => f i s) l s).
Proof.
  intros Hf. revert s. induction l as [|i l IH]; intros s Hs; simpl.
  - exact Hs.
  - apply IH. apply Hf. exact Hs.
Qed.

Lemma wf_updateTimer now i s : wf s -> wf (updateTimer env now i s).
Proof.
  unfold wf. intros (Ht & Hc & Ha & Hl).
  destruct (updateTimer_lengths env now i s) as (E1 & E2 & E3).
  rewrite E1, E2, E3, updateTimer_courtSettings. auto.
Qed.

Lemma wf_updateAlarm now i s : wf s -> wf (updateAlarm env now i s).
Proof.
  unfold wf. intros (Ht & Hc & Ha & Hl).
  destruct (updateAlarm_lengths env now i s) as (E1 & E2).
  rewrite E1, E2, updateAlarm_courtSettings, updateAlarm_timers. auto.
Qed.

Lemma wf_setup sd lfs cfg prefs : wf (setup sd lfs cfg prefs).
Proof. unfold wf. simpl. auto. Qed.

Lemma wf_exec op s : wf s -> wf (exec env op s).
Proof.
  intros Hs. destruct op as [now b|now b|b|b|b|b|c|now|now|r l]; simpl.
  - destruct b as [| |a]; simpl; auto.
    destruct (invalidCourt (st_courtId a)); simpl; auto.
    destruct Hs as (Ht & Hc & Ha & Hl). unfold wf; simpl.
    rewrite length_alter. auto.
  - destruct b as [| |a]; simpl; auto.
    destruct (invalidCourt a); simpl; auto.
    destruct Hs as (Ht & Hc & Ha & Hl). unfold wf; simpl.
    rewrite length_alter. auto.
  - destruct b as [| |a]; simpl; auto.
    destruct (invalidCourt a); simpl; auto.
    destruct Hs as (Ht & Hc & Ha & Hl). unfold wf, deactivateLED.
    destruct (Z.to_nat a <? 4)%nat; simpl;
      rewrite ?length_alter, ?length_insert; auto.
  - destruct b as [| |a]; simpl; auto.
    destruct (invalidCourt (se_courtId a)); simpl; auto.
    destruct Hs as (Ht & Hc & Ha & Hl). unfold wf; simpl.
    rewrite length_insert. auto.
  - destruct b as [| |[oa ow]]; simpl; auto.
    destruct (_ || _); simpl; auto. destruct (_ || _); simpl; auto.
  - destruct b as [| |a]; simpl; auto.
  - destruct c as [d|d|]; simpl; auto; destruct (_ && _); auto.
  - unfold updateTimers. apply pass_preserves; [|exact Hs].
    intros; apply wf_updateTimer; auto.
  - unfold updateAlarms. apply pass_preserves; [|exact Hs].
    intros; apply wf_updateAlarm; auto.
  - unfold updateAudioPlayback.
    destruct (_ && _); auto. destruct r; [destruct l|]; simpl; auto.
Qed.

Lemma wf_run ops s : wf s -> wf (run env ops s).
Proof.
  unfold run. revert s. induction ops as [|op ops IH]; intros s Hs; simpl.
  - exact Hs.
  - apply IH. apply wf_exec. exact Hs.
Qed.

(** [audioSystemReady] is set by [setup()] and never written again. *)
Lemma ready_exec op s :
  audioSystemReady (exec env op s) = audioSystemReady s.
Proof.
  destruct op as [now b|now b|b|b|b|b|c|now|now|r l]; simpl.
  - destruct b as [| |a]; simpl; auto.
    destruct (invalidCourt (st_courtId a)); reflexivity.
  - destruct b as [| |a]; simpl; auto.
    destruct (invalidCourt a); reflexivity.
  - destruct b as [| |a]; simpl; auto.
    destruct (invalidCourt a); simpl; auto.
    unfold deactivateLED. destruct (Z.to_nat a <? 4)%nat; reflexivity.
  - destruct b as [| |a]; simpl; auto.
    destruct (invalidCourt (se_courtId a)); reflexivity.
  - destruct b as [| |[oa ow]]; simpl; auto.
    destruct (_ || _); simpl; auto. destruct (_ || _); reflexivity.
  - destruct b as [| |a]; reflexivity.
  - destruct c as [d|d|]; simpl; auto; destruct (_ && _); reflexivity.
  - unfold updateTimers.
    apply (pass_preserves
             (fun s' => audioSystemReady s' = audioSystemReady s));
      [|reflexivity].
    intros i s' H. rewrite updateTimer_audioSystemReady. exact H.
  - unfold updateAlarms.
    apply (pass_preserves
             (fun s' => audioSystemReady s' = audioSystemReady s));
      [|reflexivity].
    intros i s' H. rewrite updateAlarm_audioSystemReady. exact H.
  - unfold updateAudioPlayback.
    destruct (_ && _); auto. destruct r; [destruct l|]; reflexivity.
Qed.

Lemma reachable_wf s : reachable env s -> wf s.
Proof.
  induction 1 as [sd lfs cfg prefs|s op _ IH].
  - apply wf_setup.
  - apply wf_exec. exact IH.
Qed.

Lemma reachable_ready s : reachable env s -> audioSystemReady s = true.
Proof.
  induction 1 as [sd lfs cfg prefs|s op _ IH].
  - reflexivity.
  - rewrite ready_exec. exact IH.
Qed.

(** *** One playback slot *)

Lemma audio_inv_same s s' :
  audio s' = audio s -> audioSystemReady s' = audioSystemReady s ->
  audio_inv s -> audio_inv s'.
Proof. unfold audio_inv. intros -> ->. auto. Qed.

Lemma audio_inv_idle s : audio s = idle_audio -> audio_inv s.
Proof. unfold audio_inv. intros ->. reflexivity. Qed.

Lemma audio_inv_channel_after s s' i w :
  audioSystemReady s' = true -> audio s' = channel_after env s i w ->
  audio_inv s'.
Proof.
  unfold audio_inv, channel_after. intros Hr ->.
  destruct (clip_for env s i w) as [[[|] p]|]; simpl; auto.
Qed.

Lemma audio_inv_playAudio i w s :
  audio_inv s -> audio_inv (playAudio env i w s).
Proof.
  intros Hs. destruct (audioSystemReady s) eqn:Hr.
  - rewrite playAudio_ready by exact Hr.
    apply (audio_inv_channel_after s _ i w); [exact Hr | reflexivity].
  - rewrite playAudio_not_ready by exact Hr. exact Hs.
Qed.

Lemma audio_inv_triggerAlarm now i d w s :
  audio_inv s -> audio_inv (triggerAlarm env now i d w s).
Proof.
  intros Hs. unfold triggerAlarm. apply audio_inv_playAudio.
  unfold activateLED. destruct (i <? 4)%nat; exact Hs.
Qed.

Lemma audio_inv_updateTimer now i s :
  audio_inv s -> audio_inv (updateTimer env now i s).
Proof.
  intros Hs. unfold updateTimer.
  destruct (timers s !! i) as [t|]; [|exact Hs].
  destruct (courtSettings s !! i) as [cs|]; [|exact Hs].
  destruct (negb (running t) || paused t); [exact Hs|].
  cbn zeta.
  destruct (warning_due now t cs); destruct (timeup_due now t);
    repeat first
      [ apply (audio_inv_same (triggerAlarm env now i _ _ _));
        [reflexivity | reflexivity |]
      | apply audio_inv_triggerAlarm
      | exact Hs ].
Qed.

Lemma audio_inv_updateAlarm now i s :
  audio_inv s -> audio_inv (updateAlarm env now i s).
Proof.
  intros Hs. unfold updateAlarm.
  destruct (alarmStates s !! i) as [a|]; [|exact Hs].
  destruct (courtSettings s !! i) as [cs|]; [|exact Hs].
  destruct (negb (active a)); [exact Hs|]. cbn zeta.
  destruct (_ <=? _); [|exact Hs].
  destruct (looping a && loopAlarm cs).
  - apply (audio_inv_same (playAudio env i (isWarning a)
             (set_alarmStates s
                (alter (alarm_restart now) i (alarmStates s)))));
      [reflexivity | reflexivity |].
    apply audio_inv_playAudio. exact Hs.
  - apply audio_inv_idle. reflexivity.
Qed.

Lemma audio_inv_exec op s : audio_inv s -> audio_inv (exec env op s).
Proof.
  intros Hs. destruct op as [now b|now b|b|b|b|b|c|now|now|r l]; simpl.
  - destruct b as [| |a]; simpl; auto.
    destruct (invalidCourt (st_courtId a)); exact Hs.
  - destruct b as [| |a]; simpl; auto.
    destruct (invalidCourt a); exact Hs.
  - destruct b as [| |a]; simpl; auto.
    destruct (invalidCourt a); simpl; auto.
    apply audio_inv_idle. reflexivity.
  - destruct b as [| |a]; simpl; auto.
    destruct (invalidCourt (se_courtId a)); exact Hs.
  - destruct b as [| |[oa ow]]; simpl; auto.
    destruct (_ || _); simpl; auto. destruct (_ || _); exact Hs.
  - destruct b as [| |a]; exact Hs.
  - destruct c as [d|d|]; simpl; auto; destruct (_ && _); exact Hs.
  - unfold updateTimers. apply pass_preserves; [|exact Hs].
    intros; apply audio_inv_updateTimer; auto.
  - unfold updateAlarms. apply pass_preserves; [|exact Hs].
    intros; apply audio_inv_updateAlarm; auto.
  - unfold updateAudioPlayback.
    destruct (_ && _); auto.
    destruct r; [destruct l|]; simpl; auto; apply audio_inv_idle; reflexivity.
Qed.

Lemma reachable_audio_inv s : reachable env s -> audio_inv s.
Proof.
  induction 1 as [sd lfs cfg prefs|s op _ IH].
  - reflexivity.
  - apply audio_inv_exec. exact IH.
Qed.

End Invariants.

(** ** One-shot latches *)

Section Latches.
Variable env : Storage.

Lemma budget_same c s s' :
  timers s' = timers s -> serial s' = serial s ->
  warning_budget c s' = warning_budget c s /\
  timeup_budget c s' = timeup_budget c s.
Proof.
  unfold warning_budget, timeup_budget, warnings_fired, timeups_fired,
    timer_of.
  intros -> ->. auto.
Qed.

Lemma warning_due_latch now t cs :
  warning_due now t cs = true -> warningTriggered t = false.
Proof.
  unfold warning_due. intros H.
  apply andb_true_iff in H as [H _]. apply andb_true_iff in H as [H _].
  apply negb_true_iff in H. exact H.
Qed.

Lemma timeup_due_latch now t :
  timeup_due now t = true -> alarmTriggered t = false.
Proof.
  unfold timeup_due. intros H.
  apply andb_true_iff in H as [H _]. apply negb_true_iff in H. exact H.
Qed.

(** One court of the timer pass never raises the allowance of any court. *)
Lemma budget_updateTimer now i c s :
  (warning_budget c (updateTimer env now i s) <= warning_budget c s)%nat /\
  (timeup_budget c (updateTimer env now i s) <= timeup_budget c s)%nat.
Proof.
  unfold warning_budget, timeup_budget, warnings_fired, timeups_fired,
    timer_of.
  destruct (decide (i = c)) as [->|Hne].
  - unfold updateTimer.
    destruct (timers s !! c) as [t|] eqn:Ht;
      [|simpl; rewrite ?Ht; simpl; lia].
    destruct (courtSettings s !! c) as [cs|] eqn:Hcs;
      [|simpl; rewrite ?Ht; simpl; lia].
    destruct (negb (running t) || paused t) eqn:Hskip;
      [simpl; rewrite ?Ht; simpl; lia|].
    destruct (warning_due now t cs) eqn:Hw; destruct (timeup_due now t) eqn:He;
      cbn zeta; simpl; repeat (progress (autorewrite with frame; simpl));
      rewrite ?list_lookup_alter_eq, ?Ht; simpl;
      try (apply warning_due_latch in Hw; rewrite Hw);
      try (apply timeup_due_latch in He; rewrite He);
      rewrite ?Nat.eqb_refl; simpl;
      repeat match goal with
             | |- context [if ?b then _ else _] => destruct b
             end; lia.
  - assert (Hb : Nat.eqb i c = false) by (apply Nat.eqb_neq; exact Hne).
    unfold updateTimer.
    destruct (timers s !! i) as [t|] eqn:Ht; [|simpl; lia].
    destruct (courtSettings s !! i) as [cs|] eqn:Hcs; [|simpl; lia].
    destruct (negb (running t) || paused t) eqn:Hskip; [simpl; lia|].
    destruct (warning_due now t cs) eqn:Hw; destruct (timeup_due now t) eqn:He;
      cbn zeta; simpl; repeat (progress (autorewrite with frame; simpl));
      rewrite ?list_lookup_alter_ne by exact Hne;
      rewrite ?Hb; simpl; lia.
Qed.

Lemma budget_updateTimers now c l s :
  (warning_budget c (fold_left (fun s i => updateTimer env now i s) l s)
     <= warning_budget c s)%nat /\
  (timeup_budget c (fold_left (fun s i => updateTimer env now i s) l s)
     <= timeup_budget c s)%nat.
Proof.
  revert s. induction l as [|i l IH]; intros s; simpl; [lia|].
  specialize (IH (updateTimer env now i s)).
  pose proof (budget_updateTimer now i c s). lia.
Qed.

Lemma budget_updateAlarm now i c s :
  warning_budget c (updateAlarm env now i s) = warning_budget c s /\
  timeup_budget c (updateAlarm env now i s) = timeup_budget c s.
Proof.
  unfold warning_budget, timeup_budget, warnings_fired, timeups_fired,
    timer_of.
  rewrite updateAlarm_timers.
  destruct (updateAlarm_serial env now i s) as [-> | ->]; simpl; auto.
Qed.

Lemma budget_updateAlarms now c l s :
  warning_budget c (fold_left (fun s i => updateAlarm env now i s) l s)
    = warning_budget c s /\
  timeup_budget c (fold_left (fun s i => updateAlarm env now i s) l s)
    = timeup_budget c s.
Proof.
  revert s. induction l as [|i l IH]; intros s; simpl; [auto|].
  destruct (IH (updateAlarm env now i s)) as [-> ->].
  apply budget_updateAlarm.
Qed.

(** A handler that rewrites [timers[i]] with a function that keeps both
    latches keeps every allowance. *)
Lemma budget_alter (f : Timer -> Timer) i c s s' :
  (forall t, warningTriggered (f t) = warningTriggered t) ->
  (forall t, alarmTriggered (f t) = alarmTriggered t) ->
  timers s' = alter f i (timers s) -> serial s' = serial s ->
  warning_budget c s' = warning_budget c s /\
  timeup_budget c s' = timeup_budget c s.
Proof.
  intros Hw Ha Ht Hs.
  unfold warning_budget, timeup_budget, warnings_fired, timeups_fired,
    timer_of.
  rewrite Ht, Hs.
  rewrite (default_alter_field warningTriggered f) by exact Hw.
  rewrite (default_alter_field alarmTriggered f) by exact Ha.
  auto.
Qed.

Lemma timer_toggle_latches now t :
  warningTriggered (timer_toggle now t) = warningTriggered t /\
  alarmTriggered (timer_toggle now t) = alarmTriggered t.
Proof.
  unfold timer_toggle.
  destruct (running t && negb (paused t)); [auto|].
  destruct (paused t); auto.
Qed.

(** Nothing but an accepted Start for court [c] raises its allowance. *)
Lemma budget_exec op c s :
  restarts c op = false ->
  (warning_budget c (exec env op s) <= warning_budget c s)%nat /\
  (timeup_budget c (exec env op s) <= timeup_budget c s)%nat.
Proof.
  intros Hop.
  assert (Hsame : forall s', timers s' = timers s -> serial s' = serial s ->
            (warning_budget c s' <= warning_budget c s)%nat /\
            (timeup_budget c s' <= timeup_budget c s)%nat).
  { intros s' E1 E2. destruct (budget_same c s s' E1 E2) as [-> ->]. lia. }
  destruct op as [now b|now b|b|b|b|b|cmd|now|now|r l]; simpl.
  - destruct b as [| |a]; simpl; auto.
    simpl in Hop.
    destruct (invalidCourt (st_courtId a)) eqn:Hinv; simpl in *; auto.
    apply Nat.eqb_neq in Hop.
    unfold warning_budget, timeup_budget, warnings_fired, timeups_fired,
      timer_of. simpl.
    rewrite list_lookup_alter_ne by exact Hop. lia.
  - destruct b as [| |a]; simpl; auto.
    destruct (invalidCourt a); simpl; auto.
    destruct (budget_alter (timer_toggle now) (Z.to_nat a) c s
                (set_timers s (alter (timer_toggle now) (Z.to_nat a)
                                 (timers s)))) as [-> ->];
      try reflexivity; try lia; intros t; apply timer_toggle_latches.
  - destruct b as [| |a]; simpl; auto.
    destruct (invalidCourt a); simpl; auto.
    destruct (budget_alter timer_stop (Z.to_nat a) c s
                (stopAudio (deactivateLED (Z.to_nat a)
                   (set_timers s (alter timer_stop (Z.to_nat a)
                                    (timers s)))))) as [-> ->];
      try reflexivity; try lia;
      unfold deactivateLED; destruct (Z.to_nat a <? 4)%nat; reflexivity.
  - destruct b as [| |a]; simpl; auto.
    destruct (invalidCourt (se_courtId a)); simpl; auto.
  - destruct b as [| |[oa ow]]; simpl; auto.
    destruct (_ || _); simpl; auto. destruct (_ || _); simpl; auto.
  - destruct b as [| |a]; simpl; auto.
  - destruct cmd as [d|d|]; simpl; auto; destruct (_ && _); auto.
  - apply budget_updateTimers.
  - destruct (budget_updateAlarms now c courts s) as [E1 E2].
    unfold updateAlarms. rewrite E1, E2. lia.
  - unfold updateAudioPlayback.
    destruct (_ && _); auto. destruct r; [destruct l|]; simpl; auto.
Qed.

Lemma budget_run ops c s :
  Forall (fun op => restarts c op = false) ops ->
  (warning_budget c (run env ops s) <= warning_budget c s)%nat /\
  (timeup_budget c (run env ops s) <= timeup_budget c s)%nat.
Proof.
  unfold run. intros H. revert s.
  induction H as [|op ops Hop _ IH]; intros s; simpl; [lia|].
  specialize (IH (exec env op s)).
  pose proof (budget_exec op c s Hop). lia.
Qed.

End Latches.

Section ExpiryStops.
Variable env : Storage.

Lemma updateTimer_fired_other now i c s :
  i <> c ->
  warnings_fired c (updateTimer env now i s) = warnings_fired c s /\
  timeups_fired c (updateTimer env now i s) = timeups_fired c s.
Proof.
  intros Hne.
  assert (Hb : Nat.eqb i c = false) by (apply Nat.eqb_neq; exact Hne).
  unfold warnings_fired, timeups_fired, updateTimer.
  destruct (timers s !! i) as [t|]; [|auto].
  destruct (courtSettings s !! i) as [cs|]; [|auto].
  destruct (negb (running t) || paused t); [auto|].
  destruct (warning_due now t cs); destruct (timeup_due now t);
    cbn zeta; simpl; repeat (progress (autorewrite with frame; simpl));
    rewrite ?Hb; auto.
Qed.

(** The pass stops the timer of the court whose expiry it announces. *)
Lemma updateTimer_timeup_stops now c s :
  (timeups_fired c s < timeups_fired c (updateTimer env now c s))%nat ->
  running (timer_of (updateTimer env now c s) c) = false /\
  alarmTriggered (timer_of (updateTimer env now c s) c) = true.
Proof.
  unfold timeups_fired, timer_of, updateTimer.
  destruct (timers s !! c) as [t|] eqn:Ht; [|simpl; lia].
  destruct (courtSettings s !! c) as [cs|]; [|simpl; lia].
  destruct (negb (running t) || paused t); [simpl; lia|].
  destruct (warning_due now t cs); destruct (timeup_due now t);
    cbn zeta; simpl; repeat (progress (autorewrite with frame; simpl));
    rewrite ?list_lookup_alter_eq, ?Ht; simpl; auto; lia.
Qed.

Lemma updateTimers_other now c l s :
  c ∉ l ->
  timers (fold_left (fun s i => updateTimer env now i s) l s) !! c
    = timers s !! c /\
  timeups_fired c (fold_left (fun s i => updateTimer env now i s) l s)
    = timeups_fired c s.
Proof.
  revert s. induction l as [|i l IH]; intros s Hc; simpl; [auto|].
  apply not_elem_of_cons in Hc as [Hne Hc].
  destruct (IH (updateTimer env now i s) Hc) as [-> ->].
  rewrite updateTimer_timers_other by auto.
  destruct (updateTimer_fired_other now i c s) as [_ ->]; auto.
Qed.

Lemma updateTimers_timeup_stops now c l s :
  NoDup l ->
  (timeups_fired c s
     < timeups_fired c (fold_left (fun s i => updateTimer env now i s) l s))%nat
  ->
  running (timer_of (fold_left (fun s i => updateTimer env now i s) l s) c)
    = false.
Proof.
  intros Hl. revert s. induction Hl as [|i l Hi Hl IH]; intros s; simpl.
  - lia.
  - intros Hlt. destruct (decide (i = c)) as [->|Hne].
    + destruct (updateTimers_other now c l (updateTimer env now c s) Hi)
        as [E1 E2].
      unfold timer_of. rewrite E1. rewrite E2 in Hlt.
      apply updateTimer_timeup_stops. exact Hlt.
    + apply IH.
      destruct (updateTimer_fired_other now i c s Hne) as [_ ->]. exact Hlt.
Qed.

End ExpiryStops.

Lemma NoDup_courts : NoDup courts.
Proof.
  unfold courts. repeat apply NoDup_cons_2; try apply NoDup_nil_2;
    rewrite ?elem_of_cons, elem_of_nil; lia.
Qed.

Lemma fired_le_budget c s :
  (warnings_fired c s <= warning_budget c s)%nat /\
  (timeups_fired c s <= timeup_budget c s)%nat.
Proof. unfold warning_budget, timeup_budget. lia. Qed.

(** C7.  Within a run of court [c] -- any sequence of handler calls and
    update passes that contains no accepted Start for [c] -- the warning
    alarm and the expiry alarm of [c] are each raised at most once, and not
    at all once the corresponding latch is set, however many timer passes
    meet the threshold; this holds in particular for the run that an
    accepted Start opens, since that Start clears both latches; and a timer
    pass that raises the expiry alarm of [c] leaves timer [c] with
    [running = false]. *)
Theorem latches_fire_once (env : Storage) (c : nat) (ops : list Op)
    (s : State) (now : Z) (a : StartArgs) :
  wf s -> (c < 4)%nat ->
  Forall (fun op => restarts c op = false) ops ->
  st_courtId a = Z.of_nat c ->
  let started := snd (handleStart now (Parsed a) s) in
  (* one shot per latch, from any state *)
  (warnings_fired c (run env ops s) <=
     warnings_fired c s
     + (if warningTriggered (timer_of s c) then 0 else 1))%nat /\
  (timeups_fired c (run env ops s) <=
     timeups_fired c s
     + (if alarmTriggered (timer_of s c) then 0 else 1))%nat /\
  (* Start clears both latches, opening a run with one shot each *)
  warningTriggered (timer_of started c) = false /\
  alarmTriggered (timer_of started c) = false /\
  (warnings_fired c (run env ops started) <= warnings_fired c s + 1)%nat /\
  (timeups_fired c (run env ops started) <= timeups_fired c s + 1)%nat /\
  (* the expiry event stops the timer *)
  (forall t s', (timeups_fired c s' < timeups_fired c (updateTimers env t s'))%nat ->
     running (timer_of (updateTimers env t s') c) = false).
Proof.
  intros Hwf Hc Hops Ha started.
  pose proof (budget_run env ops c s Hops) as [Hw He].
  assert (Hlatch : warningTriggered (timer_of started c) = false /\
                   alarmTriggered (timer_of started c) = false).
  { unfold started, handleStart, invalidCourt. rewrite Ha.
    replace (Z.of_nat c <? 0) with false by (symmetry; apply Z.ltb_ge; lia).
    replace (4 <=? Z.of_nat c) with false by (symmetry; apply Z.leb_gt; lia).
    simpl. rewrite Nat2Z.id. unfold timer_of. simpl.
    rewrite list_lookup_alter_eq.
    destruct Hwf as (Ht & _).
    destruct (lookup_lt_is_Some_2 (timers s) c) as [t0 Ht0]; [lia|].
    rewrite Ht0. simpl. auto. }
  destruct Hlatch as [Hlw Hla].
  pose proof (budget_run env ops c started Hops) as [Hw' He'].
  assert (Hser : serial started = serial s).
  { unfold started, handleStart.
    destruct (invalidCourt (st_courtId a)); reflexivity. }
  pose proof (fired_le_budget c (run env ops s)) as [Fw Fe].
  pose proof (fired_le_budget c (run env ops started)) as [Fw' Fe'].
  assert (Bw : warning_budget c started = (warnings_fired c s + 1)%nat).
  { unfold warning_budget, warnings_fired. rewrite Hlw, Hser. reflexivity. }
  assert (Be : timeup_budget c started = (timeups_fired c s + 1)%nat).
  { unfold timeup_budget, timeups_fired. rewrite Hla, Hser. reflexivity. }
  split; [exact (Nat.le_trans _ _ _ Fw Hw)|].
  split; [exact (Nat.le_trans _ _ _ Fe He)|].
  split; [exact Hlw|]. split; [exact Hla|].
  split; [lia|]. split; [lia|].
  intros t s' Hlt. unfold updateTimers.
  apply updateTimers_timeup_stops; [|exact Hlt].
  apply NoDup_courts.
Qed.

(** ** Pause and resume *)

Section PauseResume.
Variable env : Storage.

Lemma paused_inv_timers s s' :
  timers s' = timers s -> paused_inv s -> paused_inv s'.
Proof. unfold paused_inv. intros ->. auto. Qed.

Lemma paused_inv_alter (f : Timer -> Timer) i s s' :
  timers s' = alter f i (timers s) ->
  (forall t, timers s !! i = Some t ->
     (paused t = true -> running t = true) ->
     paused (f t) = true -> running (f t) = true) ->
  paused_inv s -> paused_inv s'.
Proof.
  unfold paused_inv. intros -> Hf Hs c t.
  rewrite list_lookup_alter. case_decide as Hic.
  - subst c. destruct (timers s !! i) as [t0|] eqn:Ht0; simpl; [|discriminate].
    intros [= <-]. apply Hf; [reflexivity|]. apply (Hs i). exact Ht0.
  - apply Hs.
Qed.

Lemma paused_inv_updateTimer now i s :
  paused_inv s -> paused_inv (updateTimer env now i s).
Proof.
  intros Hs. unfold updateTimer.
  destruct (timers s !! i) as [t|] eqn:Ht; [|exact Hs].
  destruct (courtSettings s !! i) as [cs|]; [|exact Hs].
  destruct (negb (running t) || paused t) eqn:Hskip; [exact Hs|].
  apply orb_false_iff in Hskip as [_ Hp].
  destruct (warning_due now t cs); destruct (timeup_due now t);
    cbn zeta; unfold paused_inv; simpl;
    repeat (progress (autorewrite with frame; simpl));
    intros c t0;
    (destruct (decide (i = c)) as [<-|Hic];
     [ rewrite ?list_lookup_alter_eq, Ht; simpl; intros [= <-]; simpl;
       rewrite Hp; discriminate
     | rewrite ?list_lookup_alter_ne by exact Hic; apply Hs ]).
Qed.

Lemma paused_inv_exec op s : paused_inv s -> paused_inv (exec env op s).
Proof.
  intros Hs. destruct op as [now b|now b|b|b|b|b|c|now|now|r l]; simpl.
  - destruct b as [| |a]; simpl; auto.
    destruct (invalidCourt (st_courtId a)); simpl; auto.
    eapply paused_inv_alter; [reflexivity | | exact Hs].
    simpl. discriminate.
  - destruct b as [| |a]; simpl; auto.
    destruct (invalidCourt a); simpl; auto.
    eapply paused_inv_alter; [reflexivity | | exact Hs].
    intros t _ Ht. unfold timer_toggle.
    destruct (running t) eqn:Hr; destruct (paused t) eqn:Hp; simpl;
      rewrite ?Hr, ?Hp; auto; discriminate.
  - destruct b as [| |a]; simpl; auto.
    destruct (invalidCourt a); simpl; auto.
    eapply paused_inv_alter; [ | | exact Hs].
    + unfold deactivateLED. destruct (Z.to_nat a <? 4)%nat; reflexivity.
    + simpl. discriminate.
  - destruct b as [| |a]; simpl; auto.
    destruct (invalidCourt (se_courtId a)); exact Hs.
  - destruct b as [| |[oa ow]]; simpl; auto.
    destruct (_ || _); simpl; auto. destruct (_ || _); exact Hs.
  - destruct b as [| |a]; exact Hs.
  - destruct c as [d|d|]; simpl; auto; destruct (_ && _); exact Hs.
  - unfold updateTimers. apply pass_preserves; [|exact Hs].
    intros; apply paused_inv_updateTimer; auto.
  - unfold updateAlarms. apply pass_preserves; [|exact Hs].
    intros i s' H. apply (paused_inv_timers s'); [|exact H].
    apply updateAlarm_timers.
  - unfold updateAudioPlayback.
    destruct (_ && _); auto. destruct r; [destruct l|]; exact Hs.
Qed.

Lemma reachable_paused_inv s : reachable env s -> paused_inv s.
Proof.
  induction 1 as [sd lfs cfg prefs|s op _ IH].
  - intros c t. unfold setup, courts. simpl.
    destruct c as [|[|[|[|c]]]]; simpl; try discriminate;
      intros [= <-]; discriminate.
  - apply paused_inv_exec. exact IH.
Qed.

(** The passes leave a paused timer as it is. *)
Lemma updateTimers_paused now c l s :
  paused (timer_of s c) = true ->
  timers (fold_left (fun s i => updateTimer env now i s) l s) !! c
    = timers s !! c.
Proof.
  revert s. induction l as [|i l IH]; intros s Hp; simpl; [reflexivity|].
  destruct (decide (i = c)) as [->|Hne].
  - rewrite updateTimer_skip by (right; exact Hp). apply IH. exact Hp.
  - rewrite IH.
    + apply updateTimer_timers_other. exact Hne.
    + unfold timer_of. rewrite updateTimer_timers_other by exact Hne.
      exact Hp.
Qed.

Lemma updateAlarms_timers now l s :
  timers (fold_left (fun s i => updateAlarm env now i s) l s) = timers s.
Proof.
  revert s. induction l as [|i l IH]; intros s; simpl; [reflexivity|].
  rewrite IH. apply updateAlarm_timers.
Qed.

Lemma pass_paused op c s :
  is_pass op = true -> paused (timer_of s c) = true ->
  timers (exec env op s) !! c = timers s !! c.
Proof.
  intros Hop Hp. destruct op; try discriminate; simpl.
  - apply updateTimers_paused. exact Hp.
  - unfold updateAlarms. rewrite updateAlarms_timers. reflexivity.
  - unfold updateAudioPlayback.
    destruct (_ && _); auto. destruct isRunning; [destruct loopOk|]; reflexivity.
Qed.

Lemma passes_paused ops c s :
  Forall (fun op => is_pass op = true) ops ->
  paused (timer_of s c) = true ->
  timers (run env ops s) !! c = timers s !! c.
Proof.
  unfold run. intros H. revert s.
  induction H as [|op ops Hop _ IH]; intros s Hp; simpl; [reflexivity|].
  rewrite IH.
  - apply pass_paused; assumption.
  - unfold timer_of. rewrite pass_paused by assumption. exact Hp.
Qed.

(** Resuming moves [startTime] by the length of the pause, so the elapsed
    time as seen at [t] is the one an unpaused timer saw at [t - (t2 - t1)]. *)
Lemma resume_shifts_clock t1 t2 t tm :
  elapsed_at t (timer_resume t2 (timer_pause t1 tm))
  = elapsed_at (t - (t2 - t1)) tm.
Proof.
  unfold elapsed_at, timer_resume, timer_pause, wrap32. simpl.
  rewrite Zminus_mod_idemp_r.
  replace (t - (startTime tm + (t2 - t1) mod 2 ^ 32))
    with (t - startTime tm - (t2 - t1) mod 2 ^ 32) by lia.
  rewrite Zminus_mod_idemp_r. f_equal. lia.
Qed.

Lemma resume_keeps_remaining t1 t2 t tm :
  remaining_at t (timer_resume t2 (timer_pause t1 tm))
  = remaining_at (t - (t2 - t1)) tm.
Proof.
  unfold remaining_at. rewrite resume_shifts_clock. reflexivity.
Qed.

Lemma handlePause_timer now c s :
  wf s -> (c < 4)%nat ->
  timers (snd (handlePause now (Parsed (Z.of_nat c)) s)) !! c
  = Some (timer_toggle now (timer_of s c)).
Proof.
  intros (Ht & _) Hc. unfold handlePause, invalidCourt, timer_of.
  replace (Z.of_nat c <? 0) with false by (symmetry; apply Z.ltb_ge; lia).
  replace (4 <=? Z.of_nat c) with false by (symmetry; apply Z.leb_gt; lia).
  simpl. rewrite Nat2Z.id, list_lookup_alter_eq.
  destruct (lookup_lt_is_Some_2 (timers s) c) as [t0 Ht0]; [lia|].
  rewrite Ht0. reflexivity.
Qed.

End PauseResume.

Section StoredRemaining.
Variable env : Storage.

Lemma updateTimer_remainingTime now c s :
  is_Some (timers s !! c) -> is_Some (courtSettings s !! c) ->
  running (timer_of s c) = true -> paused (timer_of s c) = false ->
  remainingTime (timer_of (updateTimer env now c s) c)
  = wrap32 (remaining_at now (timer_of s c)).
Proof.
  unfold timer_of, updateTimer. intros [t Ht] [cs Hcs]. rewrite Ht, Hcs. simpl.
  intros Hr Hp. rewrite Hr, Hp. simpl.
  destruct (warning_due now t cs); destruct (timeup_due now t);
    cbn zeta; simpl; repeat (progress (autorewrite with frame; simpl));
    rewrite ?list_lookup_alter_eq, Ht; reflexivity.
Qed.

(** What a timer pass stores in [remainingTime] of a running court. *)
Lemma updateTimers_remainingTime now c l s :
  NoDup l -> c ∈ l ->
  is_Some (timers s !! c) -> is_Some (courtSettings s !! c) ->
  running (timer_of s c) = true -> paused (timer_of s c) = false ->
  remainingTime
    (timer_of (fold_left (fun s i => updateTimer env now i s) l s) c)
  = wrap32 (remaining_at now (timer_of s c)).
Proof.
  intros Hl. revert s.
  induction Hl as [|i l Hi Hl IH]; intros s Hc Ht Hcs Hr Hp; simpl.
  - apply elem_of_nil in Hc. contradiction.
  - destruct (decide (i = c)) as [->|Hne].
    + destruct (updateTimers_other env now c l (updateTimer env now c s) Hi)
        as [E _].
      unfold timer_of at 1. rewrite E.
      apply updateTimer_remainingTime; assumption.
    + apply elem_of_cons in Hc as [Hc|Hc]; [congruence|].
      assert (E : timer_of (updateTimer env now i s) c = timer_of s c).
      { unfold timer_of. rewrite updateTimer_timers_other by exact Hne.
        reflexivity. }
      rewrite <- E. apply IH; try assumption.
      * rewrite updateTimer_timers_other by exact Hne. exact Ht.
      * rewrite updateTimer_courtSettings. exact Hcs.
      * rewrite E. exact Hr.
      * rewrite E. exact Hp.
Qed.

End StoredRemaining.

(** C8.  Court [c] is running and not paused; the toggle endpoint is hit
    at clock [t1] (pause) and again at [t2] (resume), with any number of
    update passes in between.  The stored remaining time does not move
    while paused; resuming shifts [startTime] forward by exactly the
    paused interval [t2 - t1]; and from then on a timer pass at any clock
    [t] computes, and stores, the remaining time that a pass at
    [t - (t2 - t1)] would have given had the timer never been paused.
    When the timer is not running, the toggle changes nothing. *)
Theorem pause_resume_keeps_remaining (env : Storage) (s : State) (c : nat)
    (t1 t2 : Z) (passes : list Op) :
  reachable env s -> (c < 4)%nat ->
  Forall (fun op => is_pass op = true) passes ->
  let tm := timer_of s c in
  let s1 := snd (handlePause t1 (Parsed (Z.of_nat c)) s) in
  let s1' := run env passes s1 in
  let s2 := snd (handlePause t2 (Parsed (Z.of_nat c)) s1') in
  (running tm = true -> paused tm = false ->
     paused (timer_of s1 c) = true /\
     remainingTime (timer_of s1' c) = remainingTime tm /\
     running (timer_of s2 c) = true /\
     paused (timer_of s2 c) = false /\
     startTime (timer_of s2 c) = wrap32 (startTime tm + wrap32 (t2 - t1)) /\
     remainingTime (timer_of s2 c) = remainingTime tm /\
     (forall t, remaining_at t (timer_of s2 c)
                = remaining_at (t - (t2 - t1)) tm) /\
     (forall t, remainingTime (timer_of (updateTimers env t s2) c)
                = remainingTime
                    (timer_of (updateTimers env (t - (t2 - t1)) s) c))) /\
  (running tm = false ->
     forall now, handlePause now (Parsed (Z.of_nat c)) s
                 = (reply 200 "Timer toggled", s)).
Proof.
  intros Hreach Hc Hpasses tm s1 s1' s2.
  pose proof (reachable_wf env s Hreach) as Hwf.
  split.
  - intros Hr Hp.
    assert (Hwf1 : wf s1) by (apply (wf_exec env (OPause t1 _)); exact Hwf).
    assert (Hwf1' : wf s1') by (apply wf_run; exact Hwf1).
    assert (Hwf2 : wf s2) by (apply (wf_exec env (OPause t2 _)); exact Hwf1').
    assert (E1 : timer_of s1 c = timer_pause t1 tm).
    { unfold timer_of at 1. unfold s1. rewrite handlePause_timer by assumption.
      simpl. unfold timer_toggle. fold tm. rewrite Hr, Hp. reflexivity. }
    assert (E1' : timer_of s1' c = timer_pause t1 tm).
    { unfold timer_of at 1. unfold s1'.
      rewrite passes_paused; [exact E1 | exact Hpasses |].
      rewrite E1. reflexivity. }
    assert (E2 : timer_of s2 c = timer_resume t2 (timer_pause t1 tm)).
    { unfold timer_of at 1. unfold s2. rewrite handlePause_timer by assumption.
      simpl. rewrite E1'. unfold timer_toggle. simpl. rewrite Hr. reflexivity. }
    rewrite E1, E1', E2. simpl.
    repeat split; try assumption; try reflexivity.
    + intros t. apply resume_keeps_remaining.
    + intros t. unfold updateTimers.
      destruct Hwf as (Ht & Hcs & _). destruct Hwf2 as (Ht2 & Hcs2 & _).
      assert (Hin : c ∈ courts).
      { unfold courts. rewrite !elem_of_cons. lia. }
      rewrite (updateTimers_remainingTime env t c courts s2);
        [ | apply NoDup_courts | exact Hin
          | apply lookup_lt_is_Some_2; lia | apply lookup_lt_is_Some_2; lia
          | rewrite E2; exact Hr | rewrite E2; reflexivity ].
      rewrite (updateTimers_remainingTime env (t - (t2 - t1)) c courts s);
        [ | apply NoDup_courts | exact Hin
          | apply lookup_lt_is_Some_2; lia | apply lookup_lt_is_Some_2; lia
          | exact Hr | exact Hp ].
      rewrite E2. f_equal. apply resume_keeps_remaining.
  - intros Hr now. unfold handlePause, invalidCourt.
    replace (Z.of_nat c <? 0) with false by (symmetry; apply Z.ltb_ge; lia).
    replace (4 <=? Z.of_nat c) with false by (symmetry; apply Z.leb_gt; lia).
    simpl. f_equal. rewrite Nat2Z.id.
    rewrite alter_fixed; [apply set_timers_same|].
    intros t Ht. unfold timer_toggle.
    assert (Etm : tm = t) by (unfold tm, timer_of; rewrite Ht; reflexivity).
    rewrite <- Etm, Hr. simpl.
    destruct (paused tm) eqn:Hp; [|reflexivity].
    pose proof (reachable_paused_inv env s Hreach c t Ht) as Hinv.
    rewrite <- Etm in Hinv. rewrite Hinv in Hr; [discriminate | exact Hp].
Qed.

(** ** Storage selection *)

(** C10.  With the SD card selected and mounted, [playAudio] reads the SD
    card only: its result does not depend on anything LittleFS holds or on
    how LittleFS clips decode, no LittleFS source is open afterwards, the
    clip played is the court's own SD file or else the default SD file, and
    when neither SD path opens the channel is idle. *)
Theorem playAudio_sd_only (env env' : Storage) (i : nat) (w : bool)
    (s : State) :
  audioSystemReady s = true ->
  useSDCard (config s) && sdCardAvailable s = true ->
  let s' := playAudio env i w s in
  ((forall p, sd_exists env' p = sd_exists env p) ->
   (forall p, wav_begin env' SDcard p = wav_begin env SDcard p) ->
   playAudio env' i w s = s') /\
  fileLittleFS (audio s') = None /\
  (opens env SDcard (audioFile i w) = true ->
   audio s' = playing SDcard (audioFile i w) i w) /\
  (opens env SDcard (audioFile i w) = false ->
   opens env SDcard (defaultAudioFile w) = true ->
   audio s' = playing SDcard (defaultAudioFile w) i w) /\
  (opens env SDcard (audioFile i w) = false ->
   opens env SDcard (defaultAudioFile w) = false ->
   audio s' = idle_audio /\ owner s' = None).
Proof.
  intros Hr Hsd s'. unfold s'.
  rewrite !playAudio_ready by exact Hr.
  unfold channel_after, clip_for, backend_of. rewrite Hsd.
  split; [|split; [|split; [|split]]].
  - intros Hex Hbeg. unfold opens, file_exists.
    rewrite !Hex, !Hbeg. reflexivity.
  - simpl.
    destruct (opens env SDcard (audioFile i w)); [reflexivity|].
    destruct (opens env SDcard (defaultAudioFile w)); reflexivity.
  - intros ->. reflexivity.
  - intros -> ->. reflexivity.
  - intros -> ->. split; reflexivity.
Qed.

(** ** Start *)

(** C6, as the code has it.  [handleStart] checks the request body and the
    court index and nothing else: a request without body, with a body that
    is not JSON, or with a court outside [0,4) is answered 400 and leaves
    the state as it is; any other request, whatever its duration (zero and
    negative ones included), is answered 200 and sets [running = true],
    [paused = false], [startTime = now], [duration] to the minutes of the
    request times 60000 (wrapped to 32 bits), [remainingTime] to the
    minutes times 60, clears both latches, stores the player name and
    increments [sessionCount]; the other timers are not touched. *)
Theorem handleStart_checks_court_only (now : Z) (a : StartArgs) (s : State) :
  handleStart now NoData s = (reply 400 "No data received", s) /\
  handleStart now InvalidJson s = (reply 400 "Invalid JSON", s) /\
  (invalidCourt (st_courtId a) = true ->
   handleStart now (Parsed a) s = (reply 400 "Invalid court ID", s)) /\
  (forall c, wf s -> (c < 4)%nat -> st_courtId a = Z.of_nat c ->
     let r := handleStart now (Parsed a) s in
     let t := timer_of (snd r) c in
     fst r = reply 200 "Timer started" /\
     running t = true /\ paused t = false /\ startTime t = now /\
     duration t = wrap32 (to_int (st_duration a * 60) * 1000) /\
     remainingTime t = wrap32 (to_int (st_duration a * 60)) /\
     warningTriggered t = false /\ alarmTriggered t = false /\
     playerName t = st_playerName a /\
     sessionCount t = to_int (sessionCount (timer_of s c) + 1) /\
     (forall c', c' <> c -> timers (snd r) !! c' = timers s !! c')).
Proof.
  split; [reflexivity|]. split; [reflexivity|]. split.
  - intros H. unfold handleStart. rewrite H. reflexivity.
  - intros c (Ht & _) Hc Ha r t. unfold t, r, handleStart, invalidCourt.
    rewrite Ha.
    replace (Z.of_nat c <? 0) with false by (symmetry; apply Z.ltb_ge; lia).
    replace (4 <=? Z.of_nat c) with false by (symmetry; apply Z.leb_gt; lia).
    simpl. rewrite Nat2Z.id. unfold timer_of. simpl.
    rewrite list_lookup_alter_eq.
    destruct (lookup_lt_is_Some_2 (timers s) c) as [t0 Ht0]; [lia|].
    rewrite Ht0. simpl. repeat split.
    intros c' Hne. apply list_lookup_alter_ne. congruence.
Qed.

(** ** Stop *)

Lemma handleStop_valid c s :
  (c < 4)%nat ->
  handleStop (Parsed (Z.of_nat c)) s =
  (reply 200 "Timer stopped",
   stopAudio (set_leds (set_timers s (alter timer_stop c (timers s)))
                (<[c := false]> (leds s)))).
Proof.
  intros Hc. unfold handleStop, invalidCourt, deactivateLED.
  replace (Z.of_nat c <? 0) with false by (symmetry; apply Z.ltb_ge; lia).
  replace (4 <=? Z.of_nat c) with false by (symmetry; apply Z.leb_gt; lia).
  simpl. rewrite Nat2Z.id.
  apply Nat.ltb_lt in Hc. rewrite Hc. reflexivity.
Qed.

(** [handleStop] does not write [alarmStates]. *)
Lemma handleStop_alarmStates b s :
  alarmStates (snd (handleStop b s)) = alarmStates s.
Proof.
  destruct b as [| |a]; simpl; try reflexivity.
  destruct (invalidCourt a); simpl; [reflexivity|].
  unfold deactivateLED. destruct (Z.to_nat a <? 4)%nat; reflexivity.
Qed.

(** C1, as the code has it.  Stop(c) for a court in [0,4) is answered 200,
    turns the LED of [c] off, stops timer [c], and leaves the audio channel
    idle whichever court's clip it was rendering -- the clip of another
    court is silenced as well; the AlarmState, the LED and the timer of
    every other court are as before. *)
Theorem handleStop_clears_channel (c : nat) (s : State) :
  wf s -> (c < 4)%nat ->
  let r := handleStop (Parsed (Z.of_nat c)) s in
  let s' := snd r in
  fst r = reply 200 "Timer stopped" /\
  led_of s' c = false /\
  audio s' = idle_audio /\ owner s' = None /\
  running (timer_of s' c) = false /\ paused (timer_of s' c) = false /\
  remainingTime (timer_of s' c) = 0 /\
  (forall c', c' <> c ->
     alarm_of s' c' = alarm_of s c' /\ led_of s' c' = led_of s c' /\
     timer_of s' c' = timer_of s c').
Proof.
  intros (Ht & _ & _ & Hl) Hc r s'. unfold s', r.
  rewrite handleStop_valid by exact Hc. simpl.
  unfold led_of, timer_of, alarm_of, owner. simpl.
  rewrite list_lookup_insert_eq by lia.
  rewrite list_lookup_alter_eq.
  destruct (lookup_lt_is_Some_2 (timers s) c) as [t0 Ht0]; [lia|].
  rewrite Ht0. simpl. repeat split.
  - rewrite list_lookup_insert_ne by congruence. reflexivity.
  - rewrite list_lookup_alter_ne by congruence. reflexivity.
Qed.

(** ** End of an alarm window *)

Section AlarmWindow.
Variable env : Storage.

Lemma updateAlarms_other now c l s :
  c ∉ l ->
  alarmStates (fold_left (fun s i => updateAlarm env now i s) l s) !! c
    = alarmStates s !! c /\
  leds (fold_left (fun s i => updateAlarm env now i s) l s) !! c
    = leds s !! c.
Proof.
  revert s. induction l as [|i l IH]; intros s Hc; simpl; [auto|].
  apply not_elem_of_cons in Hc as [Hne Hc].
  destruct (IH (updateAlarm env now i s) Hc) as [-> ->].
  rewrite updateAlarm_alarmStates_other, updateAlarm_leds_other by auto.
  auto.
Qed.

Lemma updateAlarm_deactivates now c s :
  wf s -> (c < 4)%nat ->
  active (alarm_of s c) = true ->
  loopAlarm (settings_of s c) = false ->
  wrap32 (a_duration (alarm_of s c))
    <= wrap32 (now - a_startTime (alarm_of s c)) ->
  active (alarm_of (updateAlarm env now c s) c) = false /\
  led_of (updateAlarm env now c s) c = false /\
  audio (updateAlarm env now c s) = idle_audio.
Proof.
  intros (_ & Hcs & Ha & Hl) Hc.
  destruct (lookup_lt_is_Some_2 (alarmStates s) c) as [a Hla]; [lia|].
  destruct (lookup_lt_is_Some_2 (courtSettings s) c) as [cs Hlcs]; [lia|].
  unfold alarm_of at 1 2 3, settings_of. rewrite Hla, Hlcs. simpl.
  intros Hact Hloop Hel.
  rewrite (updateAlarm_expire env now c s a cs) by
    (try assumption; rewrite Hloop; apply andb_false_r).
  unfold alarm_of, led_of, deactivateLED.
  apply Nat.ltb_lt in Hc as Hc'. rewrite Hc'. simpl.
  rewrite list_lookup_alter_eq, Hla.
  rewrite list_lookup_insert_eq by lia. auto.
Qed.

Lemma updateAlarms_deactivates now c l s :
  NoDup l -> c ∈ l -> wf s -> (c < 4)%nat ->
  active (alarm_of s c) = true ->
  loopAlarm (settings_of s c) = false ->
  wrap32 (a_duration (alarm_of s c))
    <= wrap32 (now - a_startTime (alarm_of s c)) ->
  active (alarm_of (fold_left (fun s i => updateAlarm env now i s) l s) c)
    = false /\
  led_of (fold_left (fun s i => updateAlarm env now i s) l s) c = false.
Proof.
  intros Hl. revert s.
  induction Hl as [|i l Hi Hl IH]; intros s Hin Hwf Hc Hact Hloop Hel; simpl.
  - apply elem_of_nil in Hin. contradiction.
  - destruct (decide (i = c)) as [->|Hne].
    + destruct (updateAlarms_other now c l (updateAlarm env now c s) Hi)
        as [E1 E2].
      unfold alarm_of, led_of. rewrite E1, E2.
      destruct (updateAlarm_deactivates now c s) as (H1 & H2 & _);
        try assumption.
      auto.
    + apply elem_of_cons in Hin as [Hin|Hin]; [congruence|].
      assert (E : alarm_of (updateAlarm env now i s) c = alarm_of s c).
      { unfold alarm_of. rewrite updateAlarm_alarmStates_other by exact Hne.
        reflexivity. }
      apply IH; try assumption.
      * apply wf_updateAlarm. exact Hwf.
      * rewrite E. exact Hact.
      * unfold settings_of. rewrite updateAlarm_courtSettings. exact Hloop.
      * rewrite E. exact Hel.
Qed.

End AlarmWindow.

(** C3, as the code has it.  Court [c] has an active alarm, its
    [loopAlarm] setting is off, and the alarm pass runs at a clock [now]
    with [now - startTime >= duration].  When the pass reaches court [c]
    it deactivates the alarm, turns the LED of [c] off and stops the audio
    channel without looking at whose clip is being rendered: the channel is
    idle at that point whoever had it.  After the pass the alarm of [c] is
    inactive and its LED off, and no later pass touches the slot again: the
    deactivation happens once. *)
Theorem alarm_window_elapsed (env : Storage) (now : Z) (c : nat) (s : State) :
  wf s -> (c < 4)%nat ->
  active (alarm_of s c) = true ->
  loopAlarm (settings_of s c) = false ->
  wrap32 (a_duration (alarm_of s c))
    <= wrap32 (now - a_startTime (alarm_of s c)) ->
  let s1 := updateAlarm env now c s in
  let s' := updateAlarms env now s in
  active (alarm_of s1 c) = false /\ led_of s1 c = false /\
  audio s1 = idle_audio /\ owner s1 = None /\
  active (alarm_of s' c) = false /\ led_of s' c = false /\
  (forall now', updateAlarm env now' c s' = s').
Proof.
  intros Hwf Hc Hact Hloop Hel s1 s'.
  destruct (updateAlarm_deactivates env now c s) as (H1 & H2 & H3);
    try assumption.
  assert (Hin : c ∈ courts).
  { unfold courts. rewrite !elem_of_cons. lia. }
  destruct (updateAlarms_deactivates env now c courts s) as (H4 & H5);
    try assumption; try apply NoDup_courts.
  unfold s1, s'. repeat split; try assumption.
  - unfold owner. rewrite H3. reflexivity.
  - intros now'. apply updateAlarm_skip. exact H4.
Qed.

(** ** Preemption of the channel *)

Section Preemption.
Variable env : Storage.

Lemma owner_channel_after s s' i w :
  audio s' = channel_after env s i w -> owner s' = owner_after env s i w.
Proof.
  unfold owner, owner_after, channel_after. intros ->.
  destruct (clip_for env s i w) as [[b p]|]; reflexivity.
Qed.

Lemma channel_after_same s s' i w :
  config s' = config s -> sdCardAvailable s' = sdCardAvailable s ->
  littleFSAvailable s' = littleFSAvailable s ->
  channel_after env s' i w = channel_after env s i w.
Proof.
  unfold channel_after, clip_for, backend_of. intros -> -> ->. reflexivity.
Qed.

Lemma owner_after_cases s i w :
  owner_after env s i w = Some i \/ owner_after env s i w = None.
Proof. unfold owner_after. destruct (clip_for env s i w); auto. Qed.

End Preemption.

(** C2, as the code has it.  In every reachable state the channel is one
    slot: nothing open, or one generator on exactly one file source.  When
    court [B]'s alarm is triggered while court [A]'s clip is playing,
    [A]'s clip is stopped, [A]'s LED stays on and [A]'s AlarmState stays
    active; the channel passes to [B] when [B]'s own clip or the default
    clip opens on the selected backend, and is left idle otherwise. *)
Theorem trigger_preempts (env : Storage) (s : State) (now : Z) (A B : nat)
    (d : Z) (w : bool) :
  reachable env s -> (A < 4)%nat -> (B < 4)%nat ->
  owner s = Some A -> led_of s A = true -> active (alarm_of s A) = true ->
  let s' := triggerAlarm env now B d w s in
  (forall r, reachable env r -> audio_inv r) /\
  audio_inv s' /\
  (A <> B -> owner s' <> Some A) /\
  owner s' = owner_after env s B w /\
  (owner s' = Some B \/ owner s' = None) /\
  led_of s' A = true /\ active (alarm_of s' A) = true.
Proof.
  intros Hreach HA HB Hown Hled Hact s'.
  pose proof (reachable_wf env s Hreach) as (_ & _ & Hla & Hll).
  pose proof (reachable_ready env s Hreach) as Hr.
  assert (Hown' : owner s' = owner_after env s B w).
  { apply owner_channel_after. unfold s'. apply triggerAlarm_audio. exact Hr. }
  split; [exact (reachable_audio_inv env)|].
  split;
    [apply audio_inv_triggerAlarm; apply (reachable_audio_inv env);
     exact Hreach|].
  split; [|split; [exact Hown'|split]].
  - intros Hne. rewrite Hown'.
    destruct (owner_after_cases env s B w) as [-> | ->]; congruence.
  - rewrite Hown'. apply owner_after_cases.
  - unfold led_of, alarm_of, s'.
    rewrite triggerAlarm_leds by exact HB. rewrite triggerAlarm_alarmStates.
    destruct (decide (B = A)) as [->|Hne].
    + rewrite !list_lookup_insert_eq by lia. auto.
    + rewrite !list_lookup_insert_ne by exact Hne. auto.
Qed.

(** ** Two expiries on one pass *)

Section SamePass.
Variable env : Storage.

Lemma timeup_not_warning now t cs :
  timeup_due now t = true -> warning_due now t cs = false.
Proof.
  intros H. destruct (warning_due now t cs) eqn:Hw; [|reflexivity].
  apply warning_timeup_exclusive in Hw. congruence.
Qed.

(** The pass on a court that reaches expiry. *)
Lemma updateTimer_timeup now i s :
  is_Some (timers s !! i) -> is_Some (courtSettings s !! i) ->
  expires now s i = true ->
  updateTimer env now i s =
  println (SerTimeUp i)
    (triggerAlarm env now i (alarmDuration (config s)) false
       (set_timers s
          (alter timer_latch_alarm i (alter (timer_tick now) i (timers s))))).
Proof.
  unfold expires, timer_of, updateTimer. intros [t Ht] [cs Hcs].
  rewrite Ht, Hcs. simpl. intros H.
  apply andb_true_iff in H as [H He]. apply andb_true_iff in H as [Hr Hp].
  rewrite Hr. apply negb_true_iff in Hp. rewrite Hp. simpl.
  rewrite (timeup_not_warning now t cs He), He. reflexivity.
Qed.

(** The pass on a court that raises no event writes its timer only. *)
Lemma updateTimer_quiet now i s :
  fires now s i = false ->
  alarmStates (updateTimer env now i s) = alarmStates s /\
  leds (updateTimer env now i s) = leds s /\
  audio (updateTimer env now i s) = audio s /\
  serial (updateTimer env now i s) = serial s.
Proof.
  unfold fires, timer_of, settings_of, updateTimer.
  destruct (timers s !! i) as [t|]; [|auto].
  destruct (courtSettings s !! i) as [cs|]; [|auto]. simpl.
  destruct (running t); simpl; [|auto].
  destruct (paused t); simpl; [auto|].
  intros H. apply orb_false_iff in H as [-> ->]. auto.
Qed.

Lemma fires_same now s s' i :
  timers s' !! i = timers s !! i -> courtSettings s' = courtSettings s ->
  fires now s' i = fires now s i.
Proof. unfold fires, timer_of, settings_of. intros -> ->. reflexivity. Qed.

Lemma expires_same now s s' i :
  timers s' !! i = timers s !! i -> expires now s' i = expires now s i.
Proof. unfold expires, timer_of. intros ->. reflexivity. Qed.

End SamePass.

(** C4, as the code has it.  Courts 0 and 1 both reach expiry on one timer
    pass and no higher court raises an event on that pass.  The pass takes
    the courts in index order: the expiry line of court 0 is written before
    that of court 1, both timers are stopped, both alarms are active and
    both LEDs on; court 0 has no clip on the channel, which is left as
    [playAudio] for court 1's expiry clip leaves it: owned by court 1 when
    that clip or the default one opens on the selected backend, idle
    otherwise. *)
Theorem same_pass_expiry (env : Storage) (now : Z) (s : State) :
  wf s -> audioSystemReady s = true ->
  expires now s 0 = true -> expires now s 1 = true ->
  fires now s 2 = false -> fires now s 3 = false ->
  let s' := updateTimers env now s in
  serial s' = SerTimeUp 1 :: SerTimeUp 0 :: serial s /\
  audio s' = channel_after env s 1 false /\
  owner s' = owner_after env s 1 false /\
  owner s' <> Some 0%nat /\
  active (alarm_of s' 0) = true /\ led_of s' 0 = true /\
  active (alarm_of s' 1) = true /\ led_of s' 1 = true /\
  running (timer_of s' 0) = false /\ running (timer_of s' 1) = false.
Proof.
  intros (Ht & Hcs & Ha & Hl) Hr H0 H1 H2 H3 s'.
  unfold s', updateTimers, courts. simpl.
  set (s0 := updateTimer env now 0 s).
  set (s1 := updateTimer env now 1 s0).
  set (s2 := updateTimer env now 2 s1).
  set (s3 := updateTimer env now 3 s2).
  (* court 0 *)
  assert (E0 : s0 = println (SerTimeUp 0)
            (triggerAlarm env now 0 (alarmDuration (config s)) false
               (set_timers s
                  (alter timer_latch_alarm 0%nat
                     (alter (timer_tick now) 0%nat (timers s)))))).
  { apply updateTimer_timeup; try assumption;
      apply lookup_lt_is_Some_2; lia. }
  assert (Ls0 : length (timers s0) = 4%nat /\ length (alarmStates s0) = 4%nat
                /\ length (leds s0) = 4%nat).
  { unfold s0.
    destruct (updateTimer_lengths env now 0 s) as (-> & -> & ->). auto. }
  destruct Ls0 as (Lt0 & La0 & Ll0).
  assert (Lc0 : length (courtSettings s0) = 4%nat).
  { unfold s0. rewrite updateTimer_courtSettings. exact Hcs. }
  (* court 1 *)
  assert (H1' : expires now s0 1 = true).
  { rewrite (expires_same now s s0); [exact H1|].
    apply updateTimer_timers_other. lia. }
  assert (E1 : s1 = println (SerTimeUp 1)
            (triggerAlarm env now 1 (alarmDuration (config s0)) false
               (set_timers s0
                  (alter timer_latch_alarm 1%nat
                     (alter (timer_tick now) 1%nat (timers s0)))))).
  { apply updateTimer_timeup; try assumption;
      apply lookup_lt_is_Some_2; lia. }
  (* courts 2 and 3 *)
  assert (H2' : fires now s1 2 = false).
  { rewrite (fires_same now s s1); [exact H2 | |].
    - unfold s1, s0. rewrite !updateTimer_timers_other by lia. reflexivity.
    - unfold s1, s0. rewrite !updateTimer_courtSettings. reflexivity. }
  destruct (updateTimer_quiet env now 2 s1 H2') as (A2 & L2 & U2 & S2).
  fold s2 in A2, L2, U2, S2.
  assert (H3' : fires now s2 3 = false).
  { rewrite (fires_same now s s2); [exact H3 | |].
    - unfold s2, s1, s0. rewrite !updateTimer_timers_other by lia.
      reflexivity.
    - unfold s2, s1, s0. rewrite !updateTimer_courtSettings. reflexivity. }
  destruct (updateTimer_quiet env now 3 s2 H3') as (A3 & L3 & U3 & S3).
  fold s3 in A3, L3, U3, S3.
  (* what courts 0 and 1 leave *)
  assert (S0 : serial s0 = SerTimeUp 0 :: serial s).
  { rewrite E0. simpl. autorewrite with frame. reflexivity. }
  assert (A0 : exists a0, active a0 = true /\
            alarmStates s0 = <[0%nat := a0]> (alarmStates s)).
  { rewrite E0. simpl. autorewrite with frame. simpl.
    eexists. split; [|reflexivity]. reflexivity. }
  assert (L0 : leds s0 = <[0%nat := true]> (leds s)).
  { rewrite E0. simpl. rewrite triggerAlarm_leds by lia. reflexivity. }
  assert (T0 : timers s0 !! 0%nat
            = Some (timer_latch_alarm (timer_tick now (timer_of s 0)))).
  { rewrite E0. simpl. autorewrite with frame. simpl.
    rewrite !list_lookup_alter_eq. unfold timer_of.
    destruct (lookup_lt_is_Some_2 (timers s) 0) as [t0 ->]; [lia|].
    reflexivity. }
  assert (S1 : serial s1 = SerTimeUp 1 :: serial s0).
  { rewrite E1. simpl. autorewrite with frame. reflexivity. }
  assert (A1 : exists a1, active a1 = true /\
            alarmStates s1 = <[1%nat := a1]> (alarmStates s0)).
  { rewrite E1. simpl. autorewrite with frame. simpl.
    eexists. split; [|reflexivity]. reflexivity. }
  assert (L1 : leds s1 = <[1%nat := true]> (leds s0)).
  { rewrite E1. simpl. rewrite triggerAlarm_leds by lia. reflexivity. }
  assert (T1 : timers s1 !! 1%nat
            = Some (timer_latch_alarm (timer_tick now (timer_of s0 1)))).
  { rewrite E1. simpl. autorewrite with frame. simpl.
    rewrite !list_lookup_alter_eq. unfold timer_of.
    destruct (lookup_lt_is_Some_2 (timers s0) 1) as [t1 ->]; [lia|].
    reflexivity. }
  assert (U1 : audio s1 = channel_after env s 1 false).
  { rewrite E1. simpl. rewrite triggerAlarm_audio.
    - apply channel_after_same; simpl; unfold s0.
      + apply updateTimer_config.
      + apply updateTimer_sdCardAvailable.
      + apply updateTimer_littleFSAvailable.
    - simpl. unfold s0. rewrite updateTimer_audioSystemReady. exact Hr. }
  (* what the pass leaves *)
  assert (Eown : owner s3 = owner_after env s 1 false).
  { apply owner_channel_after. rewrite U3, U2. exact U1. }
  assert (Et0 : timers s3 !! 0%nat = timers s0 !! 0%nat).
  { unfold s3, s2, s1. rewrite !updateTimer_timers_other by lia.
    reflexivity. }
  assert (Et1 : timers s3 !! 1%nat = timers s1 !! 1%nat).
  { unfold s3, s2. rewrite !updateTimer_timers_other by lia. reflexivity. }
  destruct A0 as (a0 & Ha0 & A0). destruct A1 as (a1 & Ha1 & A1).
  split; [rewrite S3, S2, S1, S0; reflexivity|].
  split; [rewrite U3, U2; exact U1|]. split; [exact Eown|].
  split.
  { rewrite Eown.
    destruct (owner_after_cases env s 1 false) as [-> | ->]; congruence. }
  unfold alarm_of, led_of, timer_of.
  rewrite A3, A2, A1, A0, L3, L2, L1, L0, Et0, Et1, T0, T1.
  rewrite list_lookup_insert_ne by lia.
  rewrite !list_lookup_insert_eq by (rewrite ?length_insert; lia).
  rewrite list_lookup_insert_ne by lia.
  rewrite !list_lookup_insert_eq by (rewrite ?length_insert; lia).
  simpl. repeat split; assumption.
Qed.

(** ** LED and alarm state *)

Section LedInvariant.
Variable env : Storage.

Lemma led_inv_same s s' :
  leds s' = leds s -> alarmStates s' = alarmStates s ->
  led_inv s -> led_inv s'.
Proof. unfold led_inv, led_of, alarm_of. intros -> ->. auto. Qed.

Lemma led_inv_setup sd lfs cfg prefs : led_inv (setup sd lfs cfg prefs).
Proof.
  intros c Hc. unfold led_of, alarm_of, setup, courts. simpl.
  destruct c as [|[|[|[|c]]]]; reflexivity.
Qed.

Lemma led_inv_updateTimer now i s :
  wf s -> led_inv s -> led_inv (updateTimer env now i s).
Proof.
  intros (Ht & _ & Ha & Hl) Hs c Hc. specialize (Hs c Hc).
  unfold led_of, alarm_of in *.
  destruct (decide (i = c)) as [->|Hne].
  - unfold updateTimer.
    destruct (timers s !! c) as [t|]; [|exact Hs].
    destruct (courtSettings s !! c) as [cs|]; [|exact Hs].
    destruct (negb (running t) || paused t); [exact Hs|].
    destruct (warning_due now t cs); destruct (timeup_due now t);
      cbn zeta; simpl; repeat (progress (autorewrite with frame; simpl));
      rewrite ?triggerAlarm_leds by exact Hc; simpl;
      rewrite ?triggerAlarm_leds by exact Hc; simpl;
      try exact Hs;
      rewrite !list_lookup_insert_eq by (rewrite ?length_insert; lia);
      reflexivity.
  - rewrite updateTimer_leds_other, updateTimer_alarmStates_other by exact Hne.
    exact Hs.
Qed.

Lemma led_inv_updateAlarm now i s :
  wf s -> led_inv s -> led_inv (updateAlarm env now i s).
Proof.
  intros (Ht & _ & Ha & Hl) Hs c Hc. specialize (Hs c Hc).
  unfold led_of, alarm_of in *.
  destruct (decide (i = c)) as [->|Hne].
  - unfold updateAlarm.
    destruct (alarmStates s !! c) as [a|] eqn:Hla; [|rewrite Hla; exact Hs].
    destruct (courtSettings s !! c) as [cs|]; [|rewrite Hla; exact Hs].
    destruct (negb (active a)); [rewrite Hla; exact Hs|].
    cbn zeta. destruct (_ <=? _); [|rewrite Hla; exact Hs].
    destruct (looping a && loopAlarm cs); simpl.
    + autorewrite with frame. simpl.
      rewrite list_lookup_alter_eq, Hla. exact Hs.
    + unfold deactivateLED. apply Nat.ltb_lt in Hc as Hc'. rewrite Hc'. simpl.
      rewrite list_lookup_alter_eq, Hla.
      rewrite list_lookup_insert_eq by lia. reflexivity.
  - rewrite updateAlarm_leds_other, updateAlarm_alarmStates_other by exact Hne.
    exact Hs.
Qed.

(** Every operation but Stop keeps each LED equal to the [active] flag of
    its court. *)
Lemma led_inv_exec op s :
  is_stop op = false -> wf s -> led_inv s -> led_inv (exec env op s).
Proof.
  intros Hop Hwf Hs.
  destruct op as [now b|now b|b|b|b|b|c|now|now|r l]; simpl;
    try discriminate.
  - destruct b as [| |a]; simpl; auto.
    destruct (invalidCourt (st_courtId a)); exact Hs.
  - destruct b as [| |a]; simpl; auto.
    destruct (invalidCourt a); exact Hs.
  - destruct b as [| |a]; simpl; auto.
    destruct (invalidCourt (se_courtId a)); exact Hs.
  - destruct b as [| |[oa ow]]; simpl; auto.
    destruct (_ || _); simpl; auto. destruct (_ || _); exact Hs.
  - destruct b as [| |a]; exact Hs.
  - destruct c as [d|d|]; simpl; auto; destruct (_ && _); exact Hs.
  - unfold updateTimers.
    apply (pass_preserves (fun s => wf s /\ led_inv s)); [|auto].
    intros i s' (Hwf' & Hs'). split.
    + apply wf_updateTimer. exact Hwf'.
    + apply led_inv_updateTimer; assumption.
  - unfold updateAlarms.
    apply (pass_preserves (fun s => wf s /\ led_inv s)); [|auto].
    intros i s' (Hwf' & Hs'). split.
    + apply wf_updateAlarm. exact Hwf'.
    + apply led_inv_updateAlarm; assumption.
  - unfold updateAudioPlayback.
    destruct (_ && _); auto. destruct r; [destruct l|]; exact Hs.
Qed.

End LedInvariant.

(** ** Concrete runs *)

Lemma reachable_run env ops s : reachable env s -> reachable env (run env ops s).
Proof.
  unfold run. revert s. induction ops as [|op ops IH]; intros s Hs; simpl.
  - exact Hs.
  - apply IH. apply reach_step. exact Hs.
Qed.

Lemma reachable_boot env : reachable env boot.
Proof. unfold boot. apply reach_setup. Qed.

(** *** Stop *)

(** C1 as the specification states it does not hold.  Courts 0 and 1 both
    have an active alarm and the channel renders the clip of court 1;
    Stop(0) leaves the channel idle, so the playback of court 1 is not
    unaffected. *)
Lemma stop_silences_other_court :
  active (alarm_of two_alarms 0) = true /\
  active (alarm_of two_alarms 1) = true /\
  owner two_alarms = Some 1%nat /\
  owner (snd (handleStop (Parsed 0) two_alarms)) <> owner two_alarms.
Proof. repeat split; try reflexivity. vm_compute. discriminate. Qed.

Lemma handleStop_clears_channel_witness :
  wf two_alarms /\ (0 < 4)%nat /\
  owner (snd (handleStop (Parsed 0) two_alarms)) = None /\
  alarm_of (snd (handleStop (Parsed 0) two_alarms)) 1 = alarm_of two_alarms 1.
Proof.
  assert (Hwf : wf two_alarms) by (repeat split; reflexivity).
  assert (Hc : (0 < 4)%nat) by lia.
  split; [exact Hwf|]. split; [exact Hc|].
  pose proof (handleStop_clears_channel 0 two_alarms Hwf Hc) as H.
  destruct H as (_ & _ & _ & Hown & _ & _ & _ & Hoth).
  split; [exact Hown|].
  destruct (Hoth 1%nat) as (Hal & _); [lia | exact Hal].
Defined.

(** C5 on the code.  [handleStop] never writes [alarmStates].  Court 0 has
    an active warning alarm and its LED is on; after Stop(0) the LED is off
    while [alarmStates[0].active] is still true, so the LED no longer shows
    the [active] flag.  ([updateAlarms] clears [active] next to the same
    [deactivateLED] and [stopAudio] calls; [handleStop] does not.) *)
Theorem stop_leaves_alarm_active :
  (forall b s, alarmStates (snd (handleStop b s)) = alarmStates s) /\
  led_of (one_alarm sd_full) 0 = true /\
  active (alarm_of (one_alarm sd_full) 0) = true /\
  led_of (snd (handleStop (Parsed 0) (one_alarm sd_full))) 0 = false /\
  active (alarm_of (snd (handleStop (Parsed 0) (one_alarm sd_full))) 0) = true /\
  ~ led_inv (snd (handleStop (Parsed 0) (one_alarm sd_full))).
Proof.
  split; [exact handleStop_alarmStates|].
  repeat split; try reflexivity.
  intros H. specialize (H 0%nat). vm_compute in H.
  assert (Hc : (0 < 4)%nat) by lia.
  specialize (H Hc). discriminate.
Qed.

(** *** End of an alarm window *)

(** C3 as the specification states it does not hold.  The warning alarm of
    court 0 (not looping) runs out at clock 8010 while the channel renders
    the clip of court 1, whose own window is still open; the pass stops the
    channel all the same. *)
Lemma expiry_silences_other_court :
  active (alarm_of two_alarms 0) = true /\
  loopAlarm (settings_of two_alarms 0) = false /\
  owner two_alarms = Some 1%nat /\
  active (alarm_of (updateAlarms sd_full 8010 two_alarms) 1) = true /\
  owner (updateAlarms sd_full 8010 two_alarms) <> Some 1%nat.
Proof. repeat split; try reflexivity. vm_compute. discriminate. Qed.

Lemma alarm_window_elapsed_witness :
  wf two_alarms /\ (0 < 4)%nat /\
  active (alarm_of two_alarms 0) = true /\
  loopAlarm (settings_of two_alarms 0) = false /\
  wrap32 (a_duration (alarm_of two_alarms 0))
    <= wrap32 (8010 - a_startTime (alarm_of two_alarms 0)) /\
  owner two_alarms = Some 1%nat /\
  owner (updateAlarm sd_full 8010 0 two_alarms) = None /\
  active (alarm_of (updateAlarms sd_full 8010 two_alarms) 0) = false.
Proof.
  assert (Hwf : wf two_alarms) by (repeat split; reflexivity).
  assert (Hc : (0 < 4)%nat) by lia.
  assert (Hel : wrap32 (a_duration (alarm_of two_alarms 0))
                <= wrap32 (8010 - a_startTime (alarm_of two_alarms 0))).
  { apply Z.leb_le. reflexivity. }
  split; [exact Hwf|]. split; [exact Hc|]. split; [reflexivity|].
  split; [reflexivity|]. split; [exact Hel|]. split; [reflexivity|].
  pose proof (alarm_window_elapsed sd_full 8010 0 two_alarms Hwf Hc
                eq_refl eq_refl Hel) as H.
  destruct H as (_ & _ & _ & Hown & Hact & _).
  split; [exact Hown | exact Hact].
Defined.

(** *** Preemption *)

(** C2 as the specification states it does not hold.  The SD card holds
    [warning1.wav], the warning clip of court 0, and nothing else.  That
    clip is playing when the warning alarm of court 1 is triggered: it is
    stopped, but nothing opens for court 1 and the channel does not pass
    to it. *)
Lemma trigger_without_clip :
  owner (one_alarm sd_one_clip) = Some 0%nat /\
  owner (triggerAlarm sd_one_clip 20 1 8 true (one_alarm sd_one_clip))
    <> Some 1%nat.
Proof. split; [reflexivity|]. vm_compute. discriminate. Qed.

Lemma trigger_preempts_witness :
  reachable sd_full (one_alarm sd_full) /\ (0 < 4)%nat /\ (1 < 4)%nat /\
  owner (one_alarm sd_full) = Some 0%nat /\
  led_of (one_alarm sd_full) 0 = true /\
  active (alarm_of (one_alarm sd_full) 0) = true /\
  owner (triggerAlarm sd_full 20 1 8 true (one_alarm sd_full)) = Some 1%nat /\
  led_of (triggerAlarm sd_full 20 1 8 true (one_alarm sd_full)) 0 = true.
Proof.
  assert (Hreach : reachable sd_full (one_alarm sd_full)).
  { unfold one_alarm. apply reachable_run. apply reachable_boot. }
  assert (H0 : (0 < 4)%nat) by lia.
  assert (H1 : (1 < 4)%nat) by lia.
  split; [exact Hreach|]. split; [exact H0|]. split; [exact H1|].
  split; [reflexivity|]. split; [reflexivity|]. split; [reflexivity|].
  pose proof (trigger_preempts sd_full (one_alarm sd_full) 20 0 1 8 true
                Hreach H0 H1 eq_refl eq_refl eq_refl) as H.
  destruct H as (_ & _ & _ & Hown & _ & Hled & _).
  split; [rewrite Hown; reflexivity | exact Hled].
Defined.

(** *** Two expiries on one pass *)

(** C4 as the specification states it does not hold.  Courts 0 and 1 reach
    expiry on the pass at clock 59500; the selected SD card holds no audio
    file, so after the pass the channel is idle, not owned by court 1. *)
Lemma same_pass_without_clip :
  expires 59500 (two_timers sd_blank) 0 = true /\
  expires 59500 (two_timers sd_blank) 1 = true /\
  owner (updateTimers sd_blank 59500 (two_timers sd_blank)) <> Some 1%nat.
Proof. repeat split; try reflexivity. vm_compute. discriminate. Qed.

Lemma same_pass_expiry_witness :
  wf (two_timers sd_full) /\
  audioSystemReady (two_timers sd_full) = true /\
  expires 59500 (two_timers sd_full) 0 = true /\
  expires 59500 (two_timers sd_full) 1 = true /\
  fires 59500 (two_timers sd_full) 2 = false /\
  fires 59500 (two_timers sd_full) 3 = false /\
  owner (updateTimers sd_full 59500 (two_timers sd_full)) = Some 1%nat /\
  led_of (updateTimers sd_full 59500 (two_timers sd_full)) 0 = true.
Proof.
  assert (Hwf : wf (two_timers sd_full)) by (repeat split; reflexivity).
  split; [exact Hwf|]. split; [reflexivity|]. split; [reflexivity|].
  split; [reflexivity|]. split; [reflexivity|]. split; [reflexivity|].
  pose proof (same_pass_expiry sd_full 59500 (two_timers sd_full) Hwf
                eq_refl eq_refl eq_refl eq_refl eq_refl) as H.
  destruct H as (_ & _ & Hown & _ & _ & Hled & _).
  split; [rewrite Hown; reflexivity | exact Hled].
Defined.

(** *** Start *)

(** C6 as the specification states it does not hold.  A Start request with
    duration 0, and one with a negative duration, is accepted: the answer
    is 200 and the timer of the court is running afterwards. *)
Lemma start_accepts_nonpositive_duration :
  code (fst (handleStart 0 (start_court 0 0) boot)) = 200 /\
  running (timer_of (snd (handleStart 0 (start_court 0 0) boot)) 0) = true /\
  snd (handleStart 0 (start_court 0 0) boot) <> boot /\
  code (fst (handleStart 0 (start_court 0 (-5)) boot)) = 200 /\
  running (timer_of (snd (handleStart 0 (start_court 0 (-5)) boot)) 0) = true.
Proof. repeat split; try reflexivity. vm_compute. discriminate. Qed.

Lemma handleStart_checks_court_only_witness :
  invalidCourt 7 = true /\ wf boot /\ (2 < 4)%nat /\
  handleStart 5 (start_court 7 30) boot
    = (reply 400 "Invalid court ID", boot) /\
  running (timer_of (snd (handleStart 5 (start_court 2 30) boot)) 2) = true /\
  duration (timer_of (snd (handleStart 5 (start_court 2 30) boot)) 2)
    = 1800000.
Proof.
  assert (Hwf : wf boot) by (repeat split; reflexivity).
  assert (Hc : (2 < 4)%nat) by lia.
  split; [reflexivity|]. split; [exact Hwf|]. split; [exact Hc|].
  split.
  - pose proof (handleStart_checks_court_only 5 (start_args 7 30) boot) as H.
    destruct H as (_ & _ & Hinv & _). apply Hinv. reflexivity.
  - pose proof (handleStart_checks_court_only 5 (start_args 2 30) boot) as H.
    destruct H as (_ & _ & _ & Hok).
    destruct (Hok 2%nat Hwf Hc eq_refl) as (_ & Hr & _ & _ & Hd & _).
    split; [exact Hr | exact (eq_trans Hd eq_refl)].
Defined.

(** *** Remaining time *)

(** Up to the deadline the remaining time only goes down. *)
Lemma remaining_at_antitone now1 now2 t :
  elapsed_at now1 t <= elapsed_at now2 t -> elapsed_at now2 t <= duration t ->
  duration t < 2 ^ 32 ->
  remaining_at now2 t <= remaining_at now1 t.
Proof.
  intros H12 H2 Hd. rewrite !remaining_at_unfold.
  pose proof (wrap32_range (now1 - startTime t)) as R1.
  fold (elapsed_at now1 t) in R1.
  rewrite !wrap32_small by lia.
  apply Z.div_le_mono; lia.
Qed.

(** Past the deadline the [unsigned long] subtraction wraps: the value the
    pass stores is not 0 but close to 2^32 / 1000. *)
Lemma remaining_at_past_deadline now t :
  0 <= duration t -> duration t < elapsed_at now t ->
  remaining_at now t = (2 ^ 32 - (elapsed_at now t - duration t)) / 1000.
Proof.
  intros Hd He. rewrite remaining_at_unfold.
  pose proof (wrap32_range (now - startTime t)) as R.
  fold (elapsed_at now t) in R.
  f_equal. unfold wrap32.
  rewrite <- (Z.mod_add _ 1) by lia.
  rewrite Z.mod_small; lia.
Qed.

(** C9 on the code.  Court 0 runs for one minute from clock 0 and is not
    paused.  The pass at clock 59000 stores a remaining time of 1 second;
    the next pass comes at clock 60001, and stores 4294967 seconds: the
    remaining time has gone up, no expiry is raised and the timer keeps
    running.  The clamp [if (remaining < 0) remaining = 0] never fires:
    the difference is computed in [unsigned long], so the value of
    [remaining] is always the wrapped difference divided by 1000. *)
Theorem remaining_jumps_past_deadline :
  (forall now t,
     remaining_at now t = wrap32 (duration t - elapsed_at now t) / 1000) /\
  running (timer_of near_deadline 0) = true /\
  paused (timer_of near_deadline 0) = false /\
  remainingTime (timer_of near_deadline 0) = 1 /\
  remainingTime (timer_of (updateTimers sd_full 60001 near_deadline) 0)
    = 4294967 /\
  running (timer_of (updateTimers sd_full 60001 near_deadline) 0) = true /\
  timeups_fired 0 (updateTimers sd_full 60001 near_deadline) = 0%nat.
Proof.
  split; [exact remaining_at_unfold|].
  repeat split; reflexivity.
Qed.

(** *** Witnesses of the general statements *)

Lemma latches_fire_once_witness :
  wf boot /\ (0 < 4)%nat /\
  Forall (fun op => restarts 0 op = false) many_passes /\
  st_courtId (start_args 0 1) = Z.of_nat 0 /\
  (warnings_fired 0 (run sd_full many_passes started0) <= 1)%nat /\
  (timeups_fired 0 (run sd_full many_passes started0) <= 1)%nat.
Proof.
  assert (Hwf : wf boot) by (repeat split; reflexivity).
  assert (Hc : (0 < 4)%nat) by lia.
  assert (Hops : Forall (fun op => restarts 0 op = false) many_passes).
  { unfold many_passes. repeat constructor. }
  split; [exact Hwf|]. split; [exact Hc|]. split; [exact Hops|].
  split; [reflexivity|].
  pose proof (latches_fire_once sd_full 0 many_passes boot 0 (start_args 0 1)
                Hwf Hc Hops eq_refl) as H.
  destruct H as (_ & _ & _ & _ & Hw & He & _).
  split; [exact Hw | exact He].
Defined.

Lemma pause_resume_keeps_remaining_witness :
  reachable sd_full started0 /\ (0 < 4)%nat /\
  Forall (fun op => is_pass op = true) some_passes /\
  running (timer_of started0 0) = true /\
  paused (timer_of started0 0) = false /\
  remaining_at 20000
    (timer_of
       (snd (handlePause 9000 (Parsed 0)
               (run sd_full some_passes
                  (snd (handlePause 5000 (Parsed 0) started0))))) 0)
  = remaining_at 16000 (timer_of started0 0) /\
  running (timer_of boot 0) = false /\
  handlePause 7 (Parsed 0) boot = (reply 200 "Timer toggled", boot).
Proof.
  assert (Hreach : reachable sd_full started0).
  { unfold started0. apply reach_step. apply reachable_boot. }
  assert (Hc : (0 < 4)%nat) by lia.
  assert (Hops : Forall (fun op => is_pass op = true) some_passes).
  { unfold some_passes. repeat constructor. }
  split; [exact Hreach|]. split; [exact Hc|]. split; [exact Hops|].
  split; [reflexivity|]. split; [reflexivity|].
  split.
  - pose proof (pause_resume_keeps_remaining sd_full started0 0 5000 9000
                  some_passes Hreach Hc Hops) as H.
    destruct H as (H & _).
    destruct (H eq_refl eq_refl) as (_ & _ & _ & _ & _ & _ & Hrem & _).
    exact (Hrem 20000).
  - split; [reflexivity|].
    pose proof (pause_resume_keeps_remaining sd_full boot 0 5000 9000
                  some_passes (reachable_boot sd_full) Hc Hops) as H.
    destruct H as (_ & H). exact (H eq_refl 7).
Defined.

Lemma playAudio_sd_only_witness :
  audioSystemReady boot = true /\
  useSDCard (config boot) && sdCardAvailable boot = true /\
  opens sd_blank SDcard (audioFile 0 false) = false /\
  opens sd_blank SDcard (defaultAudioFile false) = false /\
  audio (playAudio sd_blank 0 false boot) = idle_audio /\
  playAudio sd_full 0 false boot
  = playAudio {| sd_exists := fun _ => true; lfs_exists := fun _ => true;
                 wav_begin := fun b _ =>
                   match b with SDcard => true | LittleFS => false end |}
      0 false boot.
Proof.
  split; [reflexivity|]. split; [reflexivity|]. split; [reflexivity|].
  split; [reflexivity|].
  split.
  - pose proof (playAudio_sd_only sd_blank sd_blank 0 false boot
                  eq_refl eq_refl) as H.
    destruct H as (_ & _ & _ & _ & H).
    destruct (H eq_refl eq_refl) as (Hidle & _). exact Hidle.
  - pose proof (playAudio_sd_only
                  {| sd_exists := fun _ => true; lfs_exists := fun _ => true;
                     wav_begin := fun b _ =>
                       match b with SDcard => true | LittleFS => false end |}
                  sd_full 0 false boot eq_refl eq_refl) as H.
    destruct H as (H & _). apply H; reflexivity.
Defined.

(** * Further properties of the code *)

(** ** Alarm and warning durations *)

Section Durations.
Variable env : Storage.

Lemma updateTimers_config now l s :
  config (fold_left (fun s i => updateTimer env now i s) l s) = config s.
Proof.
  revert s. induction l as [|i l IH]; intros s; simpl; [reflexivity|].
  rewrite IH. apply updateTimer_config.
Qed.

Lemma updateAlarms_config now l s :
  config (fold_left (fun s i => updateAlarm env now i s) l s) = config s.
Proof.
  revert s. induction l as [|i l IH]; intros s; simpl; [reflexivity|].
  rewrite IH. apply updateAlarm_config.
Qed.

Lemma config_ok_exec op s :
  config_ok (config s) -> config_ok (config (exec env op s)).
Proof.
  intros Hs. destruct op as [now b|now b|b|b|b|b|c|now|now|r l]; simpl.
  - destruct b as [| |a]; simpl; auto.
    destruct (invalidCourt (st_courtId a)); exact Hs.
  - destruct b as [| |a]; simpl; auto.
    destruct (invalidCourt a); exact Hs.
  - destruct b as [| |a]; simpl; auto.
    destruct (invalidCourt a); simpl; auto.
    unfold deactivateLED. destruct (Z.to_nat a <? 4)%nat; exact Hs.
  - destruct b as [| |a]; simpl; auto.
    destruct (invalidCourt (se_courtId a)); exact Hs.
  - destruct b as [| |[oa ow]]; simpl; auto.
    set (a' := default (alarmDuration (config s)) oa).
    set (w' := default (warningDuration (config s)) ow).
    destruct ((a' <? 1) || (60 <? a')) eqn:Ha; [exact Hs|].
    destruct ((w' <? 1) || (30 <? w')) eqn:Hw; [exact Hs|].
    apply orb_false_iff in Ha as [Ha1 Ha2].
    apply orb_false_iff in Hw as [Hw1 Hw2].
    unfold config_ok. simpl. lia.
  - destruct b as [| |a]; simpl; auto.
  - destruct c as [d|d|]; simpl; auto;
      destruct (_ && _) eqn:Hd; simpl; auto;
      apply andb_true_iff in Hd as [Hd1 Hd2];
      destruct Hs as [Ha Hw]; unfold config_ok; simpl; lia.
  - unfold updateTimers. rewrite updateTimers_config. exact Hs.
  - unfold updateAlarms. rewrite updateAlarms_config. exact Hs.
  - unfold updateAudioPlayback.
    destruct (_ && _); auto. destruct r; [destruct l|]; exact Hs.
Qed.

Lemma new_alarm_window d :
  1 <= d <= 60 ->
  to_int (wrap32 (d * 1000)) = d * 1000.
Proof.
  intros Hd. rewrite wrap32_small by lia. apply to_int_small. lia.
Qed.

Lemma alarms_ok_insert now d w i lf s s' :
  1 <= d <= 60 -> (w = true -> d <= 30) ->
  alarmStates s' = <[i := new_alarm now d w i lf]> (alarmStates s) ->
  alarms_ok s -> alarms_ok s'.
Proof.
  intros Hd Hw E Hs c a. rewrite E.
  destruct (decide (i = c)) as [->|Hne].
  - intros Hl. apply list_lookup_insert_Some in Hl as [(_ & <- & _)|(Hne & _)];
      [|congruence].
    intros _. simpl. rewrite new_alarm_window by exact Hd.
    split; [lia|]. intros Hw'. specialize (Hw Hw'). lia.
  - rewrite list_lookup_insert_ne by exact Hne. apply Hs.
Qed.

Lemma alarms_ok_same s s' :
  alarmStates s' = alarmStates s -> alarms_ok s -> alarms_ok s'.
Proof. unfold alarms_ok. intros ->. auto. Qed.

Lemma alarms_ok_alter (f : AlarmState -> AlarmState) i s s' :
  (forall a, active (f a) = true -> active a = true) ->
  (forall a, a_duration (f a) = a_duration a) ->
  (forall a, isWarning (f a) = isWarning a) ->
  alarmStates s' = alter f i (alarmStates s) ->
  alarms_ok s -> alarms_ok s'.
Proof.
  intros Hact Hdur Hw E Hs c a. rewrite E, list_lookup_alter.
  case_decide as Hic; [subst c|apply Hs].
  destruct (alarmStates s !! i) as [a0|] eqn:Ha0; simpl; [|discriminate].
  intros [= <-] Ha. rewrite Hdur, Hw. apply (Hs i a0 Ha0). apply Hact. exact Ha.
Qed.

Lemma alarms_ok_updateTimer now i s :
  config_ok (config s) -> alarms_ok s -> alarms_ok (updateTimer env now i s).
Proof.
  intros ((Ha1 & Ha2) & (Hw1 & Hw2)) Hs. unfold updateTimer.
  destruct (timers s !! i) as [t|]; [|exact Hs].
  destruct (courtSettings s !! i) as [cs|] eqn:Hcs; [|exact Hs].
  destruct (negb (running t) || paused t); [exact Hs|].
  cbn zeta.
  destruct (warning_due now t cs) eqn:Hw.
  - rewrite (warning_timeup_exclusive now t cs Hw).
    eapply (alarms_ok_insert now (warningDuration (config s)) true i);
      [lia | intros _; lia | | exact Hs].
    simpl. autorewrite with frame. reflexivity.
  - destruct (timeup_due now t).
    + eapply (alarms_ok_insert now (alarmDuration (config s)) false i);
        [lia | discriminate | | exact Hs].
      simpl. autorewrite with frame. reflexivity.
    + exact Hs.
Qed.

Lemma alarms_ok_updateAlarm now i s :
  alarms_ok s -> alarms_ok (updateAlarm env now i s).
Proof.
  intros Hs. unfold updateAlarm.
  destruct (alarmStates s !! i) as [a|]; [|exact Hs].
  destruct (courtSettings s !! i) as [cs|]; [|exact Hs].
  destruct (negb (active a)); [exact Hs|]. cbn zeta.
  destruct (_ <=? _); [|exact Hs].
  destruct (looping a && loopAlarm cs).
  - eapply (alarms_ok_alter (alarm_restart now) i s); try exact Hs;
      try (intros; reflexivity); [intros a0 H; exact H|].
    simpl. autorewrite with frame. reflexivity.
  - eapply (alarms_ok_alter alarm_deactivate i s); try exact Hs;
      try (intros; reflexivity); [intros a0 H; discriminate|].
    unfold deactivateLED. destruct (i <? 4)%nat; reflexivity.
Qed.

Lemma durations_exec op s :
  config_ok (config s) /\ alarms_ok s ->
  config_ok (config (exec env op s)) /\ alarms_ok (exec env op s).
Proof.
  intros (Hc & Hs). split; [apply config_ok_exec; exact Hc|].
  destruct op as [now b|now b|b|b|b|b|c|now|now|r l]; simpl.
  - destruct b as [| |a]; simpl; auto.
    destruct (invalidCourt (st_courtId a)); exact Hs.
  - destruct b as [| |a]; simpl; auto.
    destruct (invalidCourt a); exact Hs.
  - destruct b as [| |a]; simpl; auto.
    destruct (invalidCourt a); simpl; auto.
    apply (alarms_ok_same s); [|exact Hs].
    unfold deactivateLED. destruct (Z.to_nat a <? 4)%nat; reflexivity.
  - destruct b as [| |a]; simpl; auto.
    destruct (invalidCourt (se_courtId a)); exact Hs.
  - destruct b as [| |[oa ow]]; simpl; auto.
    destruct (_ || _); simpl; auto. destruct (_ || _); exact Hs.
  - destruct b as [| |a]; exact Hs.
  - destruct c as [d|d|]; simpl; auto; destruct (_ && _); exact Hs.
  - unfold updateTimers.
    apply (pass_preserves (fun s => config_ok (config s) /\ alarms_ok s));
      [|auto].
    intros i s' (Hc' & Hs'). split.
    + rewrite updateTimer_config. exact Hc'.
    + apply alarms_ok_updateTimer; assumption.
  - unfold updateAlarms.
    apply (pass_preserves alarms_ok); [|exact Hs].
    intros i s' Hs'. apply alarms_ok_updateAlarm. exact Hs'.
  - unfold updateAudioPlayback.
    destruct (_ && _); auto. destruct r; [destruct l|]; exact Hs.
Qed.

Lemma durations_run ops s :
  config_ok (config s) /\ alarms_ok s ->
  config_ok (config (run env ops s)) /\ alarms_ok (run env ops s).
Proof.
  unfold run. revert s. induction ops as [|op ops IH]; intros s Hs; simpl.
  - exact Hs.
  - apply IH. apply durations_exec. exact Hs.
Qed.

End Durations.

Lemma alarms_ok_setup sd lfs cfg prefs : alarms_ok (setup sd lfs cfg prefs).
Proof.
  intros c a. unfold setup, courts. simpl.
  destruct c as [|[|[|[|c]]]]; simpl; try discriminate;
    intros [= <-]; discriminate.
Qed.

(** X1.  The alarm and warning durations, once within 1..60 and 1..30
    seconds, stay there: no request, serial command or update pass takes
    them out of range. *)
Theorem durations_stay_in_range (env : Storage) (ops : list Op) (s : State) :
  config_ok (config s) -> config_ok (config (run env ops s)).
Proof.
  intros Hc. revert s Hc. unfold run.
  induction ops as [|op ops IH]; intros s Hc; simpl.
  - exact Hc.
  - apply IH. apply config_ok_exec. exact Hc.
Qed.

Lemma durations_stay_in_range_witness :
  config_ok (config boot) /\
  config_ok (config (run sd_full
    [OSetDuration (Parsed (Some 61, None)); OSerial (CmdWarning 0);
     OSetDuration (Parsed (Some 20, Some 30)); OTimers 5] boot)).
Proof.
  assert (H : config_ok (config boot)) by (unfold config_ok; simpl; lia).
  split; [exact H|]. apply durations_stay_in_range. exact H.
Defined.

(** X2.  Started from durations in range, every alarm that is active has a
    window of at least 1 second and at most 60 seconds, and a warning
    alarm of at most 30 seconds, whatever sequence of requests, serial
    commands and update passes has run. *)
Theorem alarm_windows_bounded (env : Storage) (ops : list Op) (s : State)
    (c : nat) :
  config_ok (config s) -> alarms_ok s ->
  active (alarm_of (run env ops s) c) = true ->
  1000 <= a_duration (alarm_of (run env ops s) c) <= 60000 /\
  (isWarning (alarm_of (run env ops s) c) = true ->
   a_duration (alarm_of (run env ops s) c) <= 30000).
Proof.
  intros Hc Hs. destruct (durations_run env ops s (conj Hc Hs)) as (_ & Hok).
  unfold alarm_of.
  destruct (alarmStates (run env ops s) !! c) as [a|] eqn:Ha; simpl.
  - apply (Hok c a Ha).
  - discriminate.
Qed.

Lemma alarm_windows_bounded_witness :
  config_ok (config boot) /\ alarms_ok boot /\
  active (alarm_of (run sd_full [OStart 0 (start_court 0 1); OTimers 10] boot)
            0) = true /\
  a_duration (alarm_of (run sd_full [OStart 0 (start_court 0 1); OTimers 10]
                          boot) 0) <= 30000.
Proof.
  assert (H : config_ok (config boot)) by (unfold config_ok; simpl; lia).
  assert (H' : alarms_ok boot) by apply alarms_ok_setup.
  split; [exact H|]. split; [exact H'|]. split; [reflexivity|].
  destruct (alarm_windows_bounded sd_full
              [OStart 0 (start_court 0 1); OTimers 10] boot 0 H H' eq_refl)
    as (_ & Hw).
  apply Hw. reflexivity.
Defined.

(** ** Looping alarms *)

Section Looping.
Variable env : Storage.

(** The [if] branch of the alarm pass: the window has elapsed and the
    alarm loops. *)
Lemma updateAlarm_loop now i s a cs :
  alarmStates s !! i = Some a -> courtSettings s !! i = Some cs ->
  active a = true -> looping a && loopAlarm cs = true ->
  wrap32 (a_duration a) <= wrap32 (now - a_startTime a) ->
  updateAlarm env now i s =
  println (SerLoop i)
    (playAudio env i (isWarning a)
       (set_alarmStates s (alter (alarm_restart now) i (alarmStates s)))).
Proof.
  intros Ha Hcs Hact Hloop Hel. unfold updateAlarm.
  rewrite Ha, Hcs, Hact, Hloop. simpl.
  apply Z.leb_le in Hel. rewrite Hel. reflexivity.
Qed.

(** Inside its window an alarm is left alone. *)
Lemma updateAlarm_waits now i s :
  wrap32 (now - a_startTime (alarm_of s i))
    < wrap32 (a_duration (alarm_of s i)) ->
  updateAlarm env now i s = s.
Proof.
  unfold alarm_of, updateAlarm.
  destruct (alarmStates s !! i) as [a|]; [|reflexivity].
  destruct (courtSettings s !! i) as [cs|]; [|reflexivity]. simpl.
  intros H. destruct (negb (active a)); [reflexivity|].
  apply Z.leb_gt in H. rewrite H. reflexivity.
Qed.

(** The alarm pass acts on court [c] as its own step does, on a state
    whose slots for [c] are those the pass started from. *)
Lemma updateAlarms_at now c l s :
  NoDup l -> c ∈ l -> wf s ->
  exists s0,
    wf s0 /\ alarmStates s0 !! c = alarmStates s !! c /\
    leds s0 !! c = leds s !! c /\ courtSettings s0 = courtSettings s /\
    alarmStates (fold_left (fun s i => updateAlarm env now i s) l s) !! c
      = alarmStates (updateAlarm env now c s0) !! c /\
    leds (fold_left (fun s i => updateAlarm env now i s) l s) !! c
      = leds (updateAlarm env now c s0) !! c.
Proof.
  intros Hl. revert s. induction Hl as [|i l Hi Hl IH]; intros s Hin Hwf.
  - apply elem_of_nil in Hin. contradiction.
  - simpl. destruct (decide (i = c)) as [->|Hne].
    + exists s.
      destruct (updateAlarms_other env now c l (updateAlarm env now c s) Hi)
        as [E1 E2].
      repeat split; try assumption; try reflexivity; apply Hwf.
    + apply elem_of_cons in Hin as [Hin|Hin]; [congruence|].
      destruct (IH (updateAlarm env now i s) Hin (wf_updateAlarm env now i s Hwf))
        as (s0 & Hwf0 & Ea & El & Ecs & Fa & Fl).
      exists s0. split; [exact Hwf0|].
      rewrite updateAlarm_alarmStates_other in Ea by exact Hne.
      rewrite updateAlarm_leds_other in El by exact Hne.
      rewrite updateAlarm_courtSettings in Ecs.
      auto.
Qed.

Lemma updateAlarm_restarts now c s :
  wf s -> (c < 4)%nat ->
  active (alarm_of s c) = true ->
  looping (alarm_of s c) && loopAlarm (settings_of s c) = true ->
  wrap32 (a_duration (alarm_of s c))
    <= wrap32 (now - a_startTime (alarm_of s c)) ->
  alarmStates (updateAlarm env now c s) !! c
    = Some (alarm_restart now (alarm_of s c)) /\
  leds (updateAlarm env now c s) = leds s /\
  serial (updateAlarm env now c s) = SerLoop c :: serial s /\
  (audioSystemReady s = true ->
   audio (updateAlarm env now c s)
   = channel_after env s c (isWarning (alarm_of s c))).
Proof.
  intros (_ & Hcs & Ha & Hl) Hc.
  destruct (lookup_lt_is_Some_2 (alarmStates s) c) as [a Hla]; [lia|].
  destruct (lookup_lt_is_Some_2 (courtSettings s) c) as [cs Hlcs]; [lia|].
  unfold alarm_of, settings_of. rewrite Hla, Hlcs. simpl.
  intros Hact Hloop Hel.
  rewrite (updateAlarm_loop now c s a cs) by assumption.
  simpl. autorewrite with frame. simpl.
  rewrite list_lookup_alter_eq, Hla. simpl.
  repeat split.
  intros Hr. rewrite playAudio_ready by exact Hr. reflexivity.
Qed.

End Looping.


Section OutlivesWindow.
Variable env : Storage.

Lemma updateAlarms_window_end now c s :
  wf s -> (c < 4)%nat ->
  active (alarm_of s c) = true ->
  wrap32 (a_duration (alarm_of s c))
    <= wrap32 (now - a_startTime (alarm_of s c)) ->
  active (alarm_of (updateAlarms env now s) c)
    = looping (alarm_of s c) && loopAlarm (settings_of s c) /\
  led_of (updateAlarms env now s) c
    = (if looping (alarm_of s c) && loopAlarm (settings_of s c)
       then led_of s c else false).
Proof.
  intros Hwf Hc Hact Hel.
  assert (Hin : c ∈ courts).
  { unfold courts. rewrite !elem_of_cons. lia. }
  destruct (updateAlarms_at env now c courts s NoDup_courts Hin Hwf)
    as (s0 & Hwf0 & Ea0 & El0 & Ecs0 & Fa & Fl).
  assert (Eal : alarm_of s0 c = alarm_of s c)
    by (unfold alarm_of; rewrite Ea0; reflexivity).
  assert (Eset : settings_of s0 c = settings_of s c)
    by (unfold settings_of; rewrite Ecs0; reflexivity).
  unfold alarm_of at 1. unfold led_of at 1. unfold updateAlarms.
  rewrite Fa, Fl.
  destruct (looping (alarm_of s c) && loopAlarm (settings_of s c)) eqn:Hloop.
  - destruct (updateAlarm_restarts env now c s0 Hwf0 Hc) as (Ea1 & El1 & _);
      rewrite ?Eal, ?Eset; try assumption.
    rewrite Ea1, El1, El0. simpl. rewrite Eal.
    split; [exact Hact | reflexivity].
  - assert (Hl0 : is_Some (alarmStates s0 !! c)).
    { apply lookup_lt_is_Some_2. destruct Hwf0 as (_ & _ & H & _). lia. }
    assert (Hc0 : is_Some (courtSettings s0 !! c)).
    { apply lookup_lt_is_Some_2. destruct Hwf0 as (_ & H & _). lia. }
    destruct Hl0 as [a Hla]. destruct Hc0 as [cs Hlcs].
    assert (Ea : alarm_of s c = a)
      by (rewrite <- Eal; unfold alarm_of; rewrite Hla; reflexivity).
    assert (Ecs : settings_of s c = cs)
      by (rewrite <- Eset; unfold settings_of; rewrite Hlcs; reflexivity).
    rewrite (updateAlarm_expire env now c s0 a cs); try assumption;
      try (rewrite <- Ea; assumption);
      try (rewrite <- Ea, <- Ecs; assumption).
    unfold deactivateLED. apply Nat.ltb_lt in Hc as Hc'. rewrite Hc'. simpl.
    rewrite list_lookup_alter_eq, Hla.
    rewrite list_lookup_insert_eq by (destruct Hwf0 as (_ & _ & _ & H); lia).
    split; reflexivity.
Qed.

Lemma handleSettings_valid c v w lp s :
  (c < 4)%nat ->
  handleSettings (Parsed (settings_args (Z.of_nat c) v w lp)) s =
  (reply 200 "Settings saved",
   set_courtSettings s
     (<[c := {| volume := v; warningTime := w; loopAlarm := lp |}]>
        (courtSettings s))).
Proof.
  intros Hc. unfold handleSettings, invalidCourt. simpl.
  replace (Z.of_nat c <? 0) with false by (symmetry; apply Z.ltb_ge; lia).
  replace (4 <=? Z.of_nat c) with false by (symmetry; apply Z.leb_gt; lia).
  simpl. rewrite Nat2Z.id. reflexivity.
Qed.

End OutlivesWindow.

(** X4.  What happens to an active alarm at the end of its window is
    decided by two flags: the alarm goes on (active, LED as it is) exactly
    when looping was on when it was triggered and the [loopAlarm] setting
    of the court is on at the pass; otherwise it is deactivated and its LED
    turned off.  So a Settings request that turns [loopAlarm] off ends a
    looping alarm at its next window end, and one that turns it on after
    the trigger does not make the alarm loop. *)
Theorem alarm_outlives_window (env : Storage) (now : Z) (c : nat) (s : State)
    (v w : Z) (lp : bool) :
  wf s -> (c < 4)%nat ->
  active (alarm_of s c) = true ->
  wrap32 (a_duration (alarm_of s c))
    <= wrap32 (now - a_startTime (alarm_of s c)) ->
  let s' := snd (handleSettings (Parsed (settings_args (Z.of_nat c) v w lp)) s)
  in
  active (alarm_of (updateAlarms env now s) c)
    = looping (alarm_of s c) && loopAlarm (settings_of s c) /\
  led_of (updateAlarms env now s) c
    = (if looping (alarm_of s c) && loopAlarm (settings_of s c)
       then led_of s c else false) /\
  active (alarm_of (updateAlarms env now s') c)
    = looping (alarm_of s c) && lp.
Proof.
  intros Hwf Hc Hact Hel s'.
  destruct (updateAlarms_window_end env now c s Hwf Hc Hact Hel) as (H1 & H2).
  split; [exact H1|]. split; [exact H2|].
  unfold s'. rewrite handleSettings_valid by exact Hc. simpl.
  set (s2 := set_courtSettings s _).
  assert (Hwf2 : wf s2).
  { destruct Hwf as (Ht & Hcs & Ha & Hl). unfold wf, s2. simpl.
    rewrite length_insert. auto. }
  assert (Eal : alarm_of s2 c = alarm_of s c) by reflexivity.
  assert (Eset : loopAlarm (settings_of s2 c) = lp).
  { unfold settings_of, s2. simpl.
    rewrite list_lookup_insert_eq by (destruct Hwf as (_ & H & _); lia).
    reflexivity. }
  destruct (updateAlarms_window_end env now c s2 Hwf2 Hc) as (H3 & _);
    rewrite ?Eal; try assumption.
  rewrite H3, Eal, Eset. reflexivity.
Qed.

Lemma alarm_outlives_window_witness :
  wf looping_alarm /\ (0 < 4)%nat /\
  active (alarm_of looping_alarm 0) = true /\
  wrap32 (a_duration (alarm_of looping_alarm 0))
    <= wrap32 (8010 - a_startTime (alarm_of looping_alarm 0)) /\
  active (alarm_of (updateAlarms sd_full 8010 looping_alarm) 0) = true /\
  active (alarm_of
            (updateAlarms sd_full 8010
               (snd (handleSettings (Parsed (settings_args 0 70 5 false))
                       looping_alarm))) 0) = false.
Proof.
  assert (Hwf : wf looping_alarm) by (repeat split; reflexivity).
  assert (Hc : (0 < 4)%nat) by lia.
  assert (Hel : wrap32 (a_duration (alarm_of looping_alarm 0))
                <= wrap32 (8010 - a_startTime (alarm_of looping_alarm 0))).
  { apply Z.leb_le. reflexivity. }
  split; [exact Hwf|]. split; [exact Hc|]. split; [reflexivity|].
  split; [exact Hel|].
  destruct (alarm_outlives_window sd_full 8010 0 looping_alarm 70 5 false
              Hwf Hc eq_refl Hel) as (H1 & _ & H3).
  split; [exact H1 | exact H3].
Defined.


(** ** Stopped timers *)

Section Stopped.
Variable env : Storage.

Lemma timer_of_alter (f : Timer -> Timer) i c s s' :
  timers s' = alter f i (timers s) ->
  timer_of s' c
  = if decide (i = c)
    then match timers s !! c with Some t => f t | None => idle_timer end
    else timer_of s c.
Proof.
  intros E. unfold timer_of. rewrite E, list_lookup_alter.
  case_decide as Hic; [subst i|reflexivity].
  destruct (timers s !! c); reflexivity.
Qed.

Lemma fired_same c s s' :
  serial s' = serial s ->
  warnings_fired c s' = warnings_fired c s /\
  timeups_fired c s' = timeups_fired c s.
Proof. unfold warnings_fired, timeups_fired. intros ->. auto. Qed.

Lemma updateAlarms_fired now c l s :
  warnings_fired c (fold_left (fun s i => updateAlarm env now i s) l s)
    = warnings_fired c s /\
  timeups_fired c (fold_left (fun s i => updateAlarm env now i s) l s)
    = timeups_fired c s.
Proof.
  revert s. induction l as [|i l IH]; intros s; simpl; [auto|].
  destruct (IH (updateAlarm env now i s)) as [-> ->].
  unfold warnings_fired, timeups_fired.
  destruct (updateAlarm_serial env now i s) as [-> | ->]; simpl; auto.
Qed.

Lemma at_rest_updateTimers now c l s :
  at_rest c s ->
  at_rest c (fold_left (fun s i => updateTimer env now i s) l s) /\
  warnings_fired c (fold_left (fun s i => updateTimer env now i s) l s)
    = warnings_fired c s /\
  timeups_fired c (fold_left (fun s i => updateTimer env now i s) l s)
    = timeups_fired c s.
Proof.
  revert s. induction l as [|i l IH]; intros s Hs; simpl; [auto|].
  destruct (decide (i = c)) as [->|Hne].
  - rewrite updateTimer_skip by (left; apply Hs). apply IH. exact Hs.
  - assert (E : timer_of (updateTimer env now i s) c = timer_of s c).
    { unfold timer_of. rewrite updateTimer_timers_other by exact Hne.
      reflexivity. }
    destruct (IH (updateTimer env now i s)) as (H1 & -> & ->).
    { unfold at_rest. rewrite E. exact Hs. }
    destruct (updateTimer_fired_other env now i c s Hne) as [-> ->]. auto.
Qed.

Lemma at_rest_exec op c s :
  restarts c op = false -> at_rest c s ->
  at_rest c (exec env op s) /\
  warnings_fired c (exec env op s) = warnings_fired c s /\
  timeups_fired c (exec env op s) = timeups_fired c s.
Proof.
  intros Hop (Hr & Hp & Hz).
  assert (Hsame : forall s', timers s' = timers s -> serial s' = serial s ->
            at_rest c s' /\
            warnings_fired c s' = warnings_fired c s /\
            timeups_fired c s' = timeups_fired c s).
  { intros s' E1 E2. unfold at_rest, timer_of. rewrite E1.
    split; [exact (conj Hr (conj Hp Hz))|]. apply fired_same. exact E2. }
  assert (Halter : forall (f : Timer -> Timer) i s',
            timers s' = alter f i (timers s) -> serial s' = serial s ->
            (i = c -> forall t, running t = false -> paused t = false ->
               remainingTime t = 0 ->
               running (f t) = false /\ paused (f t) = false /\
               remainingTime (f t) = 0) ->
            at_rest c s' /\
            warnings_fired c s' = warnings_fired c s /\
            timeups_fired c s' = timeups_fired c s).
  { intros f i s' E1 E2 Hf. split; [|apply fired_same; exact E2].
    unfold at_rest. rewrite (timer_of_alter f i c s s' E1).
    case_decide as Hic; [|exact (conj Hr (conj Hp Hz))].
    unfold timer_of in Hr, Hp, Hz.
    destruct (timers s !! c) as [t|]; simpl in *; [|auto].
    apply Hf; assumption. }
  destruct op as [now b|now b|b|b|b|b|cmd|now|now|r l]; simpl.
  - destruct b as [| |a]; simpl; auto.
    simpl in Hop.
    destruct (invalidCourt (st_courtId a)) eqn:Hinv; simpl in *; auto.
    apply Nat.eqb_neq in Hop.
    eapply Halter; [reflexivity | reflexivity |]. congruence.
  - destruct b as [| |a]; simpl; auto.
    destruct (invalidCourt a); simpl; auto.
    eapply Halter; [reflexivity | reflexivity |].
    intros _ t Ht1 Ht2 Ht3. unfold timer_toggle. rewrite Ht1, Ht2. simpl. auto.
  - destruct b as [| |a]; simpl; auto.
    destruct (invalidCourt a); simpl; auto.
    eapply (Halter timer_stop (Z.to_nat a)).
    + unfold deactivateLED. destruct (Z.to_nat a <? 4)%nat; reflexivity.
    + unfold deactivateLED. destruct (Z.to_nat a <? 4)%nat; reflexivity.
    + intros _ t _ _ _. simpl. auto.
  - destruct b as [| |a]; simpl; auto.
    destruct (invalidCourt (se_courtId a)); simpl; auto.
  - destruct b as [| |[oa ow]]; simpl; auto.
    destruct (_ || _); simpl; auto. destruct (_ || _); simpl; auto.
  - destruct b as [| |a]; simpl; auto.
  - destruct cmd as [d|d|]; simpl; auto; destruct (_ && _); auto.
  - apply at_rest_updateTimers. exact (conj Hr (conj Hp Hz)).
  - unfold updateAlarms. split; [|apply updateAlarms_fired].
    unfold at_rest, timer_of. rewrite updateAlarms_timers.
    exact (conj Hr (conj Hp Hz)).
  - unfold updateAudioPlayback.
    destruct (_ && _); auto. destruct r; [destruct l|]; simpl; auto.
Qed.

Lemma at_rest_run ops c s :
  Forall (fun op => restarts c op = false) ops -> at_rest c s ->
  at_rest c (run env ops s) /\
  warnings_fired c (run env ops s) = warnings_fired c s /\
  timeups_fired c (run env ops s) = timeups_fired c s.
Proof.
  unfold run. intros H. revert s.
  induction H as [|op ops Hop _ IH]; intros s Hs; simpl; [auto|].
  destruct (at_rest_exec op c s Hop Hs) as (H1 & H2 & H3).
  destruct (IH (exec env op s) H1) as (H4 & -> & ->). auto.
Qed.

Lemma at_rest_after_stop c s :
  wf s -> (c < 4)%nat ->
  at_rest c (snd (handleStop (Parsed (Z.of_nat c)) s)) /\
  serial (snd (handleStop (Parsed (Z.of_nat c)) s)) = serial s.
Proof.
  intros (Ht & _) Hc. rewrite handleStop_valid by exact Hc. simpl.
  split; [|reflexivity]. unfold at_rest, timer_of. simpl.
  rewrite list_lookup_alter_eq.
  destruct (lookup_lt_is_Some_2 (timers s) c) as [t0 ->]; [lia|].
  simpl. auto.
Qed.

End Stopped.

(** X5.  Stop is final.  After an accepted Stop for court [c], and for as
    long as no Start for [c] is accepted, the timer of [c] stays stopped
    with no remaining time, whatever pause requests, other requests and
    update passes arrive at whatever clock values, and court [c] raises
    neither a warning nor an expiry alarm. *)
Theorem stop_is_final (env : Storage) (c : nat) (ops : list Op) (s : State) :
  wf s -> (c < 4)%nat ->
  Forall (fun op => restarts c op = false) ops ->
  let s' := run env ops (snd (handleStop (Parsed (Z.of_nat c)) s)) in
  running (timer_of s' c) = false /\ paused (timer_of s' c) = false /\
  remainingTime (timer_of s' c) = 0 /\
  warnings_fired c s' = warnings_fired c s /\
  timeups_fired c s' = timeups_fired c s.
Proof.
  intros Hwf Hc Hops s'.
  destruct (at_rest_after_stop c s Hwf Hc) as (H0 & Hser).
  destruct (at_rest_run env ops c _ Hops H0) as ((H1 & H2 & H3) & H4 & H5).
  destruct (fired_same c s _ Hser) as (H6 & H7).
  unfold s'. rewrite H4, H5, H6, H7. auto.
Qed.

Lemma stop_is_final_witness :
  wf started0 /\ (0 < 4)%nat /\
  Forall (fun op => restarts 0 op = false) many_passes /\
  timeups_fired 0
    (run sd_full many_passes (snd (handleStop (Parsed 0) started0))) = 0%nat /\
  running
    (timer_of (run sd_full many_passes (snd (handleStop (Parsed 0) started0)))
       0) = false.
Proof.
  assert (Hwf : wf started0) by (repeat split; reflexivity).
  assert (Hc : (0 < 4)%nat) by lia.
  assert (Hops : Forall (fun op => restarts 0 op = false) many_passes).
  { unfold many_passes. repeat constructor. }
  split; [exact Hwf|]. split; [exact Hc|]. split; [exact Hops|].
  destruct (stop_is_final sd_full 0 many_passes started0 Hwf Hc Hops)
    as (Hr & _ & _ & _ & He).
  split; [exact He | exact Hr].
Defined.

(** ** Idle timers and the status report *)

Section Idle.
Variable env : Storage.

Lemma idle_inv_timers s s' :
  timers s' = timers s -> idle_inv s -> idle_inv s'.
Proof. unfold idle_inv. intros ->. auto. Qed.

Lemma idle_inv_alter (f : Timer -> Timer) i s s' :
  timers s' = alter f i (timers s) ->
  (forall t, timers s !! i = Some t ->
     (paused t = true -> running t = true) ->
     (running t = false -> remainingTime t = 0) ->
     (alarmTriggered t = true -> running t = false) ->
     (running (f t) = false -> remainingTime (f t) = 0) /\
     (alarmTriggered (f t) = true -> running (f t) = false)) ->
  paused_inv s -> idle_inv s -> idle_inv s'.
Proof.
  unfold idle_inv. intros -> Hf Hp Hs c t.
  rewrite list_lookup_alter. case_decide as Hic.
  - subst c. destruct (timers s !! i) as [t0|] eqn:Ht0; simpl; [|discriminate].
    intros [= <-]. destruct (Hs i t0 Ht0) as (H1 & H2).
    apply Hf; auto. apply (Hp i t0 Ht0).
  - apply Hs.
Qed.

Lemma timeup_due_zero now t :
  timeup_due now t = true -> wrap32 (remaining_at now t) = 0.
Proof.
  unfold timeup_due. intros H. apply andb_true_iff in H as [_ H].
  apply Z.leb_le in H. pose proof (remaining_at_nonneg now t).
  replace (remaining_at now t) with 0 by lia. reflexivity.
Qed.

Lemma idle_inv_updateTimer now i s :
  paused_inv s -> idle_inv s -> idle_inv (updateTimer env now i s).
Proof.
  intros Hp Hs. unfold updateTimer.
  destruct (timers s !! i) as [t|] eqn:Ht; [|exact Hs].
  destruct (courtSettings s !! i) as [cs|]; [|exact Hs].
  destruct (negb (running t) || paused t) eqn:Hskip; [exact Hs|].
  apply orb_false_iff in Hskip as [Hr _]. apply negb_false_iff in Hr.
  destruct (Hs i t Ht) as (_ & Hlatch).
  assert (Hal : alarmTriggered t = false).
  { destruct (alarmTriggered t); [|reflexivity].
    rewrite Hlatch in Hr by reflexivity. discriminate. }
  cbn zeta.
  destruct (warning_due now t cs) eqn:Hw; destruct (timeup_due now t) eqn:He;
    unfold idle_inv; simpl;
    repeat (progress (autorewrite with frame; simpl));
    intros c t0;
    (destruct (decide (i = c)) as [<-|Hic];
     [ rewrite ?list_lookup_alter_eq, Ht; simpl; intros [= <-]; simpl;
       rewrite ?Hr, ?Hal, ?(timeup_due_zero now t He);
       split; intros; try discriminate; reflexivity
     | rewrite ?list_lookup_alter_ne by exact Hic; apply Hs ]).
Qed.

Lemma idle_inv_exec op s :
  paused_inv s -> idle_inv s -> idle_inv (exec env op s).
Proof.
  intros Hp Hs. destruct op as [now b|now b|b|b|b|b|c|now|now|r l]; simpl.
  - destruct b as [| |a]; simpl; auto.
    destruct (invalidCourt (st_courtId a)); simpl; auto.
    eapply idle_inv_alter; [reflexivity | | exact Hp | exact Hs].
    intros t _ _ _ _. simpl. split; discriminate.
  - destruct b as [| |a]; simpl; auto.
    destruct (invalidCourt a); simpl; auto.
    eapply idle_inv_alter; [reflexivity | | exact Hp | exact Hs].
    intros t _ H1 H2 H3. unfold timer_toggle.
    destruct (running t) eqn:Hr; destruct (paused t) eqn:Hpa; simpl;
      rewrite ?Hr, ?Hpa; auto.
  - destruct b as [| |a]; simpl; auto.
    destruct (invalidCourt a); simpl; auto.
    eapply idle_inv_alter; [ | | exact Hp | exact Hs].
    + unfold deactivateLED. destruct (Z.to_nat a <? 4)%nat; reflexivity.
    + intros t _ _ _ _. simpl. auto.
  - destruct b as [| |a]; simpl; auto.
    destruct (invalidCourt (se_courtId a)); exact Hs.
  - destruct b as [| |[oa ow]]; simpl; auto.
    destruct (_ || _); simpl; auto. destruct (_ || _); exact Hs.
  - destruct b as [| |a]; exact Hs.
  - destruct c as [d|d|]; simpl; auto; destruct (_ && _); exact Hs.
  - unfold updateTimers.
    apply (pass_preserves (fun s => paused_inv s /\ idle_inv s)); [|auto].
    intros i s' (Hp' & Hs'). split.
    + apply paused_inv_updateTimer. exact Hp'.
    + apply idle_inv_updateTimer; assumption.
  - unfold updateAlarms. apply (idle_inv_timers s); [|exact Hs].
    apply updateAlarms_timers.
  - unfold updateAudioPlayback.
    destruct (_ && _); auto. destruct r; [destruct l|]; exact Hs.
Qed.

Lemma reachable_idle_inv s : reachable env s -> idle_inv s.
Proof.
  induction 1 as [sd lfs cfg prefs|s op Hreach IH].
  - intros c t. unfold setup, courts. simpl.
    destruct c as [|[|[|[|c]]]]; simpl; try discriminate;
      intros [= <-]; simpl; (split; [intros _; reflexivity | discriminate]).
  - apply idle_inv_exec; [|exact IH].
    apply (reachable_paused_inv env). exact Hreach.
Qed.

End Idle.

(** X6.  The status report is consistent in every reachable state: it has
    one entry per court, in index order; an entry never shows a court both
    running and paused; a court shown paused has a running timer; and a
    court shown neither running nor paused (idle, stopped, or expired)
    always shows 0 seconds remaining. *)
Theorem status_report_consistent (env : Storage) (s : State) (c : nat)
    (st : CourtStatus) :
  reachable env s ->
  snd (handleStatus s) !! c = Some st ->
  fst (handleStatus s) = 200 /\ length (snd (handleStatus s)) = 4%nat /\
  cs_id st = c /\ (c < 4)%nat /\
  cs_isRunning st && cs_isPaused st = false /\
  (cs_isPaused st = true -> running (timer_of s c) = true) /\
  (cs_isRunning st = false -> cs_isPaused st = false ->
   cs_remaining st = 0).
Proof.
  intros Hreach Hst.
  pose proof (reachable_wf env s Hreach) as (Ht & _).
  pose proof (reachable_paused_inv env s Hreach) as Hp.
  pose proof (reachable_idle_inv env s Hreach) as Hi.
  split; [reflexivity|]. split; [reflexivity|].
  unfold handleStatus, courts in Hst. simpl in Hst.
  assert (Hc : (c < 4)%nat).
  { apply lookup_lt_Some in Hst. simpl in Hst. exact Hst. }
  assert (E : st = court_status c (timer_of s c)).
  { destruct c as [|[|[|[|c]]]]; simpl in Hst; try lia; congruence. }
  destruct (lookup_lt_is_Some_2 (timers s) c) as [t Hlt]; [lia|].
  assert (Et : timer_of s c = t) by (unfold timer_of; rewrite Hlt; reflexivity).
  rewrite E, Et. simpl.
  split; [reflexivity|]. split; [exact Hc|].
  destruct (Hi c t Hlt) as (Hz & _). specialize (Hp c t Hlt).
  split; [destruct (running t), (paused t); reflexivity|].
  split; [exact Hp|].
  intros Hrun Hpa. apply Hz. rewrite Hpa in Hrun. simpl in Hrun.
  rewrite andb_true_r in Hrun. exact Hrun.
Qed.

Lemma status_report_consistent_witness :
  reachable sd_full (run sd_full many_passes started0) /\
  snd (handleStatus (run sd_full many_passes started0)) !! 0%nat
    = Some (court_status 0 (timer_of (run sd_full many_passes started0) 0)) /\
  cs_remaining
    (court_status 0 (timer_of (run sd_full many_passes started0) 0)) = 0.
Proof.
  assert (Hreach : reachable sd_full (run sd_full many_passes started0)).
  { apply reachable_run. unfold started0. apply reach_step.
    apply reachable_boot. }
  split; [exact Hreach|]. split; [reflexivity|].
  destruct (status_report_consistent sd_full _ 0 _ Hreach eq_refl)
    as (_ & _ & _ & _ & _ & _ & H).
  apply H; reflexivity.
Defined.

(** ** Session counter *)

Section Sessions.
Variable env : Storage.

Lemma updateTimer_sessionCount now i c s :
  sessionCount (timer_of (updateTimer env now i s) c)
  = sessionCount (timer_of s c).
Proof.
  unfold timer_of, updateTimer.
  destruct (timers s !! i) as [t|]; [|reflexivity].
  destruct (courtSettings s !! i) as [cs|]; [|reflexivity].
  destruct (negb (running t) || paused t); [reflexivity|].
  destruct (warning_due now t cs); destruct (timeup_due now t);
    cbn zeta; simpl; repeat (progress (autorewrite with frame; simpl));
    repeat (rewrite (default_alter_field sessionCount)
              by (intros; reflexivity));
    reflexivity.
Qed.

Lemma updateTimers_sessionCount now c l s :
  sessionCount (timer_of (fold_left (fun s i => updateTimer env now i s) l s) c)
  = sessionCount (timer_of s c).
Proof.
  revert s. induction l as [|i l IH]; intros s; simpl; [reflexivity|].
  rewrite IH. apply updateTimer_sessionCount.
Qed.

Lemma sessionCount_exec_other op c s :
  restarts c op = false ->
  sessionCount (timer_of (exec env op s) c) = sessionCount (timer_of s c).
Proof.
  intros Hop.
  destruct op as [now b|now b|b|b|b|b|cmd|now|now|r l]; simpl.
  - destruct b as [| |a]; simpl; auto.
    simpl in Hop.
    destruct (invalidCourt (st_courtId a)); simpl in *; auto.
    apply Nat.eqb_neq in Hop. unfold timer_of. simpl.
    rewrite list_lookup_alter_ne by exact Hop. reflexivity.
  - destruct b as [| |a]; simpl; auto.
    destruct (invalidCourt a); simpl; auto.
    unfold timer_of. simpl. apply default_alter_field.
    intros t. unfold timer_toggle.
    destruct (running t && negb (paused t)); [reflexivity|].
    destruct (paused t); reflexivity.
  - destruct b as [| |a]; simpl; auto.
    destruct (invalidCourt a); simpl; auto.
    unfold timer_of, deactivateLED. destruct (Z.to_nat a <? 4)%nat; simpl;
      apply default_alter_field; reflexivity.
  - destruct b as [| |a]; simpl; auto.
    destruct (invalidCourt (se_courtId a)); reflexivity.
  - destruct b as [| |[oa ow]]; simpl; auto.
    destruct (_ || _); simpl; auto. destruct (_ || _); reflexivity.
  - destruct b as [| |a]; reflexivity.
  - destruct cmd as [d|d|]; simpl; auto; destruct (_ && _); reflexivity.
  - apply updateTimers_sessionCount.
  - unfold updateAlarms, timer_of. rewrite updateAlarms_timers. reflexivity.
  - unfold updateAudioPlayback.
    destruct (_ && _); auto. destruct r; [destruct l|]; reflexivity.
Qed.

Lemma sessionCount_exec_start op c s :
  wf s -> (c < 4)%nat -> restarts c op = true ->
  sessionCount (timer_of (exec env op s) c)
  = to_int (sessionCount (timer_of s c) + 1).
Proof.
  intros (Ht & _) Hc Hop.
  destruct op as [now b| | | | | | | | | ]; try discriminate.
  destruct b as [| |a]; try discriminate. simpl in *.
  apply andb_true_iff in Hop as [Hinv Heq].
  apply negb_true_iff in Hinv. rewrite Hinv. simpl.
  apply Nat.eqb_eq in Heq. rewrite Heq.
  unfold timer_of. simpl. rewrite list_lookup_alter_eq.
  destruct (lookup_lt_is_Some_2 (timers s) c) as [t0 ->]; [lia|].
  reflexivity.
Qed.

End Sessions.

(** X7.  The session counter of a court counts its accepted Start
    requests: over any sequence of requests, serial commands and update
    passes it grows by exactly the number of Start requests accepted for
    that court, and nothing else changes it (as long as the count stays
    within the range of an [int]). *)
Theorem sessionCount_counts_starts (env : Storage) (c : nat) (ops : list Op)
    (s : State) :
  wf s -> (c < 4)%nat ->
  - 2 ^ 31 <= sessionCount (timer_of s c) ->
  sessionCount (timer_of s c) + Z.of_nat (count_ops (restarts c) ops)
    < 2 ^ 31 ->
  sessionCount (timer_of (run env ops s) c)
  = sessionCount (timer_of s c) + Z.of_nat (count_ops (restarts c) ops).
Proof.
  intros Hwf Hc. unfold run. revert s Hwf.
  induction ops as [|op ops IH]; intros s Hwf Hlo Hhi; simpl in *; [lia|].
  destruct (restarts c op) eqn:Hop.
  - pose proof (sessionCount_exec_start env op c s Hwf Hc Hop) as E.
    rewrite to_int_small in E by lia.
    rewrite IH; [rewrite E; lia | apply wf_exec; exact Hwf | rewrite E; lia
                 | rewrite E; lia].
  - pose proof (sessionCount_exec_other env op c s Hop) as E.
    rewrite IH; [rewrite E; lia | apply wf_exec; exact Hwf | rewrite E; lia
                 | rewrite E; lia].
Qed.

Lemma sessionCount_counts_starts_witness :
  wf boot /\ (0 < 4)%nat /\ - 2 ^ 31 <= sessionCount (timer_of boot 0) /\
  sessionCount
    (timer_of
       (run sd_full
          [OStart 0 (start_court 0 1); OStart 5 (start_court 1 1);
           OStart 9 (start_court 7 1); OTimers 10; OStop (Parsed 0);
           OStart 20 (start_court 0 2); OStart 30 InvalidJson] boot) 0) = 2.
Proof.
  assert (Hwf : wf boot) by (repeat split; reflexivity).
  assert (Hc : (0 < 4)%nat) by lia.
  assert (Hlo : - 2 ^ 31 <= sessionCount (timer_of boot 0)) by (simpl; lia).
  split; [exact Hwf|]. split; [exact Hc|]. split; [exact Hlo|].
  apply (sessionCount_counts_starts sd_full 0
           [OStart 0 (start_court 0 1); OStart 5 (start_court 1 1);
            OStart 9 (start_court 7 1); OTimers 10; OStop (Parsed 0);
            OStart 20 (start_court 0 2); OStart 30 InvalidJson] boot Hwf Hc Hlo).
  simpl. lia.
Defined.

(** ** Raising the alarms *)

Section Raising.
Variable env : Storage.

Lemma updateTimer_warnings_other now i c s :
  i <> c ->
  warnings_fired c (updateTimer env now i s) = warnings_fired c s.
Proof. intros H. apply (updateTimer_fired_other env now i c s H). Qed.

(** The timer pass acts on court [c] as its own step does, on a state
    whose slots for [c] are those the pass started from. *)
Lemma updateTimers_at now c l s :
  NoDup l -> c ∈ l -> wf s ->
  exists s0,
    wf s0 /\ timers s0 !! c = timers s !! c /\
    alarmStates s0 !! c = alarmStates s !! c /\
    leds s0 !! c = leds s !! c /\ courtSettings s0 = courtSettings s /\
    config s0 = config s /\
    warnings_fired c s0 = warnings_fired c s /\
    timeups_fired c s0 = timeups_fired c s /\
    timers (fold_left (fun s i => updateTimer env now i s) l s) !! c
      = timers (updateTimer env now c s0) !! c /\
    alarmStates (fold_left (fun s i => updateTimer env now i s) l s) !! c
      = alarmStates (updateTimer env now c s0) !! c /\
    leds (fold_left (fun s i => updateTimer env now i s) l s) !! c
      = leds (updateTimer env now c s0) !! c /\
    warnings_fired c (fold_left (fun s i => updateTimer env now i s) l s)
      = warnings_fired c (updateTimer env now c s0) /\
    timeups_fired c (fold_left (fun s i => updateTimer env now i s) l s)
      = timeups_fired c (updateTimer env now c s0).
Proof.
  intros Hl. revert s. induction Hl as [|i l Hi Hl IH]; intros s Hin Hwf.
  - apply elem_of_nil in Hin. contradiction.
  - simpl. destruct (decide (i = c)) as [->|Hne].
    + exists s. split; [exact Hwf|].
      do 7 (split; [reflexivity|]).
      clear IH Hin. generalize (updateTimer env now c s). intros s1.
      revert s1. induction l as [|j l IHl]; intros s1; simpl; [auto|].
      apply not_elem_of_cons in Hi as [Hne Hi].
      apply NoDup_cons in Hl as [_ Hl].
      destruct (IHl Hi Hl (updateTimer env now j s1)) as (-> & -> & -> & -> & ->).
      rewrite updateTimer_timers_other, updateTimer_alarmStates_other,
        updateTimer_leds_other by auto.
      destruct (updateTimer_fired_other env now j c s1) as [-> ->]; auto.
    + apply elem_of_cons in Hin as [Hin|Hin]; [congruence|].
      destruct (IH (updateTimer env now i s) Hin (wf_updateTimer env now i s Hwf))
        as (s0 & Hwf0 & Et & Ea & El & Ecs & Ecf & Ew & Ee & F).
      exists s0. split; [exact Hwf0|].
      rewrite updateTimer_timers_other in Et by exact Hne.
      rewrite updateTimer_alarmStates_other in Ea by exact Hne.
      rewrite updateTimer_leds_other in El by exact Hne.
      rewrite updateTimer_courtSettings in Ecs.
      rewrite updateTimer_config in Ecf.
      destruct (updateTimer_fired_other env now i c s Hne) as [Ew' Ee'].
      rewrite Ew' in Ew. rewrite Ee' in Ee.
      auto 10.
Qed.

(** The pass on a court whose warning is due. *)
Lemma updateTimer_warning now i s :
  is_Some (timers s !! i) -> is_Some (courtSettings s !! i) ->
  running (timer_of s i) = true -> paused (timer_of s i) = false ->
  warning_due now (timer_of s i) (settings_of s i) = true ->
  updateTimer env now i s =
  println (SerWarning i)
    (triggerAlarm env now i (warningDuration (config s)) true
       (set_timers s
          (alter timer_latch_warning i (alter (timer_tick now) i (timers s))))).
Proof.
  unfold timer_of, settings_of, updateTimer. intros [t Ht] [cs Hcs].
  rewrite Ht, Hcs. simpl. intros Hr Hp Hw.
  rewrite Hr, Hp, Hw. simpl.
  rewrite (warning_timeup_exclusive now t cs Hw). reflexivity.
Qed.

(** What a step that triggers an alarm leaves in the slots of its court. *)
Lemma triggered_slots now i d w (f : Timer -> Timer) e s :
  wf s -> (i < 4)%nat ->
  let s1 := println e
              (triggerAlarm env now i d w
                 (set_timers s
                    (alter f i (alter (timer_tick now) i (timers s))))) in
  timer_of s1 i = f (timer_tick now (timer_of s i)) /\
  alarm_of s1 i = new_alarm now d w i (loopAlarm (settings_of s i)) /\
  led_of s1 i = true /\ serial s1 = e :: serial s.
Proof.
  intros (Ht & Hcs & Ha & Hl) Hi s1. unfold s1, timer_of, alarm_of, led_of.
  simpl. autorewrite with frame. simpl.
  rewrite triggerAlarm_leds by exact Hi. simpl.
  rewrite !list_lookup_alter_eq.
  destruct (lookup_lt_is_Some_2 (timers s) i) as [t0 ->]; [lia|].
  rewrite !list_lookup_insert_eq by lia. simpl.
  repeat split.
Qed.

End Raising.

Lemma warning_pass (env : Storage) (now : Z) (c : nat) (s : State) :
  wf s -> (c < 4)%nat ->
  running (timer_of s c) = true -> paused (timer_of s c) = false ->
  warning_due now (timer_of s c) (settings_of s c) = true ->
  timer_of (updateTimers env now s) c
    = timer_latch_warning (timer_tick now (timer_of s c)) /\
  alarm_of (updateTimers env now s) c
    = new_alarm now (warningDuration (config s)) true c
        (loopAlarm (settings_of s c)) /\
  led_of (updateTimers env now s) c = true /\
  warnings_fired c (updateTimers env now s) = S (warnings_fired c s) /\
  timeups_fired c (updateTimers env now s) = timeups_fired c s.
Proof.
  intros Hwf Hc Hr Hp Hw.
  assert (Hin : c ∈ courts).
  { unfold courts. rewrite !elem_of_cons. lia. }
  destruct (updateTimers_at env now c courts s NoDup_courts Hin Hwf)
    as (s0 & Hwf0 & Et & Ea & El & Ecs & Ecf & Ew & Ee & Ft & Fa & Fl & Fw & Fe).
  assert (Etm : timer_of s0 c = timer_of s c)
    by (unfold timer_of; rewrite Et; reflexivity).
  assert (Eset : settings_of s0 c = settings_of s c)
    by (unfold settings_of; rewrite Ecs; reflexivity).
  assert (Estep : updateTimer env now c s0 =
            println (SerWarning c)
              (triggerAlarm env now c (warningDuration (config s0)) true
                 (set_timers s0
                    (alter timer_latch_warning c
                       (alter (timer_tick now) c (timers s0)))))).
  { destruct Hwf0 as (H1 & H2 & _).
    apply updateTimer_warning; rewrite ?Etm, ?Eset; try assumption;
      apply lookup_lt_is_Some_2; lia. }
  destruct (triggered_slots env now c (warningDuration (config s0)) true
              timer_latch_warning (SerWarning c) s0 Hwf0 Hc)
    as (S1 & S2 & S3 & S4).
  rewrite <- Estep in S1, S2, S3, S4.
  unfold timer_of at 1. unfold alarm_of at 1. unfold led_of at 1.
  unfold updateTimers. rewrite Ft, Fa, Fl, Fw, Fe.
  fold (timer_of (updateTimer env now c s0) c).
  fold (alarm_of (updateTimer env now c s0) c).
  fold (led_of (updateTimer env now c s0) c).
  rewrite S1, S2, S3, Etm, Eset, Ecf.
  unfold warnings_fired, timeups_fired in *. rewrite S4. simpl.
  rewrite Nat.eqb_refl, Ew, Ee. auto.
Qed.

(** X8.  The warning alarm.  The timer of court [c] is running and not
    paused, its warning latch is clear, and at the clock of the timer pass
    its remaining time is positive and at most the warning lead of the
    court.  Whatever the other courts do on that pass, after it the latch
    is set, the timer is still running, the alarm of [c] is active as a
    warning alarm started at that clock with the configured warning
    duration and the [loopAlarm] setting of the court, the LED of [c] is
    on, and one warning line for [c] has been written. *)
Theorem warning_raises_alarm (env : Storage) (now : Z) (c : nat) (s : State) :
  wf s -> (c < 4)%nat ->
  running (timer_of s c) = true -> paused (timer_of s c) = false ->
  warning_due now (timer_of s c) (settings_of s c) = true ->
  let s' := updateTimers env now s in
  timer_of s' c = timer_latch_warning (timer_tick now (timer_of s c)) /\
  warningTriggered (timer_of s' c) = true /\ running (timer_of s' c) = true /\
  alarm_of s' c
    = new_alarm now (warningDuration (config s)) true c
        (loopAlarm (settings_of s c)) /\
  led_of s' c = true /\
  warnings_fired c s' = S (warnings_fired c s) /\
  timeups_fired c s' = timeups_fired c s.
Proof.
  intros Hwf Hc Hr Hp Hw s'.
  destruct (warning_pass env now c s Hwf Hc Hr Hp Hw)
    as (T & A & L & W & E).
  unfold s'. split; [exact T|]. rewrite T. simpl.
  split; [reflexivity|]. split; [exact Hr|].
  split; [exact A|]. split; [exact L|]. split; [exact W | exact E].
Qed.

(** X9.  The expiry alarm.  The timer of court [c] is running and not
    paused, its expiry latch is clear, and the timer pass computes a
    remaining time of 0.  Whatever the other courts do on that pass, after
    it the timer is stopped with the latch set and 0 seconds remaining,
    the alarm of [c] is active as an expiry alarm started at that clock
    with the configured alarm duration and the [loopAlarm] setting of the
    court, the LED of [c] is on, and one expiry line for [c] has been
    written. *)
Theorem expiry_raises_alarm (env : Storage) (now : Z) (c : nat) (s : State) :
  wf s -> (c < 4)%nat -> expires now s c = true ->
  let s' := updateTimers env now s in
  timer_of s' c = timer_latch_alarm (timer_tick now (timer_of s c)) /\
  running (timer_of s' c) = false /\ alarmTriggered (timer_of s' c) = true /\
  remainingTime (timer_of s' c) = 0 /\
  alarm_of s' c
    = new_alarm now (alarmDuration (config s)) false c
        (loopAlarm (settings_of s c)) /\
  led_of s' c = true /\
  timeups_fired c s' = S (timeups_fired c s) /\
  warnings_fired c s' = warnings_fired c s.
Proof.
  intros Hwf Hc Hex s'.
  assert (Hin : c ∈ courts).
  { unfold courts. rewrite !elem_of_cons. lia. }
  destruct (updateTimers_at env now c courts s NoDup_courts Hin Hwf)
    as (s0 & Hwf0 & Et & Ea & El & Ecs & Ecf & Ew & Ee & Ft & Fa & Fl & Fw & Fe).
  assert (Etm : timer_of s0 c = timer_of s c)
    by (unfold timer_of; rewrite Et; reflexivity).
  assert (Eset : settings_of s0 c = settings_of s c)
    by (unfold settings_of; rewrite Ecs; reflexivity).
  assert (Hex0 : expires now s0 c = true).
  { rewrite (expires_same now s s0); [exact Hex | exact Et]. }
  assert (Estep : updateTimer env now c s0 =
            println (SerTimeUp c)
              (triggerAlarm env now c (alarmDuration (config s0)) false
                 (set_timers s0
                    (alter timer_latch_alarm c
                       (alter (timer_tick now) c (timers s0)))))).
  { destruct Hwf0 as (H1 & H2 & _).
    apply updateTimer_timeup; try assumption; apply lookup_lt_is_Some_2; lia. }
  destruct (triggered_slots env now c (alarmDuration (config s0)) false
              timer_latch_alarm (SerTimeUp c) s0 Hwf0 Hc)
    as (S1 & S2 & S3 & S4).
  rewrite <- Estep in S1, S2, S3, S4.
  assert (T : timer_of s' c
              = timer_latch_alarm (timer_tick now (timer_of s c))).
  { unfold timer_of at 1. unfold s', updateTimers. rewrite Ft.
    fold (timer_of (updateTimer env now c s0) c). rewrite S1, Etm.
    reflexivity. }
  split; [exact T|]. rewrite T. simpl.
  split; [reflexivity|]. split; [reflexivity|].
  split.
  { apply (timeup_due_zero now). unfold expires in Hex.
    apply andb_true_iff in Hex as [_ Hex]. exact Hex. }
  unfold alarm_of at 1. unfold led_of at 1. unfold s', updateTimers.
  rewrite Fa, Fl, Fw, Fe.
  fold (alarm_of (updateTimer env now c s0) c).
  fold (led_of (updateTimer env now c s0) c).
  rewrite S2, S3, Eset, Ecf.
  unfold warnings_fired, timeups_fired in *. rewrite S4. simpl.
  rewrite Nat.eqb_refl, Ew, Ee. auto.
Qed.

Lemma warning_raises_alarm_witness :
  wf started0 /\ (0 < 4)%nat /\
  running (timer_of started0 0) = true /\
  paused (timer_of started0 0) = false /\
  warning_due 10 (timer_of started0 0) (settings_of started0 0) = true /\
  a_duration (alarm_of (updateTimers sd_full 10 started0) 0) = 8000 /\
  led_of (updateTimers sd_full 10 started0) 0 = true.
Proof.
  assert (Hwf : wf started0) by (repeat split; reflexivity).
  assert (Hc : (0 < 4)%nat) by lia.
  split; [exact Hwf|]. split; [exact Hc|]. split; [reflexivity|].
  split; [reflexivity|]. split; [reflexivity|].
  destruct (warning_raises_alarm sd_full 10 0 started0 Hwf Hc
              eq_refl eq_refl eq_refl) as (_ & _ & _ & A & L & _).
  split; [rewrite A; reflexivity | exact L].
Defined.

Lemma expiry_raises_alarm_witness :
  wf near_deadline /\ (0 < 4)%nat /\ expires 59500 near_deadline 0 = true /\
  running (timer_of (updateTimers sd_full 59500 near_deadline) 0) = false /\
  a_duration (alarm_of (updateTimers sd_full 59500 near_deadline) 0) = 12000.
Proof.
  assert (Hwf : wf near_deadline) by (repeat split; reflexivity).
  assert (Hc : (0 < 4)%nat) by lia.
  split; [exact Hwf|]. split; [exact Hc|]. split; [reflexivity|].
  destruct (expiry_raises_alarm sd_full 59500 0 near_deadline Hwf Hc eq_refl)
    as (_ & R & _ & _ & A & _).
  split; [exact R | rewrite A; reflexivity].
Defined.



(** ** Uploads *)

Lemma prefix_empty n : String.prefix EmptyString n = true.
Proof. destruct n; reflexivity. Qed.

Lemma remove_dotdotslash_prefix n :
  remove_all dotdotslash (dotdotslash ++ n) = remove_all dotdotslash n.
Proof.
  unfold remove_all, dotdotslash. simpl. rewrite prefix_empty. reflexivity.
Qed.

Lemma remove_dotdotslash_backslash n :
  remove_all dotdotslash (dotdotbackslash ++ n)
  = (dotdotbackslash ++ remove_all dotdotslash n)%string.
Proof. reflexivity. Qed.

Lemma remove_dotdotbackslash_prefix n :
  remove_all dotdotbackslash (dotdotbackslash ++ n)
  = remove_all dotdotbackslash n.
Proof.
  unfold remove_all, dotdotbackslash, backslash. simpl.
  rewrite prefix_empty. reflexivity.
Qed.

Lemma toLowerCase_app a b :
  toLowerCase (a ++ b) = (toLowerCase a ++ toLowerCase b)%string.
Proof. induction a as [|c a IH]; simpl; [reflexivity|]. rewrite IH. reflexivity. Qed.

Lemma handleUpload_start_valid fs s now name cur tot u b :
  isValidFilename (toLowerCase name) = true ->
  backend_of s = Some b -> fs_dir_exists fs b = true ->
  handleUpload fs s now (upload_call UPLOAD_FILE_START name cur tot) u
  = ({| uploadFile :=
          if fs_open_write fs b (upload_path name)
          then Some (b, upload_path name) else None;
        uploadStartTime := now; uploadedBytes := 0 |},
     [UpOpen b (upload_path name)]).
Proof.
  intros Hv Hb Hd. unfold handleUpload, backend_of, upload_path in *. simpl.
  rewrite Hv. simpl.
  destruct (useSDCard (config s) && sdCardAvailable s).
  - injection Hb as <-. unfold upload_open. rewrite Hd. reflexivity.
  - destruct (littleFSAvailable s); [|discriminate].
    injection Hb as <-. unfold upload_open. rewrite Hd. reflexivity.
Qed.

(** X11.  The path-traversal filter does not protect the path.
    [isValidFilename] strips the traversal sequences from its own copy of
    the name, so a name gets the same verdict with and without a leading
    dot-dot-slash (or dot-dot-backslash); [handleUpload] then builds the
    path from the name it was given: an accepted name that starts with
    dot-dot-slash is opened for writing at [/audio/../...], outside
    [/audio]. *)
Theorem traversal_prefix_kept (fs : FileSystem) (s : State) (now : Z)
    (n : string) (cur tot : Z) (u : Upload) (b : Backend) :
  isValidFilename (dotdotslash ++ n) = isValidFilename n /\
  isValidFilename (dotdotbackslash ++ n) = isValidFilename n /\
  (isValidFilename (toLowerCase n) = true ->
   backend_of s = Some b -> fs_dir_exists fs b = true ->
   snd (handleUpload fs s now
          (upload_call UPLOAD_FILE_START (dotdotslash ++ n) cur tot) u)
   = [UpOpen b ("/audio/../" ++ toLowerCase n)]).
Proof.
  split; [|split].
  - unfold isValidFilename. rewrite remove_dotdotslash_prefix. reflexivity.
  - unfold isValidFilename.
    rewrite remove_dotdotslash_backslash, remove_dotdotbackslash_prefix.
    reflexivity.
  - intros Hv Hb Hd.
    rewrite (handleUpload_start_valid fs s now (dotdotslash ++ n) cur tot u b);
      try assumption.
    + reflexivity.
    + rewrite toLowerCase_app.
      change (toLowerCase dotdotslash) with dotdotslash.
      unfold isValidFilename. rewrite remove_dotdotslash_prefix. exact Hv.
Qed.

Lemma traversal_prefix_kept_witness :
  isValidFilename (toLowerCase "Alarm1.wav") = true /\
  backend_of boot = Some SDcard /\ fs_dir_exists fs_fine SDcard = true /\
  snd (handleUpload fs_fine boot 0
         (upload_call UPLOAD_FILE_START "../Alarm1.wav" 0 0) no_upload)
  = [UpOpen SDcard "/audio/../alarm1.wav"].
Proof.
  split; [reflexivity|]. split; [reflexivity|]. split; [reflexivity|].
  destruct (traversal_prefix_kept fs_fine boot 0 "Alarm1.wav" 0 0 no_upload
              SDcard) as (_ & _ & H).
  exact (H eq_refl eq_refl eq_refl).
Defined.

(** X12.  Upload and playback agree.  A clip uploaded under a name whose
    lower-case form is the file name of court [i]'s alarm or warning clip
    is accepted and opened for writing at exactly the path, and on exactly
    the storage backend, that [playAudio] reads for that court: once it
    decodes, it is the clip the alarm of court [i] plays. *)
Theorem uploaded_clip_is_played (fs : FileSystem) (env : Storage) (s : State)
    (now : Z) (n : string) (cur tot : Z) (u : Upload) (i : nat) (w : bool)
    (b : Backend) :
  (i < 4)%nat -> upload_path n = audioFile i w ->
  backend_of s = Some b -> fs_dir_exists fs b = true ->
  fs_open_write fs b (audioFile i w) = true ->
  handleUpload fs s now (upload_call UPLOAD_FILE_START n cur tot) u
  = ({| uploadFile := Some (b, audioFile i w); uploadStartTime := now;
        uploadedBytes := 0 |},
     [UpOpen b (audioFile i w)]) /\
  (audioSystemReady s = true -> opens env b (audioFile i w) = true ->
   audio (playAudio env i w s) = playing b (audioFile i w) i w).
Proof.
  intros Hi Hpath Hb Hd Hopen. split.
  - assert (Hv : isValidFilename (toLowerCase n) = true).
    { unfold upload_path in Hpath.
      destruct i as [|[|[|[|i]]]]; try lia; destruct w;
        unfold audioFile in Hpath; simpl in Hpath;
        injection Hpath as ->; reflexivity. }
    rewrite (handleUpload_start_valid fs s now n cur tot u b) by assumption.
    rewrite Hpath, Hopen. reflexivity.
  - intros Hr Hop. rewrite playAudio_ready by exact Hr.
    unfold channel_after, clip_for. rewrite Hb, Hop. reflexivity.
Qed.

Lemma uploaded_clip_is_played_witness :
  (2 < 4)%nat /\ upload_path "WARNING3.wav" = audioFile 2 true /\
  backend_of boot = Some SDcard /\ fs_dir_exists fs_fine SDcard = true /\
  fs_open_write fs_fine SDcard (audioFile 2 true) = true /\
  snd (handleUpload fs_fine boot 7
         (upload_call UPLOAD_FILE_START "WARNING3.wav" 0 0) no_upload)
  = [UpOpen SDcard "/audio/warning3.wav"] /\
  owner (playAudio sd_full 2 true boot) = Some 2%nat.
Proof.
  assert (Hc : (2 < 4)%nat) by lia.
  split; [exact Hc|]. split; [reflexivity|]. split; [reflexivity|].
  split; [reflexivity|]. split; [reflexivity|].
  destruct (uploaded_clip_is_played fs_fine sd_full boot 7 "WARNING3.wav" 0 0
              no_upload 2 true SDcard Hc eq_refl eq_refl eq_refl eq_refl)
    as (H1 & H2).
  split.
  - rewrite H1. reflexivity.
  - unfold owner. rewrite (H2 eq_refl eq_refl). reflexivity.
Defined.

Section UploadSize.
Variables (fs : FileSystem) (s : State).

Lemma bytes_written_app ev1 ev2 :
  bytes_written (ev1 ++ ev2) = bytes_written ev1 + bytes_written ev2.
Proof.
  induction ev1 as [|e ev1 IH]; simpl; [reflexivity|].
  destruct e; rewrite ?IH; lia.
Qed.

(** While chunks arrive, what is written stays within what the limit
    leaves. *)
Lemma writes_bounded chunks u :
  Forall (fun c => up_status (snd c) = UPLOAD_FILE_WRITE /\
                   0 <= up_currentSize (snd c) < 2 ^ 31) chunks ->
  (uploadFile u = None \/ 0 <= uploadedBytes u <= MAX_UPLOAD_SIZE) ->
  0 <= bytes_written (snd (upload_run fs s chunks u))
    <= match uploadFile u with
       | Some _ => MAX_UPLOAD_SIZE - uploadedBytes u
       | None => 0
       end.
Proof.
  intros H. revert u. induction H as [|[now up] chunks [Hst Hsz] _ IH];
    intros u Hu; simpl in *.
  - destruct (uploadFile u); [|lia]. destruct Hu as [Hu|Hu]; [discriminate|lia].
  - unfold handleUpload. rewrite Hst.
    destruct (uploadFile u) as [[b p]|] eqn:Hf.
    + destruct Hu as [Hu|Hu]; [discriminate|].
      unfold MAX_UPLOAD_SIZE in *.
      rewrite wrap32_small by lia.
      destruct (Z.ltb_spec (10 * 1024 * 1024)
                  (uploadedBytes u + up_currentSize up)) as [Hover|Hfit].
      * specialize (IH {| uploadFile := None;
                          uploadStartTime := uploadStartTime u;
                          uploadedBytes := uploadedBytes u + up_currentSize up |}
                      (or_introl eq_refl)).
        destruct (upload_run fs s chunks _) as [u2 ev2]. simpl in *. lia.
      * specialize (IH {| uploadFile := uploadFile u;
                          uploadStartTime := uploadStartTime u;
                          uploadedBytes := uploadedBytes u + up_currentSize up |}).
        simpl in IH. rewrite Hf in IH.
        destruct (upload_run fs s chunks _) as [u2 ev2]. simpl in *.
        assert (Hin : 0 <= uploadedBytes u + up_currentSize up
                          <= 10 * 1024 * 1024) by lia.
        specialize (IH (or_intror Hin)). lia.
    + specialize (IH u (or_introl Hf)). rewrite Hf in IH.
      destruct (upload_run fs s chunks u) as [u2 ev2]. simpl in *. lia.
Qed.

Lemma upload_open_zero b p u :
  uploadedBytes (fst (upload_open fs b p u)) = uploadedBytes u /\
  bytes_written (snd (upload_open fs b p u)) = 0.
Proof.
  unfold upload_open.
  destruct (negb (fs_dir_exists fs b) && negb (fs_mkdir fs b)); simpl;
    [auto|].
  destruct (fs_dir_exists fs b); simpl; auto.
Qed.

End UploadSize.

(** X13.  The upload size limit.  From the start of an upload on, however
    many chunks arrive, the bytes handed to the file never add up to more
    than [MAX_UPLOAD_SIZE] (10 MB): the chunk that would cross the limit is
    not written, the file is closed, and later chunks are dropped. *)
Theorem upload_size_capped (fs : FileSystem) (s : State) (now : Z)
    (name : string) (cur tot : Z) (chunks : list (Z * HTTPUpload))
    (u0 : Upload) :
  Forall (fun c => up_status (snd c) = UPLOAD_FILE_WRITE /\
                   0 <= up_currentSize (snd c) < 2 ^ 31) chunks ->
  0 <= bytes_written
         (snd (upload_run fs s
                 ((now, upload_call UPLOAD_FILE_START name cur tot) :: chunks)
                 u0))
    <= MAX_UPLOAD_SIZE.
Proof.
  intros Hchunks. simpl.
  destruct (handleUpload fs s now
              (upload_call UPLOAD_FILE_START name cur tot) u0)
    as [u1 ev1] eqn:Hstart.
  assert (H1 : bytes_written ev1 = 0 /\
               (uploadFile u1 = None \/ uploadedBytes u1 = 0)).
  { unfold handleUpload in Hstart. simpl in Hstart.
    destruct (negb (isValidFilename (toLowerCase name))).
    - injection Hstart as <- <-. simpl. auto.
    - destruct (useSDCard (config s) && sdCardAvailable s);
        [|destruct (littleFSAvailable s)];
        try (match type of Hstart with
             | upload_open ?f ?b ?p ?u = _ =>
               destruct (upload_open_zero f b p u) as (E1 & E2);
               rewrite Hstart in E1, E2; simpl in E1, E2; auto
             end).
      injection Hstart as <- <-. simpl. auto. }
  destruct H1 as (Hev & Hu1).
  assert (Hu1' : uploadFile u1 = None
                 \/ 0 <= uploadedBytes u1 <= MAX_UPLOAD_SIZE).
  { destruct Hu1 as [H|H]; [left; exact H|right].
    rewrite H. unfold MAX_UPLOAD_SIZE. lia. }
  pose proof (writes_bounded fs s chunks u1 Hchunks Hu1') as Hb.
  destruct (upload_run fs s chunks u1) as [u2 ev2]. simpl in *.
  rewrite bytes_written_app, Hev.
  destruct (uploadFile u1).
  - destruct Hu1 as [H|H]; [discriminate|]. rewrite H in Hb. lia.
  - unfold MAX_UPLOAD_SIZE. lia.
Qed.

Lemma upload_size_capped_witness :
  Forall (fun c => up_status (snd c) = UPLOAD_FILE_WRITE /\
                   0 <= up_currentSize (snd c) < 2 ^ 31)
    [(1, upload_call UPLOAD_FILE_WRITE "alarm1.wav" 6000000 0);
     (2, upload_call UPLOAD_FILE_WRITE "alarm1.wav" 6000000 0);
     (3, upload_call UPLOAD_FILE_WRITE "alarm1.wav" 100 0)] /\
  bytes_written
    (snd (upload_run fs_fine boot
            [(0, upload_call UPLOAD_FILE_START "alarm1.wav" 0 0);
             (1, upload_call UPLOAD_FILE_WRITE "alarm1.wav" 6000000 0);
             (2, upload_call UPLOAD_FILE_WRITE "alarm1.wav" 6000000 0);
             (3, upload_call UPLOAD_FILE_WRITE "alarm1.wav" 100 0)]
            no_upload)) <= MAX_UPLOAD_SIZE.
Proof.
  assert (H : Forall (fun c => up_status (snd c) = UPLOAD_FILE_WRITE /\
                               0 <= up_currentSize (snd c) < 2 ^ 31)
    [(1, upload_call UPLOAD_FILE_WRITE "alarm1.wav" 6000000 0);
     (2, upload_call UPLOAD_FILE_WRITE "alarm1.wav" 6000000 0);
     (3, upload_call UPLOAD_FILE_WRITE "alarm1.wav" 100 0)]).
  { repeat constructor; simpl; lia. }
  split; [exact H|].
  apply (upload_size_capped fs_fine boot 0 "alarm1.wav" 0 0 _ no_upload H).
Defined.

Section UploadRuns.
Variables (fs : FileSystem) (s : State).

Lemma upload_run_app calls1 calls2 u :
  upload_run fs s (calls1 ++ calls2) u
  = (fst (upload_run fs s calls2 (fst (upload_run fs s calls1 u))),
     snd (upload_run fs s calls1 u)
       ++ snd (upload_run fs s calls2 (fst (upload_run fs s calls1 u)))).
Proof.
  revert u. induction calls1 as [|[now up] calls1 IH]; intros u; simpl.
  - destruct (upload_run fs s calls2 u). reflexivity.
  - destruct (handleUpload fs s now up u) as [u1 ev1].
    rewrite IH.
    destruct (upload_run fs s calls1 u1) as [u2 ev2]. simpl.
    rewrite app_assoc. reflexivity.
Qed.

Lemma upload_run_cons now up calls u :
  upload_run fs s ((now, up) :: calls) u
  = (fst (upload_run fs s calls (fst (handleUpload fs s now up u))),
     snd (handleUpload fs s now up u)
       ++ snd (upload_run fs s calls (fst (handleUpload fs s now up u)))).
Proof.
  simpl. destruct (handleUpload fs s now up u) as [u1 ev1]. simpl.
  destruct (upload_run fs s calls u1). reflexivity.
Qed.

Lemma handleUpload_start_refused now name cur tot u :
  isValidFilename (toLowerCase name) = false ->
  handleUpload fs s now (upload_call UPLOAD_FILE_START name cur tot) u
  = ({| uploadFile := None; uploadStartTime := uploadStartTime u;
        uploadedBytes := uploadedBytes u |}, []).
Proof. intros H. unfold handleUpload. simpl. rewrite H. reflexivity. Qed.

(** Chunks that arrive while no file is open are dropped. *)
Lemma writes_dropped chunks u :
  Forall (fun c => up_status (snd c) = UPLOAD_FILE_WRITE) chunks ->
  uploadFile u = None ->
  upload_run fs s chunks u = (u, []).
Proof.
  induction 1 as [|[now up] chunks Hst _ IH]; intros Hf; simpl in *.
  - reflexivity.
  - unfold handleUpload. rewrite Hst, Hf. rewrite IH by exact Hf. reflexivity.
Qed.

(** Chunks that fit are written to the open file, in order. *)
Lemma writes_kept chunks u b p :
  Forall (fun c => up_status (snd c) = UPLOAD_FILE_WRITE /\
                   0 <= up_currentSize (snd c)) chunks ->
  uploadFile u = Some (b, p) -> 0 <= uploadedBytes u ->
  uploadedBytes u + list_sum_Z (map (fun c => up_currentSize (snd c)) chunks)
    <= MAX_UPLOAD_SIZE ->
  upload_run fs s chunks u
  = ({| uploadFile := Some (b, p); uploadStartTime := uploadStartTime u;
        uploadedBytes :=
          uploadedBytes u
          + list_sum_Z (map (fun c => up_currentSize (snd c)) chunks) |},
     map (fun c => UpWrite b p (up_currentSize (snd c))) chunks).
Proof.
  intros H. revert u.
  induction H as [|[now up] chunks [Hst Hsz] Hall IH]; intros u Hf H0 Hsum;
    simpl in *.
  - rewrite Z.add_0_r, <- Hf. destruct u; reflexivity.
  - assert (Hrest : 0 <= list_sum_Z
                           (map (fun c => up_currentSize (snd c)) chunks)).
    { clear -Hall. induction Hall as [|c l [_ Hc] _ IHl]; simpl; lia. }
    unfold handleUpload. rewrite Hst, Hf.
    unfold MAX_UPLOAD_SIZE in *.
    rewrite wrap32_small by lia.
    destruct (Z.ltb_spec (10 * 1024 * 1024)
                (uploadedBytes u + up_currentSize up)) as [Hover|Hfit];
      [lia|].
    rewrite (IH {| uploadFile := Some (b, p);
                   uploadStartTime := uploadStartTime u;
                   uploadedBytes := uploadedBytes u + up_currentSize up |})
      by (simpl; try reflexivity; lia).
    simpl. rewrite Z.add_assoc. reflexivity.
Qed.

Lemma lower_audio_path name :
  toLowerCase ("/audio/" ++ name) = upload_path name.
Proof. rewrite toLowerCase_app. reflexivity. Qed.

(** The end of a request on an open file: the size check is made on the
    selected backend. *)
Lemma handleUpload_end_open now name cur tot u f b :
  uploadFile u = Some f -> backend_of s = Some b ->
  handleUpload fs s now (upload_call UPLOAD_FILE_END name cur tot) u
  = ({| uploadFile := None; uploadStartTime := uploadStartTime u;
        uploadedBytes := 0 |},
     [UpClose;
      UpSend (if bool_decide (fs_size fs b (upload_path name) = Some tot)
              then 200 else 500)]).
Proof.
  intros Hf Hb. unfold handleUpload.
  cbn [up_status up_filename up_totalSize upload_call].
  rewrite Hf, lower_audio_path.
  unfold backend_of in Hb.
  destruct (useSDCard (config s) && sdCardAvailable s);
    [|destruct (littleFSAvailable s); [|discriminate]];
    injection Hb as <-;
    (destruct (fs_size fs _ (upload_path name)) as [n|];
     [destruct (Z.eqb_spec n tot) as [->|Hne]|]);
    try (rewrite bool_decide_eq_true_2 by reflexivity; reflexivity);
    rewrite bool_decide_eq_false_2 by congruence; reflexivity.
Qed.

End UploadRuns.

(** X14.  A refused file name.  When the name of an upload is not one of
    the clip names, nothing is created, opened or written for the whole
    request, whatever chunks follow and whatever upload was under way
    before; the end of the request is answered with status 500. *)
Theorem refused_name_writes_nothing (fs : FileSystem) (s : State)
    (now nowe : Z) (name : string) (cur tot : Z)
    (chunks : list (Z * HTTPUpload)) (upe : HTTPUpload) (u0 : Upload) :
  isValidFilename (toLowerCase name) = false ->
  Forall (fun c => up_status (snd c) = UPLOAD_FILE_WRITE) chunks ->
  up_status upe = UPLOAD_FILE_END ->
  upload_run fs s
    ((now, upload_call UPLOAD_FILE_START name cur tot)
       :: chunks ++ [(nowe, upe)]) u0
  = ({| uploadFile := None; uploadStartTime := uploadStartTime u0;
        uploadedBytes := 0 |}, [UpSend 500]).
Proof.
  intros Hbad Hchunks Hend.
  rewrite upload_run_cons, upload_run_app.
  rewrite handleUpload_start_refused by exact Hbad. simpl fst. simpl snd.
  rewrite writes_dropped by (try exact Hchunks; reflexivity). simpl.
  unfold handleUpload. rewrite Hend. simpl. reflexivity.
Qed.

Lemma refused_name_writes_nothing_witness :
  isValidFilename (toLowerCase "index.html") = false /\
  upload_run fs_fine boot
    [(0, upload_call UPLOAD_FILE_START "index.html" 0 0);
     (1, upload_call UPLOAD_FILE_WRITE "index.html" 512 0);
     (2, upload_call UPLOAD_FILE_END "index.html" 0 512)] no_upload
  = (no_upload, [UpSend 500]).
Proof.
  split; [reflexivity|].
  apply (refused_name_writes_nothing fs_fine boot 0 2 "index.html" 0 0
           [(1, upload_call UPLOAD_FILE_WRITE "index.html" 512 0)]
           (upload_call UPLOAD_FILE_END "index.html" 0 512) no_upload).
  - reflexivity.
  - repeat constructor.
  - reflexivity.
Defined.

(** X15.  An upload within the limit.  For an accepted name, with [/audio]
    present and the file opening on the selected backend, chunks that add
    up to at most [MAX_UPLOAD_SIZE] are all written, in order, to that one
    file; the request is answered 200 exactly when the file then has the
    announced total size, 500 otherwise, and the upload globals are reset
    for the next request. *)
Theorem upload_within_limit (fs : FileSystem) (s : State) (now nowe : Z)
    (name : string) (cur tot cure tote : Z) (chunks : list (Z * HTTPUpload))
    (u0 : Upload) (b : Backend) :
  isValidFilename (toLowerCase name) = true ->
  backend_of s = Some b -> fs_dir_exists fs b = true ->
  fs_open_write fs b (upload_path name) = true ->
  Forall (fun c => up_status (snd c) = UPLOAD_FILE_WRITE /\
                   0 <= up_currentSize (snd c)) chunks ->
  list_sum_Z (map (fun c => up_currentSize (snd c)) chunks)
    <= MAX_UPLOAD_SIZE ->
  upload_run fs s
    ((now, upload_call UPLOAD_FILE_START name cur tot)
       :: chunks ++ [(nowe, upload_call UPLOAD_FILE_END name cure tote)]) u0
  = ({| uploadFile := None; uploadStartTime := now; uploadedBytes := 0 |},
     UpOpen b (upload_path name)
       :: map (fun c => UpWrite b (upload_path name) (up_currentSize (snd c)))
            chunks
       ++ [UpClose;
           UpSend (if bool_decide (fs_size fs b (upload_path name) = Some tote)
                   then 200 else 500)]).
Proof.
  intros Hv Hb Hd Hopen Hchunks Hsum.
  rewrite upload_run_cons, upload_run_app.
  rewrite (handleUpload_start_valid fs s now name cur tot u0 b) by assumption.
  rewrite Hopen. simpl fst. simpl snd.
  rewrite (writes_kept fs s chunks _ b (upload_path name))
    by (simpl; try reflexivity; try assumption; lia).
  cbn [fst snd].
  rewrite (handleUpload_end_open fs s nowe name cure tote _
             (b, upload_path name) b) by (try exact Hb; reflexivity).
  reflexivity.
Qed.

Lemma upload_within_limit_witness :
  isValidFilename (toLowerCase "Alarm.wav") = true /\
  list_sum_Z [1000; 1048] <= MAX_UPLOAD_SIZE /\
  snd (upload_run fs_fine boot
         [(0, upload_call UPLOAD_FILE_START "Alarm.wav" 0 0);
          (1, upload_call UPLOAD_FILE_WRITE "Alarm.wav" 1000 1000);
          (2, upload_call UPLOAD_FILE_WRITE "Alarm.wav" 1048 2048);
          (3, upload_call UPLOAD_FILE_END "Alarm.wav" 0 2048)] no_upload)
  = [UpOpen SDcard "/audio/alarm.wav";
     UpWrite SDcard "/audio/alarm.wav" 1000;
     UpWrite SDcard "/audio/alarm.wav" 1048; UpClose; UpSend 200].
Proof.
  assert (Hsum : list_sum_Z [1000; 1048] <= MAX_UPLOAD_SIZE)
    by (vm_compute; discriminate).
  split; [reflexivity|]. split; [exact Hsum|].
  assert (Hchunks :
    Forall (fun c => up_status (snd c) = UPLOAD_FILE_WRITE /\
                     0 <= up_currentSize (snd c))
      [(1, upload_call UPLOAD_FILE_WRITE "Alarm.wav" 1000 1000);
       (2, upload_call UPLOAD_FILE_WRITE "Alarm.wav" 1048 2048)]).
  { repeat constructor; simpl; lia. }
  exact (f_equal snd
           (upload_within_limit fs_fine boot 0 3 "Alarm.wav" 0 0 0 2048 _
              no_upload SDcard eq_refl eq_refl eq_refl eq_refl Hchunks Hsum)).
Defined.

(** ** Playback without the SD card *)

(** X16.  When the SD card is not selected or not mounted, [playAudio]
    never reads it: the result is the same whatever the SD card holds, no
    SD source is open afterwards, a clip that opens on LittleFS is played
    from there, and when LittleFS is not mounted either nothing plays,
    whatever files exist. *)
Theorem playAudio_without_sd (env env' : Storage) (i : nat) (w : bool)
    (s : State) :
  audioSystemReady s = true ->
  useSDCard (config s) && sdCardAvailable s = false ->
  let s' := playAudio env i w s in
  ((forall p, lfs_exists env' p = lfs_exists env p) ->
   (forall p, wav_begin env' LittleFS p = wav_begin env LittleFS p) ->
   playAudio env' i w s = s') /\
  fileSD (audio s') = None /\
  (littleFSAvailable s = true ->
   opens env LittleFS (audioFile i w) = true ->
   audio s' = playing LittleFS (audioFile i w) i w) /\
  (littleFSAvailable s = true ->
   opens env LittleFS (audioFile i w) = false ->
   opens env LittleFS (defaultAudioFile w) = true ->
   audio s' = playing LittleFS (defaultAudioFile w) i w) /\
  (littleFSAvailable s = false -> audio s' = idle_audio /\ owner s' = None).
Proof.
  intros Hr Hsd s'. unfold s'.
  rewrite !playAudio_ready by exact Hr.
  unfold channel_after, clip_for, backend_of. rewrite Hsd.
  split; [|split; [|split; [|split]]].
  - intros Hex Hbeg. unfold opens, file_exists.
    destruct (littleFSAvailable s); [|reflexivity].
    rewrite !Hex, !Hbeg. reflexivity.
  - simpl. destruct (littleFSAvailable s); [|reflexivity].
    destruct (opens env LittleFS (audioFile i w)); [reflexivity|].
    destruct (opens env LittleFS (defaultAudioFile w)); reflexivity.
  - intros -> ->. reflexivity.
  - intros -> -> ->. reflexivity.
  - intros ->. split; reflexivity.
Qed.

Lemma playAudio_without_sd_witness :
  audioSystemReady boot_no_sd = true /\
  useSDCard (config boot_no_sd) && sdCardAvailable boot_no_sd = false /\
  playAudio clips_everywhere 1 false boot_no_sd
  = playAudio sd_blank 1 false boot_no_sd
  /\ audio (playAudio sd_blank 1 false boot_no_sd)
     = playing LittleFS (audioFile 1 false) 1 false.
Proof.
  split; [reflexivity|]. split; [reflexivity|].
  destruct (playAudio_without_sd sd_blank clips_everywhere 1 false boot_no_sd
              eq_refl eq_refl) as (H1 & _ & H2 & _).
  split.
  - apply H1; intros p; reflexivity.
  - apply H2; reflexivity.
Defined.

(** ** Stored settings *)

Section Stored.
Variable env : Storage.

Lemma updateTimers_courtSettings now l s :
  courtSettings (fold_left (fun s i => updateTimer env now i s) l s)
  = courtSettings s.
Proof.
  revert s. induction l as [|i l IH]; intros s; simpl; [reflexivity|].
  rewrite IH. apply updateTimer_courtSettings.
Qed.

Lemma updateAlarms_courtSettings now l s :
  courtSettings (fold_left (fun s i => updateAlarm env now i s) l s)
  = courtSettings s.
Proof.
  revert s. induction l as [|i l IH]; intros s; simpl; [reflexivity|].
  rewrite IH. apply updateAlarm_courtSettings.
Qed.

Lemma valid_court_cases (c : Z) :
  invalidCourt c = false ->
  Z.to_nat c = 0%nat \/ Z.to_nat c = 1%nat \/ Z.to_nat c = 2%nat
  \/ Z.to_nat c = 3%nat.
Proof.
  unfold invalidCourt. intros H. apply orb_false_iff in H as [H1 H2].
  apply Z.ltb_ge in H1. apply Z.leb_gt in H2. lia.
Qed.

(** What [handleSettings] stores is what the request carried. *)
Lemma handleSettings_store_valid a s P :
  invalidCourt (se_courtId a) = false ->
  length (courtSettings s) = 4%nat ->
  handleSettings_store (Parsed a) s P
  = putBool (court_key "loop" (Z.to_nat (se_courtId a))) (se_loopAlarm a)
      (putInt (court_key "warn" (Z.to_nat (se_courtId a))) (se_warningTime a)
         (putInt (court_key "vol" (Z.to_nat (se_courtId a))) (se_volume a)
            P)).
Proof.
  intros Hv Hlen. pose proof (valid_court_cases _ Hv) as Hi.
  unfold handleSettings_store, handleSettings, settings_of. rewrite Hv.
  simpl. rewrite list_lookup_insert_eq by lia. reflexivity.
Qed.

Lemma synced_exec op s P :
  synced s P -> synced (exec env op s) (exec_store op s P).
Proof.
  intros Hs. pose proof Hs as [Hc Hcs].
  destruct op as [now b|now b|b|b|b|b|c|now|now|r l]; simpl.
  - destruct b as [| |a]; simpl; auto.
    destruct (invalidCourt (st_courtId a)); exact Hs.
  - destruct b as [| |a]; simpl; auto.
    destruct (invalidCourt a); exact Hs.
  - destruct b as [| |a]; simpl; auto.
    destruct (invalidCourt a); simpl; auto.
    unfold deactivateLED. destruct (Z.to_nat a <? 4)%nat; exact Hs.
  - destruct b as [| |a]; try exact Hs.
    destruct (invalidCourt (se_courtId a)) eqn:Hv.
    + unfold handleSettings, handleSettings_store. rewrite Hv. exact Hs.
    + rewrite handleSettings_store_valid
        by (try exact Hv; rewrite Hcs; reflexivity).
      unfold handleSettings. rewrite Hv. unfold synced. simpl.
      rewrite Hc, Hcs.
      destruct (valid_court_cases _ Hv) as [-> | [-> | [-> | ->]]];
        (split; [reflexivity|]); destruct a; reflexivity.
  - destruct b as [| |[oa ow]]; simpl; auto.
    destruct (_ || _); [exact Hs|]. destruct (_ || _); [exact Hs|].
    unfold synced. simpl. rewrite Hcs, Hc. split; reflexivity.
  - destruct b as [| |v]; simpl; auto.
    unfold synced. simpl. rewrite Hcs, Hc. split; reflexivity.
  - destruct c as [d|d|]; simpl; auto;
      destruct (_ && _); auto;
      unfold synced; simpl; rewrite Hcs, Hc; split; reflexivity.
  - unfold synced, updateTimers.
    rewrite updateTimers_config, updateTimers_courtSettings. exact Hs.
  - unfold synced, updateAlarms.
    rewrite updateAlarms_config, updateAlarms_courtSettings. exact Hs.
  - unfold updateAudioPlayback.
    destruct (_ && _); auto. destruct r; [destruct l|]; exact Hs.
Qed.

End Stored.

(** X17.  Settings survive a restart.  Every handler that changes the
    configuration or a court's settings in memory writes the same values
    to [preferences]: after any sequence of requests, serial commands and
    update passes, a restart loads exactly the configuration (global
    volume, alarm and warning durations, storage selection) and the
    per-court settings (volume, warning lead, looping) that were in force
    before it. *)
Theorem settings_survive_restart (env : Storage) (sd lfs sd' lfs' : bool)
    (P0 : Prefs) (ops : list Op) :
  let r := run_store env ops (power_on sd lfs P0) P0 in
  fst r = run env ops (power_on sd lfs P0) /\
  config (power_on sd' lfs' (snd r)) = config (fst r) /\
  courtSettings (power_on sd' lfs' (snd r)) = courtSettings (fst r).
Proof.
  assert (Hgen : forall s P, synced s P ->
            fst (run_store env ops s P) = run env ops s /\
            synced (fst (run_store env ops s P))
                   (snd (run_store env ops s P))).
  { induction ops as [|op ops' IH]; intros s P Hs; simpl.
    - split; [reflexivity|exact Hs].
    - apply IH. apply synced_exec. exact Hs. }
  intros r. destruct (Hgen (power_on sd lfs P0) P0) as (Hrun & Hc & Hcs).
  { split; reflexivity. }
  split; [exact Hrun|]. unfold r. rewrite Hc, Hcs. split; reflexivity.
Qed.
